(** * Verification of the settings optimizer

    A shallow embedding of [src/app/services/settings/optimizer.ts]: the
    definition tree of the optimisable settings, the tree walkers, the
    label formatter, and the [Optimizer] class with its category cache and
    write-back ledger, followed by the properties of the specification. *)

From Stdlib Require Import ZArith String Ascii List.
From stdpp Require Import base decidable option list gmap strings.

Local Open Scope string_scope.
Local Open Scope list_scope.

(** ** Keys, categories and raw values *)

(** [enum OptimizationKey]. *)
Inductive OptimizationKey :=
  | outputMode | videoBitrate | audioBitrate | quality | colorSpace | fps
  | encoder | keyframeInterval | encoderPreset | profile | tune
  | audioTrackIndex.

(** [Object.values(OptimizationKey)], in declaration order. *)
Definition OptimizationKey_values : list OptimizationKey :=
  [outputMode; videoBitrate; audioBitrate; quality; colorSpace; fps;
   encoder; keyframeInterval; encoderPreset; profile; tune; audioTrackIndex].

(** The string each enumeration member stands for. *)
Definition OptimizationKey_name (k : OptimizationKey) : string :=
  match k with
  | outputMode => "outputMode" | videoBitrate => "videoBitrate"
  | audioBitrate => "audioBitrate" | quality => "quality"
  | colorSpace => "colorSpace" | fps => "fps" | encoder => "encoder"
  | keyframeInterval => "keyframeInterval"
  | encoderPreset => "encoderPreset" | profile => "profile"
  | tune => "tune" | audioTrackIndex => "audioTrackIndex"
  end.

#[global] Instance OptimizationKey_eq_dec : EqDecision OptimizationKey.
Proof. solve_decision. Defined.

Definition OptimizationKey_index (k : OptimizationKey) : nat :=
  match k with
  | outputMode => 0 | videoBitrate => 1 | audioBitrate => 2 | quality => 3
  | colorSpace => 4 | fps => 5 | encoder => 6 | keyframeInterval => 7
  | encoderPreset => 8 | profile => 9 | tune => 10 | audioTrackIndex => 11
  end.

Definition OptimizationKey_of_index (n : nat) : OptimizationKey :=
  nth n OptimizationKey_values audioTrackIndex.

#[global] Instance OptimizationKey_countable : Countable OptimizationKey.
Proof.
  apply (inj_countable' OptimizationKey_index OptimizationKey_of_index).
  intros []; reflexivity.
Defined.

(** [enum CategoryName]. *)
Inductive CategoryName := output | video | advanced.

Definition CategoryName_name (c : CategoryName) : string :=
  match c with
  | output => "Output" | video => "Video" | advanced => "Advanced"
  end.

#[global] Instance CategoryName_eq_dec : EqDecision CategoryName.
Proof. solve_decision. Defined.

Definition CategoryName_index (c : CategoryName) : nat :=
  match c with output => 0 | video => 1 | advanced => 2 end.

Definition CategoryName_of_index (n : nat) : CategoryName :=
  match n with 0 => output | 1 => video | _ => advanced end.

#[global] Instance CategoryName_countable : Countable CategoryName.
Proof.
  apply (inj_countable' CategoryName_index CategoryName_of_index).
  intros []; reflexivity.
Defined.

(** The values the code handles at type [any]: strings, numbers (the
    bitrates and intervals are integers) and [undefined].  [!==] on these
    is structural inequality. *)
Inductive Value :=
  | VStr (s : string)
  | VNum (n : Z)
  | VUndefined.

#[global] Instance Value_eq_dec : EqDecision Value.
Proof. solve_decision. Defined.

(** ** The definition tree *)

Set Warnings "-register-all".

(** [type DefinitionParam].  An optional property is an [option]; each
    element of [dependents] is the pair of its [value] and its [params]. *)
Inductive DefinitionParam := mkDefinitionParam {
  key : OptimizationKey;
  category : CategoryName;
  subCategory : string;
  setting : string;
  label : option string;
  lookupValueName : option bool;
  dependents : option (list (Value * list DefinitionParam));
}.

Definition leaf k c sub s lbl lk : DefinitionParam :=
  mkDefinitionParam k c sub s lbl lk None.

(** [const definitionParams]. *)
Definition encoderParams : list DefinitionParam :=
  [ leaf encoderPreset output "Streaming" "preset"
      (Some "settings.encoderPreset") (Some true);
    leaf tune output "Streaming" "tune" None (Some true) ].

Definition advancedParams : list DefinitionParam :=
  [ leaf videoBitrate output "Streaming" "bitrate"
      (Some "settings.videoBitrate") None;
    leaf audioBitrate output "Audio - Track 1" "Track1Bitrate"
      (Some "settings.audioBitrate") None;
    mkDefinitionParam encoder output "Streaming" "Encoder" None (Some true)
      (Some [(VStr "obs_x264", encoderParams)]);
    leaf keyframeInterval output "Streaming" "keyint_sec"
      (Some "settings.keyframeInterval") None;
    leaf profile output "Streaming" "profile" None (Some true);
    leaf audioTrackIndex output "Streaming" "TrackIndex" None None ].

Definition definitionParams : list DefinitionParam :=
  [ mkDefinitionParam outputMode output "Untitled" "Mode" None (Some true)
      (Some [(VStr "Advanced", advancedParams)]);
    leaf quality video "Untitled" "Output"
      (Some "streaming.resolution") (Some true);
    leaf colorSpace advanced "Video" "ColorSpace" None None;
    leaf fps video "Untitled" "FPSCommon" (Some "streaming.FPS") None ].

(** Induction over the tree: a property of a node may rely on the property
    of every node of every branch. *)
Section DefinitionParam_induction.
Variable P : DefinitionParam → Prop.
Hypothesis step : ∀ item,
  (∀ deps, dependents item = Some deps →
     Forall (λ dep, Forall P dep.2) deps) →
  P item.

Let Q := λ dep : Value * list DefinitionParam, Forall P dep.2.

Fixpoint DefinitionParam_tree_ind (item : DefinitionParam) : P item :=
  step item
    (match item as i return
       ∀ deps, dependents i = Some deps → Forall Q deps
     with
     | mkDefinitionParam _ _ _ _ _ _ ds => λ deps,
       match ds as o return o = Some deps → Forall Q deps with
       | None => λ E, match Some_ne_None _ (eq_sym E) with end
       | Some ds' => λ E,
         match E in _ = o return
           match o with Some d => Forall Q d | None => True end
         with
         | eq_refl =>
           (fix branches (l : list (Value * list DefinitionParam)) :
              Forall Q l :=
              match l with
              | [] => @Lists.List.Forall_nil _ Q
              | dep :: l' =>
                @Lists.List.Forall_cons _ Q dep l'
                  ((fix nodes (ps : list DefinitionParam) : Forall P ps :=
                      match ps with
                      | [] => @Lists.List.Forall_nil _ P
                      | p :: ps' =>
                        @Lists.List.Forall_cons _ P p ps'
                          (DefinitionParam_tree_ind p) (nodes ps')
                      end) dep.2)
                  (branches l')
              end) ds'
         end
       end
     end).
End DefinitionParam_induction.

(** ** Snapshots *)

(** [type OptimizeSettings]: an object whose own properties are
    optimisation keys.  [values.hasOwnProperty(k)] is [is_Some (values !! k)]
    and a property may be present with the value [undefined]. *)
Abbreviation OptimizeSettings := (gmap OptimizationKey Value).

Definition hasOwnProperty (values : OptimizeSettings) (k : OptimizationKey) : bool :=
  bool_decide (is_Some (values !! k)).

(** [values[k]]: reading a missing property gives [undefined]. *)
Definition prop (values : OptimizeSettings) (k : OptimizationKey) : Value :=
  default VUndefined (values !! k).

(** ** Tree walkers *)

(** The nodes [iterateDefinitions] yields for one element of [params]:
    the node itself, then the nodes of every branch in order. *)
Fixpoint iterateDefinition (item : DefinitionParam) : list DefinitionParam :=
  item ::
    match dependents item with
    | Some deps => flat_map (λ keyParams, flat_map iterateDefinition keyParams.2) deps
    | None => []
    end.

(** [function* iterateDefinitions(params)], drained into a list. *)
Definition iterateDefinitions (params : list DefinitionParam) : list DefinitionParam :=
  flat_map iterateDefinition params.

(** One round of the loop of [isDependValues]. *)
Fixpoint isDependValue (values : OptimizeSettings) (item : DefinitionParam) : bool :=
  if hasOwnProperty values (key item) then true
  else
    match dependents item with
    | Some deps => existsb (λ dependent, existsb (isDependValue values) dependent.2) deps
    | None => false
    end.

(** [function isDependValues(values, items)]. *)
Definition isDependValues (values : OptimizeSettings) (items : list DefinitionParam) : bool :=
  existsb (isDependValue values) items.

(** Lines written to the console by the module-level code and by
    [OptKeyProperty]. *)
Inductive Diagnostic :=
  | MissingKeys (missing : list OptimizationKey)
  | LabelNotFound (lbl : string) (k : OptimizationKey)
  | ValueUndefined (path : string).

(** The [missing] array of [validateDefinitionParams]. *)
Definition missingKeys (params : list DefinitionParam) : list OptimizationKey :=
  let actual : gset OptimizationKey :=
    list_to_set (map key (iterateDefinitions params)) in
  filter (λ k, k ∉ actual) OptimizationKey_values.

(** [function validateDefinitionParams(params)]: it returns nothing, and
    its whole effect is the console line it may write. *)
Definition validateDefinitionParams (params : list DefinitionParam) : list Diagnostic :=
  let missing := missingKeys params in
  if bool_decide (0 < length missing)%nat then [MissingKeys missing] else [].

(** ** Labels and display values *)

(** [/\s/] on the characters representable here (the ASCII white space). *)
Definition is_space (a : ascii) : bool :=
  let n := nat_of_ascii a in
  bool_decide (n = 32 ∨ (9 ≤ n ∧ n ≤ 13))%nat.

Fixpoint has_space (s : string) : bool :=
  match s with
  | EmptyString => false
  | String a s' => is_space a || has_space s'
  end.

(** [function i18nPath(top, ...args)]. *)
Definition i18nPath (top : string) (args : list string) : string :=
  top +:+ String.concat ""
    (map (λ s, if has_space s then "['" +:+ s +:+ "']" else "." +:+ s) args).

(** How a call ends: with a result, or with the [TypeError] raised when
    [match] is called on something that is not a string. *)
Inductive Completion (A : Type) :=
  | Normal (a : A)
  | TypeError.
Arguments Normal {A} a.
Arguments TypeError {A}.

(** A call of the formatter: how it completes, and the lines it writes to
    the console on the way. *)
Definition F (A : Type) : Type := Completion A * list Diagnostic.

Definition F_ret {A} (a : A) : F A := (Normal a, []).

Definition F_bind {A B} (m : F A) (k : A → F B) : F B :=
  match m with
  | (Normal a, lines) => let '(r, lines') := k a in (r, lines ++ lines')
  | (TypeError, lines) => (TypeError, lines)
  end.

(** The label path the constructor of [OptKeyProperty] stores.
    [if (options.label)] is false for a missing and for an empty label. *)
Definition labelPath (options : DefinitionParam) : string :=
  let fallback :=
    i18nPath "settings"
      [CategoryName_name (category options); subCategory options;
       setting options; "name"] in
  match label options with
  | Some l => if bool_decide (l = "") then fallback else l
  | None => fallback
  end.

Local Abbreviation options_key := key.
Local Abbreviation options_category := category.
Local Abbreviation options_subCategory := subCategory.
Local Abbreviation options_setting := setting.
Local Abbreviation options_lookupValueName := lookupValueName.

Module OptKeyProperty.

(** [class OptKeyProperty]. *)
Record t := mk {
  key : OptimizationKey;
  category : CategoryName;
  subCategory : string;
  setting : string;
  _label : string;
  lookupValueName : option bool;
}.

(** The constructor. *)
Definition new (options : DefinitionParam) : t :=
  mk (options_key options) (options_category options)
     (options_subCategory options) (options_setting options)
     (labelPath options) (options_lookupValueName options).

Section Translation.
(** The translation function [$t]. *)
Variable translate : string → string.

(** [get label()]. *)
Definition label (self : t) : F string :=
  let t := translate self.(_label) in
  if bool_decide (t ≠ self.(_label)) then (Normal t, [])
  else (Normal self.(setting), [LabelNotFound self.(_label) self.(key)]).

(** [value(v)].  A bare [return] gives [undefined].  The last argument
    of [i18nPath] is [v] itself, on which [match] exists only when it
    is a string. *)
Definition value (self : t) (v : Value) : F Value :=
  match v with
  | VUndefined =>
    (Normal VUndefined,
     [ValueUndefined
        (i18nPath "settings"
           [CategoryName_name self.(category); self.(subCategory);
            self.(setting)])])
  | _ =>
    if bool_decide (self.(lookupValueName) = Some true) then
      match v with
      | VStr s =>
        let t := i18nPath "settings"
                   [CategoryName_name self.(category); self.(subCategory);
                    self.(setting); s] in
        let name := translate t in
        if bool_decide (t ≠ name) then (Normal (VStr name), [])
        else (Normal v, [])
      | _ => (TypeError, [])
      end
    else (Normal v, [])
  end.
End Translation.

End OptKeyProperty.

(** ** The report of proposed changes *)

Module OptimizeItem.
(** [type OptimizeItem]; [newValue] is an optional property, and what
    [OptKeyProperty.value] returns is stored as it is. *)
Record t := mk {
  key : OptimizationKey;
  name : string;
  currentValue : Value;
  newValue : option Value;
}.
End OptimizeItem.

(** The [Map] of [optimizeInfo], in insertion order: [has], and the two
    ways an item is added ([set] of a new key, [push] on the list of a key
    that is there). *)
Definition Map_has (m : list (CategoryName * list OptimizeItem.t)) (c : CategoryName) : bool :=
  existsb (λ entry, bool_decide (entry.1 = c)) m.

Definition Map_add (m : list (CategoryName * list OptimizeItem.t)) (c : CategoryName)
    (item : OptimizeItem.t) : list (CategoryName * list OptimizeItem.t) :=
  if negb (Map_has m c) then m ++ [(c, [item])]
  else map (λ entry, if bool_decide (entry.1 = c) then (entry.1, entry.2 ++ [item]) else entry) m.

Section optimizeInfo.
Variable translate : string → string.
Variables current optimized : OptimizeSettings.

(** The item the loop of [optimizeInfo] builds for a definition. *)
Definition optimizeItem (definition : DefinitionParam) : F OptimizeItem.t :=
  let opt := OptKeyProperty.new definition in
  let key := OptKeyProperty.key opt in
  if hasOwnProperty optimized key then
    F_bind (OptKeyProperty.label translate opt) (λ name,
    F_bind (OptKeyProperty.value translate opt (prop current key)) (λ currentValue,
    F_bind (OptKeyProperty.value translate opt (prop optimized key)) (λ newValue,
    F_ret (OptimizeItem.mk key name currentValue (Some newValue)))))
  else
    F_bind (OptKeyProperty.label translate opt) (λ name,
    F_bind (OptKeyProperty.value translate opt (prop current key)) (λ currentValue,
    F_ret (OptimizeItem.mk key name currentValue None))).

(** The loop of [optimizeInfo] over the definitions left to visit. *)
Fixpoint optimizeInfo_loop (definitions : list DefinitionParam)
    (m : list (CategoryName * list OptimizeItem.t)) :
    F (list (CategoryName * list OptimizeItem.t)) :=
  match definitions with
  | [] => F_ret m
  | definition :: definitions' =>
    F_bind (optimizeItem definition) (λ item,
    optimizeInfo_loop definitions' (Map_add m (category definition) item))
  end.

(** [optimizeInfo(current, optimized)] of an [Optimizer], whose
    [definitions] are [definitionParams]. *)
Definition optimizeInfo : F (list (CategoryName * list OptimizeItem.t)) :=
  optimizeInfo_loop (iterateDefinitions definitionParams) [].
End optimizeInfo.

(** The types [OptimizeSettings] declares for its properties:
    [videoBitrate] and [keyframeInterval] are numbers, the others strings,
    and every property is optional, so it may also hold [undefined]. *)
Definition valueConforms (k : OptimizationKey) (v : Value) : bool :=
  match v, k with
  | VUndefined, _ => true
  | VNum _, (videoBitrate | keyframeInterval) => true
  | VNum _, _ => false
  | VStr _, (videoBitrate | keyframeInterval) => false
  | VStr _, _ => true
  end.

Definition conforms (values : OptimizeSettings) : Prop :=
  map_Forall (λ k v, valueConforms k v = true) values.

(** The categories of a sequence in the order they are first met. *)
Fixpoint firstEncountered (cs : list CategoryName) : list CategoryName :=
  match cs with
  | [] => []
  | c :: cs' => c :: filter (λ c', c' ≠ c) (firstEncountered cs')
  end.

(** ** The settings accessor *)

(** Modelled from the spec: the type [ISettingsSubCategory] of
    [./settings-api], which is not part of the sources at hand.  A category's
    form data is a list of sub-categories, each a named list of fields, and
    a field exposes a mutable [value]. *)
Record Setting := mkSetting {
  name : string;
  value : Value;
}.

Record ISettingsSubCategory := mkSubCategory {
  nameSubCategory : string;
  parameters : list Setting;
}.

Abbreviation FormData := (list ISettingsSubCategory).

#[global] Instance Setting_eq_dec : EqDecision Setting.
Proof. solve_decision. Defined.

#[global] Instance ISettingsSubCategory_eq_dec : EqDecision ISettingsSubCategory.
Proof. solve_decision. Defined.

(** Modelled from the spec: [findSetting] of the accessor, which locates a
    field in form data: the field called [setting] of the first
    sub-category called [category], when there is one. *)
Definition findSetting (settings : FormData) (category setting : string) : option Setting :=
  match List.find (λ sub, bool_decide (nameSubCategory sub = category)) settings with
  | Some sub => List.find (λ param, bool_decide (name param = setting)) (parameters sub)
  | None => None
  end.

(** Modelled from the spec: [findSettingValue] of the accessor, the
    convenience read of the value of the field [findSetting] locates;
    [undefined] when there is none. *)
Definition findSettingValue (settings : FormData) (category setting : string) : Value :=
  match findSetting settings category setting with
  | Some param => value param
  | None => VUndefined
  end.

(** What the assignment [setting.value = v] does to the form data the
    field [setting = findSetting(settings, category, setting)] lives in. *)
Fixpoint assignParameter (params : list Setting) (setting : string) (v : Value) : list Setting :=
  match params with
  | [] => []
  | param :: params' =>
    if bool_decide (name param = setting) then mkSetting (name param) v :: params'
    else param :: assignParameter params' setting v
  end.

Fixpoint assignSetting (settings : FormData) (category setting : string) (v : Value) : FormData :=
  match settings with
  | [] => []
  | sub :: settings' =>
    if bool_decide (nameSubCategory sub = category) then
      mkSubCategory (nameSubCategory sub) (assignParameter (parameters sub) setting v)
        :: settings'
    else sub :: assignSetting settings' category setting v
  end.

(** [interface ISettingsAccessor], for a host store whose state has type
    [Store]: reading a category's form data, and writing it back, which
    changes the store.  Form data read from the store is a fresh object:
    changing a field of it changes the store only through [setSettings]. *)
Class ISettingsAccessor (Store : Type) := {
  getSettingsFormData : Store → CategoryName → FormData;
  setSettings : Store → CategoryName → FormData → Store;
}.

(** What an [Optimizer] does that can be observed: its console lines, of
    which [LogGetCategory] and [LogUpdateCategory] stand next to the calls
    of [getSettingsFormData] and [setSettings] (the latter recorded with
    the form data it sends), and the evictions from its cache. *)
Inductive Event :=
  | LogGetCategory (c : CategoryName)
  | LogUpdateCategory (c : CategoryName) (sent : FormData)
  | LogSetValue (c : CategoryName) (k : OptimizationKey) (v : Value)
  | LogChange (c : CategoryName) (k : OptimizationKey) (old new : Value)
  | LogKeyNotFound (k : OptimizationKey)
  | CacheForgotten (c : CategoryName).

(** ** The optimizer *)

(** [class Optimizer] over a store.  [accessor] is the state of the store
    behind the accessor, [categoryCache] the [Map] and [modifiedCategories]
    the [Set], kept in insertion order as [Set] iterates. *)
Record Optimizer (Store : Type) := mkOptimizer {
  accessor : Store;
  categoryCache : gmap CategoryName FormData;
  modifiedCategories : list CategoryName;
  console : list Event;
}.
Arguments mkOptimizer {Store}.
Arguments accessor {Store}.
Arguments categoryCache {Store}.
Arguments modifiedCategories {Store}.
Arguments console {Store}.

(** [Set.prototype.add] and [Set.prototype.delete]. *)
Definition Set_add (c : CategoryName) (s : list CategoryName) : list CategoryName :=
  if bool_decide (c ∈ s) then s else s ++ [c].

Definition Set_delete (c : CategoryName) (s : list CategoryName) : list CategoryName :=
  filter (λ c', c' ≠ c) s.

(** [Object.assign({}, ...objects)] for objects of one property each. *)
Definition Object_assign (objects : list (OptimizationKey * Value)) : OptimizeSettings :=
  fold_left (λ target o, <[o.1 := o.2]> target) objects ∅.

Section Optimizer.
Context {Store : Type} `{!ISettingsAccessor Store}.

(** A method: a function of the state of the object. *)
Definition M (A : Type) : Type := Optimizer Store → A * Optimizer Store.

Definition ret {A} (a : A) : M A := λ self, (a, self).

Definition bind {A B} (m : M A) (k : A → M B) : M B :=
  λ self, let '(a, self') := m self in k a self'.

Notation "'let*' x := m 'in' k" := (bind m (λ x, k))
  (at level 10, x name, m at level 100, k at level 200).
Notation "m1 >> m2" := (bind m1 (λ _, m2))
  (at level 100, right associativity).

Definition log (e : Event) : M unit := λ self,
  (tt, mkOptimizer (accessor self) (categoryCache self)
         (modifiedCategories self) (console self ++ [e])).

(** [for (const x of l) f(x)]. *)
Definition forEach {A} (f : A → M unit) : list A → M unit :=
  fix each l :=
    match l with
    | [] => ret tt
    | x :: l' => f x >> each l'
    end.

(** The same for a generator body: what it yields, in order. *)
Definition forEachYield {A B} (f : A → M (list B)) : list A → M (list B) :=
  fix each l :=
    match l with
    | [] => ret []
    | x :: l' =>
      let* ys := f x in
      let* zs := each l' in
      ret (ys ++ zs)
    end.

(** [new Optimizer(accessor)]. *)
Definition new_Optimizer (store : Store) : Optimizer Store :=
  mkOptimizer store ∅ [] [].

(** [getCategory(category, reload = false)].  The entry it returns is
    always there at that point. *)
Definition getCategory (category : CategoryName) (reload : bool) : M FormData :=
  λ self,
    let self' :=
      if reload || negb (bool_decide (is_Some (categoryCache self !! category)))
      then
        mkOptimizer (accessor self)
          (<[category := getSettingsFormData (accessor self) category]>
             (categoryCache self))
          (modifiedCategories self)
          (console self ++ [LogGetCategory category])
      else self in
    (default [] (categoryCache self' !! category), self').

(** [updateCategory(category)]. *)
Definition updateCategory (category : CategoryName) : M unit :=
  λ self,
    if bool_decide (is_Some (categoryCache self !! category)) then
      (let* _ := log (LogUpdateCategory category
                        (default [] (categoryCache self !! category))) in
       let* settingsData := getCategory category false in
       λ self', (tt, mkOptimizer
                       (setSettings (accessor self') category settingsData)
                       (categoryCache self') (modifiedCategories self')
                       (console self'))) self
    else (tt, self).

(** [writeBackCategory(category)]. *)
Definition writeBackCategory (category : CategoryName) : M unit :=
  λ self,
    if bool_decide (category ∈ modifiedCategories self) then
      (updateCategory category >>
       λ self', (tt, mkOptimizer (accessor self') (categoryCache self')
                       (Set_delete category (modifiedCategories self'))
                       (console self'))) self
    else (tt, self).

(** [writeBackAllCategories()]. *)
Definition writeBackAllCategories : M unit :=
  λ self,
    (forEach updateCategory (modifiedCategories self) >>
     λ self', (tt, mkOptimizer (accessor self') (categoryCache self') []
                     (console self'))) self.

(** [forgetCategoryCache(category)]. *)
Definition forgetCategoryCache (category : CategoryName) : M unit :=
  λ self,
    if bool_decide (is_Some (categoryCache self !! category)) then
      (tt, mkOptimizer (accessor self)
             (delete category (categoryCache self))
             (if bool_decide (category ∈ modifiedCategories self)
              then Set_delete category (modifiedCategories self)
              else modifiedCategories self)
             (console self ++ [CacheForgotten category]))
    else (tt, self).

(** [findValue(i)]. *)
Definition Optimizer_findValue (i : DefinitionParam) : M Value :=
  let* settings := getCategory (category i) false in
  ret (findSettingValue settings (subCategory i) (setting i)).

(** [findSetting(i)]. *)
Definition Optimizer_findSetting (i : DefinitionParam) : M (option Setting) :=
  let* settings := getCategory (category i) false in
  ret (findSetting settings (subCategory i) (setting i)).

(** [setting.value = value] followed by [modifiedCategories.add(category)]:
    the field assigned is part of the form data the cache holds for the
    category of [item]. *)
Definition assignValue (item : DefinitionParam) (v : Value) : M unit :=
  λ self,
    (tt, mkOptimizer (accessor self)
           (alter (λ settings, assignSetting settings (subCategory item) (setting item) v)
              (category item) (categoryCache self))
           (Set_add (category item) (modifiedCategories self))
           (console self)).

(** The categories of the parameters of every branch, in the order the
    two nested loops of [setValue] visit them. *)
Definition dependentCategories (deps : list (Value * list DefinitionParam)) : list CategoryName :=
  flat_map (λ dependent, map category dependent.2) deps.

(** [setValue(item, value)]. *)
Definition setValue (item : DefinitionParam) (v : Value) : M unit :=
  log (LogSetValue (category item) (key item) v) >>
  let* found := Optimizer_findSetting item in
  match found with
  | Some setting =>
    if bool_decide (value setting ≠ v) then
      match dependents item with
      | Some deps =>
        forEach (λ dependent,
          forEach (λ subItem, writeBackCategory (category subItem)) dependent.2)
          deps
      | None => ret tt
      end >>
      log (LogChange (category item) (key item) (value setting) v) >>
      assignValue item v >>
      match dependents item with
      | Some deps =>
        writeBackCategory (category item) >>
        forEach (λ dependent,
          forEach (λ subItem, forgetCategoryCache (category subItem)) dependent.2)
          deps
      | None => ret tt
      end
    else ret tt
  | None => log (LogKeyNotFound (key item))
  end.

(** One round of the loop of [getValues]: what it yields. *)
Fixpoint getValuesItem (item : DefinitionParam) : M (list (OptimizationKey * Value)) :=
  let* v := Optimizer_findValue item in
  match dependents item with
  | Some deps =>
    let* ys :=
      forEachYield (λ dependent,
        setValue item dependent.1 >>
        forEachYield getValuesItem dependent.2) deps in
    setValue item v >>
    ret ((key item, v) :: ys)
  | None => ret [(key item, v)]
  end.

(** [*getValues(definitions)], drained. *)
Definition getValues (definitions : list DefinitionParam) : M (list (OptimizationKey * Value)) :=
  forEachYield getValuesItem definitions.

(** One round of the loop of [setValues]. *)
Fixpoint setValuesItem (values : OptimizeSettings) (item : DefinitionParam) : M unit :=
  match dependents item with
  | Some deps =>
    let* v := Optimizer_findValue item in
    forEach (λ dependent,
      if isDependValues values dependent.2 then
        setValue item dependent.1 >>
        forEach (setValuesItem values) dependent.2
      else ret tt) deps >>
    setValue item
      (if hasOwnProperty values (key item) then prop values (key item) else v)
  | None =>
    if hasOwnProperty values (key item) then
      setValue item (prop values (key item))
    else ret tt
  end.

(** [setValues(values, definitions)]. *)
Definition setValues (values : OptimizeSettings) (definitions : list DefinitionParam) : M unit :=
  forEach (setValuesItem values) definitions.

(** [getCurrentSettings()]. *)
Definition getCurrentSettings : M OptimizeSettings :=
  let* objects := getValues definitionParams in
  ret (Object_assign objects).

(** [optimize(optimized)]. *)
Definition optimize (optimized : OptimizeSettings) : M unit :=
  setValues optimized definitionParams >>
  writeBackAllCategories.

(** *** Notions the properties are stated with *)

(** What a call wrote to the trace: the events of [after] that are not
    in [before]. *)
Definition emitted (before after : Optimizer Store) : list Event :=
  drop (length (console before)) (console after).

(** A method keeps a property of the state. *)
Definition keeps {A} (P : Optimizer Store → Prop) (m : M A) : Prop :=
  ∀ self, P self → P (m self).2.

(** Every modified category has an entry in the cache. *)
Definition covers (self : Optimizer Store) : Prop :=
  ∀ c, c ∈ modifiedCategories self → is_Some (categoryCache self !! c).

(** The form data the optimizer works on for a category: the cached one
    when there is one, and the one of the store otherwise. *)
Definition view (self : Optimizer Store) (c : CategoryName) : FormData :=
  default (getSettingsFormData (accessor self) c) (categoryCache self !! c).

(** A cached category that is not modified holds what the store holds. *)
Definition coherent (self : Optimizer Store) : Prop :=
  ∀ c settings,
    categoryCache self !! c = Some settings →
    c ∉ modifiedCategories self →
    getSettingsFormData (accessor self) c = settings.

(** A call from [self] only adds events to the trace, all of them in [Q]. *)
Definition emitsAt {A} (Q : Event → Prop) (m : M A) (self : Optimizer Store) : Prop :=
  ∃ events, console (m self).2 = console self ++ events ∧ Forall Q events.

Definition emits {A} (Q : Event → Prop) (m : M A) : Prop :=
  ∀ self, emitsAt Q m self.

(** The two together: what holds of an optimizer between its steps on a
    store that keeps form data as written. *)
Definition consistent (self : Optimizer Store) : Prop :=
  covers self ∧ coherent self.

(** The states an optimizer goes through: it is created on a store, the
    host may change the store between two calls, and every method of the
    class, public or private, takes it to a further state. *)
Inductive reachable : Optimizer Store → Prop :=
  | reachable_new store : reachable (new_Optimizer store)
  | reachable_host self store :
      reachable self →
      reachable (mkOptimizer store (categoryCache self)
                   (modifiedCategories self) (console self))
  | reachable_getCategory self c reload :
      reachable self → reachable (getCategory c reload self).2
  | reachable_updateCategory self c :
      reachable self → reachable (updateCategory c self).2
  | reachable_writeBackCategory self c :
      reachable self → reachable (writeBackCategory c self).2
  | reachable_writeBackAllCategories self :
      reachable self → reachable (writeBackAllCategories self).2
  | reachable_forgetCategoryCache self c :
      reachable self → reachable (forgetCategoryCache c self).2
  | reachable_findValue self i :
      reachable self → reachable (Optimizer_findValue i self).2
  | reachable_findSetting self i :
      reachable self → reachable (Optimizer_findSetting i self).2
  | reachable_setValue self item v :
      reachable self → reachable (setValue item v self).2
  | reachable_getValues self definitions :
      reachable self → reachable (getValues definitions self).2
  | reachable_setValues self values definitions :
      reachable self → reachable (setValues values definitions self).2
  | reachable_getCurrentSettings self :
      reachable self → reachable (getCurrentSettings self).2
  | reachable_optimize self optimized :
      reachable self → reachable (optimize optimized self).2.

End Optimizer.

Notation "'let*' x := m 'in' k" := (bind m (λ x, k))
  (at level 10, x name, m at level 100, k at level 200).
Notation "m1 >> m2" := (bind m1 (λ _, m2))
  (at level 100, right associativity).

(** A field of the store: its category, sub-category and setting. *)
Definition Field : Type := CategoryName * string * string.

Definition fieldOf (item : DefinitionParam) : Field :=
  (category item, subCategory item, setting item).

(** The value of a field in form data, when the form data has the field. *)
Definition fieldIn (settings : FormData) (f : Field) : option Value :=
  value <$> findSetting settings f.1.2 f.2.

(** The value a field has in the store. *)
Definition stored {Store} `{!ISettingsAccessor Store} (store : Store) (f : Field) : option Value :=
  fieldIn (getSettingsFormData store f.1.1) f.

(** The value a field has for the optimizer: in the cache when its category
    is cached, in the store otherwise. *)
Definition seen {Store} `{!ISettingsAccessor Store} (self : Optimizer Store) (f : Field) : option Value :=
  fieldIn (view self f.1.1) f.

(** What [findValue] returns for a field seen as [o]. *)
Definition read (o : option Value) : Value := default VUndefined o.

(** The state [s] is consistent and sees every field as [self] does. *)
Definition unchanged {Store} `{!ISettingsAccessor Store} (self s : Optimizer Store) : Prop :=
  consistent s ∧ ∀ f, seen s f = seen self f.

(** The same but for the field [F], which is only required to be there
    when it is there for [self]. *)
Definition pivoted {Store} `{!ISettingsAccessor Store} (F : Field) (self s : Optimizer Store) : Prop :=
  consistent s ∧
  (∀ f, f ≠ F → seen s f = seen self f) ∧
  (is_Some (seen s F) ↔ is_Some (seen self F)).

(** What a snapshot asks of the fields of some nodes: the field of a node
    whose key it names is to hold the value it gives. *)
Definition targets (values : OptimizeSettings) (nodes : list DefinitionParam) : list (Field * Value) :=
  omap (λ d, (λ v, (fieldOf d, v)) <$> values !! key d) nodes.

(** A method that, run in a consistent state, ends in a consistent state
    where the fields outside [touched] are as they were, no field has
    appeared or disappeared, and every field of [goal] that is there holds
    the value [goal] gives it. *)
Definition achieves {Store} `{!ISettingsAccessor Store} (m : Optimizer Store → unit * Optimizer Store)
    (touched : list Field) (goal : list (Field * Value)) : Prop :=
  ∀ self,
    consistent self →
    consistent (m self).2 ∧
    (∀ f, f ∉ touched → seen (m self).2 f = seen self f) ∧
    (∀ f, is_Some (seen (m self).2 f) ↔ is_Some (seen self f)) ∧
    (∀ f v, (f, v) ∈ goal → is_Some (seen self f) → seen (m self).2 f = Some v).

(** An event that is not the change of a value. *)
Definition quiet (e : Event) : Prop :=
  ∀ c k old new, e ≠ LogChange c k old new.

(** A node one of whose branches holds a key the snapshot names. *)
Definition pivotedBy (values : OptimizeSettings) (d : DefinitionParam) : Prop :=
  ∃ deps dep,
    dependents d = Some deps ∧ dep ∈ deps ∧ isDependValues values dep.2 = true.

(** An event that, if it is the change of a value, changes the field of
    one of [nodes], and one the snapshot names or pivots. *)
Definition changesWithin (values : OptimizeSettings) (nodes : list DefinitionParam) (e : Event) : Prop :=
  ∀ c k old new,
    e = LogChange c k old new →
    ∃ d, d ∈ nodes ∧ key d = k ∧ category d = c ∧
         (is_Some (values !! k) ∨ pivotedBy values d).

(** An event that, if it is the change of a value, changes the field of a
    branching node among [nodes]. *)
Definition changesBranching (nodes : list DefinitionParam) (e : Event) : Prop :=
  ∀ c k old new,
    e = LogChange c k old new →
    ∃ d, d ∈ nodes ∧ key d = k ∧ category d = c ∧ is_Some (dependents d).

(** The state [s] is consistent, it sees the fields of the nodes without
    dependents as [self] does, and the changes of value since [self] are
    changes of branching nodes. *)
Definition onlyPivots {Store} `{!ISettingsAccessor Store} (nodes : list DefinitionParam)
    (self s : Optimizer Store) : Prop :=
  consistent s ∧
  (∀ d, d ∈ nodes → dependents d = None → seen s (fieldOf d) = seen self (fieldOf d)) ∧
  ∃ events, console s = console self ++ events ∧
            Forall (changesBranching nodes) events.

(** The nodes [setValues] visits: a node, and the nodes of those of its
    branches in which the snapshot names a key. *)
Fixpoint visitedItem (values : OptimizeSettings) (item : DefinitionParam) : list DefinitionParam :=
  item ::
    match dependents item with
    | Some deps =>
      flat_map (λ dependent,
        if isDependValues values dependent.2
        then flat_map (visitedItem values) dependent.2 else []) deps
    | None => []
    end.

Definition visited (values : OptimizeSettings) (definitions : list DefinitionParam) : list DefinitionParam :=
  flat_map (visitedItem values) definitions.

(** The store after the write-backs a trace records, applied in order. *)
Definition replay {Store} `{!ISettingsAccessor Store} (events : list Event) (store : Store) : Store :=
  fold_left
    (λ st e, match e with LogUpdateCategory c sent => setSettings st c sent | _ => st end)
    events store.

(** The states an optimizer is in between the calls of its public
    methods: it is created on a store, the host may change the store, and
    [getCurrentSettings] and [optimize] take it to a further state
    ([optimizeInfo] does not use the state of the object). *)
Inductive settled {Store} `{!ISettingsAccessor Store} : Optimizer Store → Prop :=
  | settled_new store : settled (new_Optimizer store)
  | settled_host self store :
      settled self →
      settled (mkOptimizer store (categoryCache self)
                 (modifiedCategories self) (console self))
  | settled_getCurrentSettings self :
      settled self → settled (getCurrentSettings self).2
  | settled_optimize self optimized :
      settled self → settled (optimize optimized self).2.

(** A store that keeps form data as it is written: a category reads back
    as it was last written, and writing a category leaves the others. *)
Class LawfulStore (Store : Type) `{!ISettingsAccessor Store} : Prop := {
  get_set_eq store c settingsData :
    getSettingsFormData (setSettings store c settingsData) c = settingsData;
  get_set_ne store c c' settingsData :
    c ≠ c' →
    getSettingsFormData (setSettings store c settingsData) c' =
      getSettingsFormData store c';
}.

(** ** A store that keeps what it is given *)

(** The simplest accessor: the store is a map from categories to their
    form data, [setSettings] replaces an entry and [getSettingsFormData]
    returns it (an empty form for a category never written). *)
Module PlainStore.
Abbreviation t := (gmap CategoryName FormData).

#[global] Instance accessor : ISettingsAccessor t := {|
  getSettingsFormData store c := default [] (store !! c);
  setSettings store c settingsData := <[c := settingsData]> store;
|}.
End PlainStore.

(** ** Sample data *)

Module Sample.
(** The form of the output category, with the fields of the advanced
    mode, for a given value of the mode. *)
Definition outputForm (mode : string) : FormData :=
  [ mkSubCategory "Untitled" [mkSetting "Mode" (VStr mode)];
    mkSubCategory "Streaming"
      [ mkSetting "bitrate" (VNum 1000);
        mkSetting "Encoder" (VStr "obs_x264");
        mkSetting "preset" (VStr "veryfast") ] ].

Definition store (mode : string) : PlainStore.t :=
  {[ output := outputForm mode ]}.

(** A store whose output category has the mode and nothing else. *)
Definition bareStore : PlainStore.t :=
  {[ output := [mkSubCategory "Untitled" [mkSetting "Mode" (VStr "Simple")]] ]}.

Definition outputModeItem : DefinitionParam :=
  mkDefinitionParam outputMode output "Untitled" "Mode" None (Some true)
    (Some [(VStr "Advanced", advancedParams)]).

Definition videoBitrateItem : DefinitionParam :=
  leaf videoBitrate output "Streaming" "bitrate"
    (Some "settings.videoBitrate") None.

Definition profileItem : DefinitionParam :=
  leaf profile output "Streaming" "profile" None (Some true).

(** An optimizer on the store in advanced mode with an edit of the video
    bitrate that is not written back yet. *)
Definition edited : Optimizer PlainStore.t :=
  (setValue videoBitrateItem (VNum 2500) (new_Optimizer (store "Advanced"))).2.

(** A translation table with one entry. *)
Definition translate (path : string) : string :=
  if bool_decide (path = "settings.videoBitrate") then "Video Bitrate" else path.

Definition translated (path : string) : bool :=
  bool_decide (path = "settings.videoBitrate").
End Sample.


(** * Properties of the tree walkers *)

Lemma OptimizationKey_values_complete k : k ∈ OptimizationKey_values.
Proof. destruct k; compute_done. Qed.

Lemma OptimizationKey_values_NoDup : NoDup OptimizationKey_values.
Proof. compute_done. Qed.

Lemma iterateDefinition_eq item :
  iterateDefinition item =
    item :: match dependents item with
            | Some deps => flat_map (λ keyParams, iterateDefinitions keyParams.2) deps
            | None => []
            end.
Proof. by destruct item. Qed.

Lemma iterateDefinitions_cons item params :
  iterateDefinitions (item :: params) =
    iterateDefinition item ++ iterateDefinitions params.
Proof. done. Qed.

Lemma isDependValue_eq values item :
  isDependValue values item =
    hasOwnProperty values (key item) ||
    match dependents item with
    | Some deps => existsb (λ dependent, isDependValues values dependent.2) deps
    | None => false
    end.
Proof. destruct item; simpl. by destruct (hasOwnProperty _ _). Qed.

(** [isDependValues] holds exactly when a key of the flattened subtree is an
    own property of the snapshot. *)
Lemma isDependValues_spec values items :
  isDependValues values items = true ↔
  ∃ d, d ∈ iterateDefinitions items ∧ is_Some (values !! key d).
Proof.
  revert items.
  assert (Hitem : ∀ item, isDependValue values item = true ↔
            ∃ d, d ∈ iterateDefinition item ∧ is_Some (values !! key d)).
  { induction item as [item IH] using DefinitionParam_tree_ind.
    rewrite isDependValue_eq, iterateDefinition_eq, orb_true_iff.
    unfold hasOwnProperty. rewrite bool_decide_eq_true.
    destruct (dependents item) as [deps|] eqn:Edeps.
    - specialize (IH deps eq_refl).
      rewrite existsb_exists. split.
      + intros [Hk | (dep & Hdep & Hex)].
        * exists item. split; [left | done].
        * apply list_elem_of_In in Hdep.
          unfold isDependValues in Hex. apply existsb_exists in Hex as (p & Hp & Hpv).
          apply list_elem_of_In in Hp.
          rewrite Forall_forall in IH. specialize (IH dep Hdep).
          rewrite Forall_forall in IH. apply (IH p Hp) in Hpv as (d & Hd & Hv).
          exists d. split; [|done]. right.
          apply list_elem_of_In, in_flat_map. exists dep. split; [by apply list_elem_of_In|].
          apply in_flat_map. exists p. split; by apply list_elem_of_In.
      + intros (d & Hd & Hv). apply elem_of_cons in Hd as [-> | Hd]; [by left | right].
        apply list_elem_of_In, in_flat_map in Hd as (dep & Hdep & Hd).
        apply in_flat_map in Hd as (p & Hp & Hd).
        exists dep. split; [done|].
        apply existsb_exists. exists p. split; [done|].
        apply list_elem_of_In in Hdep, Hp, Hd.
        rewrite Forall_forall in IH. specialize (IH dep Hdep).
        rewrite Forall_forall in IH. apply (IH p Hp). eauto.
    - split.
      + intros [Hk | ?]; [|done]. exists item. split; [left | done].
      + intros (d & Hd & Hv). apply elem_of_cons in Hd as [-> | Hd]; [by left|].
        by apply elem_of_nil in Hd. }
  intros items. unfold isDependValues, iterateDefinitions.
  rewrite existsb_exists. split.
  - intros (p & Hp & Hpv). apply Hitem in Hpv as (d & Hd & Hv).
    exists d. split; [|done]. apply list_elem_of_In, in_flat_map.
    exists p. split; [done | by apply list_elem_of_In].
  - intros (d & Hd & Hv). apply list_elem_of_In, in_flat_map in Hd as (p & Hp & Hd).
    exists p. split; [done|]. apply Hitem. exists d. split; [by apply list_elem_of_In | done].
Qed.

Lemma elem_of_missingKeys params k :
  k ∈ missingKeys params ↔ k ∉ map key (iterateDefinitions params).
Proof.
  unfold missingKeys. rewrite list_elem_of_filter, elem_of_list_to_set.
  split; [by intros [? _] | intros H; split; [done | apply OptimizationKey_values_complete]].
Qed.

(** The keys of the shipped tree, in traversal order. *)
Lemma definitionParams_keys :
  map key (iterateDefinitions definitionParams) =
    [outputMode; videoBitrate; audioBitrate; encoder; encoderPreset; tune;
     keyframeInterval; profile; audioTrackIndex; quality; colorSpace; fps].
Proof. reflexivity. Qed.

(** C8: [validateDefinitionParams] never throws (it is a total function
    whose only effect is its console line); the keys it reports are exactly
    the members of [OptimizationKey] that flattening [params] does not reach,
    and it writes its line exactly when there is such a key.  In the shipped
    [definitionParams] every member occurs exactly once, so the validation
    run when the module is loaded writes nothing. *)
Theorem validateDefinitionParams_reports_missing :
  (∀ params k,
     k ∈ missingKeys params ↔
     k ∈ OptimizationKey_values ∧ k ∉ map key (iterateDefinitions params)) ∧
  (∀ params,
     validateDefinitionParams params =
       if decide (missingKeys params = []) then []
       else [MissingKeys (missingKeys params)]) ∧
  (∀ k, length (filter (λ d, key d = k) (iterateDefinitions definitionParams)) = 1%nat) ∧
  validateDefinitionParams definitionParams = [].
Proof.
  split; [|split; [|split]].
  - intros params k. rewrite elem_of_missingKeys.
    pose proof (OptimizationKey_values_complete k). tauto.
  - intros params. unfold validateDefinitionParams.
    by destruct (missingKeys params).
  - intros k. by destruct k.
  - reflexivity.
Qed.


(** * Properties of the formatter *)

Section Formatter.
Variable translate : string → string.

Lemma label_normal opt :
  ∃ name, (OptKeyProperty.label translate opt).1 = Normal name.
Proof. unfold OptKeyProperty.label. case_bool_decide; eauto. Qed.

Lemma value_undefined opt :
  (OptKeyProperty.value translate opt VUndefined).1 = Normal VUndefined.
Proof. done. Qed.

Lemma value_string opt s :
  ∃ shown, (OptKeyProperty.value translate opt (VStr s)).1 = Normal shown.
Proof.
  unfold OptKeyProperty.value. repeat case_bool_decide; simpl; eauto.
Qed.

Lemma value_plain opt v :
  OptKeyProperty.lookupValueName opt ≠ Some true →
  ∃ shown, (OptKeyProperty.value translate opt v).1 = Normal shown.
Proof.
  intros H. unfold OptKeyProperty.value.
  destruct v; simpl; eauto; rewrite bool_decide_false by done; eauto.
Qed.

(** The keys of the nodes of the shipped tree that look their value up
    are all declared as strings. *)
Lemma lookup_keys_are_strings d n :
  d ∈ iterateDefinitions definitionParams →
  lookupValueName d = Some true →
  valueConforms (key d) (VNum n) = false.
Proof.
  intros Hd. cbv [iterateDefinitions definitionParams advancedParams encoderParams
    flat_map iterateDefinition leaf dependents app snd] in Hd.
  repeat (apply elem_of_cons in Hd as [-> | Hd]; [by intros; simplify_eq/= |]).
  by apply elem_of_nil in Hd.
Qed.

Section Snapshots.
Variables current optimized : OptimizeSettings.
Hypothesis current_conforms : conforms current.
Hypothesis optimized_conforms : conforms optimized.

Lemma value_prop_normal values d :
  conforms values →
  d ∈ iterateDefinitions definitionParams →
  ∃ shown,
    (OptKeyProperty.value translate (OptKeyProperty.new d) (prop values (key d))).1
      = Normal shown.
Proof.
  intros Hc Hd. unfold prop.
  destruct (values !! key d) as [v|] eqn:E; simpl; [|by eauto].
  destruct v as [s|n|]; [apply value_string| |by eauto].
  apply value_plain. simpl. intros Hl.
  apply Hc in E. cbv beta in E.
  by rewrite (lookup_keys_are_strings d n Hd Hl) in E.
Qed.

Lemma optimizeItem_normal d :
  d ∈ iterateDefinitions definitionParams →
  ∃ item,
    (optimizeItem translate current optimized d).1 = Normal item ∧
    OptimizeItem.key item = key d ∧
    (is_Some (OptimizeItem.newValue item) ↔ is_Some (optimized !! key d)).
Proof.
  intros Hd. unfold optimizeItem.
  destruct (label_normal (OptKeyProperty.new d)) as [nm Hn].
  destruct (value_prop_normal current d current_conforms Hd) as [cv Hcv].
  destruct (value_prop_normal optimized d optimized_conforms Hd) as [nv Hnv].
  simpl OptKeyProperty.key in *.
  destruct (OptKeyProperty.label _ _) as [r1 l1]; simpl in Hn; subst r1.
  destruct (OptKeyProperty.value _ _ (prop current _)) as [r2 l2];
    simpl in Hcv; subst r2.
  destruct (OptKeyProperty.value _ _ (prop optimized _)) as [r3 l3];
    simpl in Hnv; subst r3.
  unfold hasOwnProperty. case_bool_decide as Hk; simpl.
  - eexists; split; [done|]. split; [done|]. simpl. split; eauto.
  - eexists; split; [done|]. split; [done|]. simpl.
    split; [by intros [? ?] | done].
Qed.

(** The loop adds the item of each definition under its category. *)
Lemma optimizeInfo_loop_normal definitions :
  (∀ d, d ∈ definitions → d ∈ iterateDefinitions definitionParams) →
  ∃ items,
    Forall2 (λ d item,
      OptimizeItem.key item = key d ∧
      (is_Some (OptimizeItem.newValue item) ↔ is_Some (optimized !! key d)))
      definitions items ∧
    ∀ m,
      (optimizeInfo_loop translate current optimized definitions m).1 =
        Normal (fold_left (λ m di, Map_add m (category di.1) di.2)
                  (zip definitions items) m).
Proof.
  induction definitions as [|d definitions IH]; intros Hin.
  - exists []. split; [constructor | done].
  - destruct (optimizeItem_normal d) as (item & Hitem & Hkey & Hnew);
      [apply Hin; left|].
    destruct IH as (items & Hall & Hloop); [intros; apply Hin; by right|].
    exists (item :: items). split; [by constructor|].
    intros m. simpl.
    destruct (optimizeItem _ _ _ d) as [r l]; simpl in Hitem; subst r.
    simpl. specialize (Hloop (Map_add m (category d) item)).
    by destruct (optimizeInfo_loop _ _ _ _ _) as [r' l']; simpl in *.
Qed.
End Snapshots.
End Formatter.



(** ** Labels and display values *)

Section Translation.
Variable translate : string → string.
(** Whether a translation exists for a path. *)
Variable translated : string → bool.
(** The translation function echoes its input exactly when there is no
    translation. *)
Hypothesis echo : ∀ path, translate path = path ↔ translated path = false.

(** C9, for the raw values that can be looked up: the display name is the
    translation of the label path when there is one and the setting name
    otherwise; on a node marked [lookupValueName] the display value of a
    raw string is the translation of the path made of the category, the
    sub-category, the setting and the string when there is one, and the
    string itself otherwise; an undefined raw value is reported on the
    console and [undefined] is returned, nothing is thrown. *)
Theorem display_name_and_value (definition : DefinitionParam) :
  let opt := OptKeyProperty.new definition in
  (OptKeyProperty.label translate opt).1 =
    Normal (if translated (labelPath definition)
            then translate (labelPath definition)
            else setting definition) ∧
  (lookupValueName definition = Some true →
   ∀ raw : string,
     let path := i18nPath "settings"
                   [CategoryName_name (category definition);
                    subCategory definition; setting definition; raw] in
     (OptKeyProperty.value translate opt (VStr raw)).1 =
       Normal (VStr (if translated path then translate path else raw))) ∧
  OptKeyProperty.value translate opt VUndefined =
    (Normal VUndefined,
     [ValueUndefined
        (i18nPath "settings"
           [CategoryName_name (category definition); subCategory definition;
            setting definition])]).
Proof.
  simpl. split; [|split; [|done]].
  - unfold OptKeyProperty.label. simpl.
    destruct (translated (labelPath definition)) eqn:E.
    + rewrite bool_decide_true; [done|]. rewrite echo. by rewrite E.
    + rewrite bool_decide_false; [done|]. intros H. by apply H, echo.
  - intros Hl raw. unfold OptKeyProperty.value. simpl.
    rewrite bool_decide_true by done.
    destruct (translated _) eqn:E.
    + rewrite bool_decide_true; [done|].
      intros H. symmetry in H. apply echo in H. by rewrite E in H.
    + rewrite bool_decide_false; [done|].
      intros H. apply H. symmetry. by apply echo.
Qed.
End Translation.

Lemma display_name_and_value_witness :
  let definition := Sample.profileItem in
  let opt := OptKeyProperty.new definition in
  (OptKeyProperty.label Sample.translate opt).1 =
    Normal (if Sample.translated (labelPath definition)
            then Sample.translate (labelPath definition)
            else setting definition) ∧
  (lookupValueName definition = Some true →
   ∀ raw : string,
     let path := i18nPath "settings"
                   [CategoryName_name (category definition);
                    subCategory definition; setting definition; raw] in
     (OptKeyProperty.value Sample.translate opt (VStr raw)).1 =
       Normal (VStr (if Sample.translated path then Sample.translate path else raw))) ∧
  OptKeyProperty.value Sample.translate opt VUndefined =
    (Normal VUndefined,
     [ValueUndefined
        (i18nPath "settings"
           [CategoryName_name (category definition); subCategory definition;
            setting definition])]).
Proof.
  apply (display_name_and_value Sample.translate Sample.translated).
  intros path. unfold Sample.translate, Sample.translated.
  case_bool_decide as E; [|done].
  split; [|done]. intros H. rewrite E in H. discriminate H.
Defined.

(** C9 as it is stated fails for a raw number: on a node that looks its
    value up, the number reaches [i18nPath], which calls [match] on it. *)
Lemma display_value_number_throws :
  (OptKeyProperty.value (λ path, path)
     (OptKeyProperty.new Sample.profileItem)
     (VNum 1)).1 = TypeError.
Proof. reflexivity. Qed.


(** * The category cache and the write-back ledger *)

Lemma elem_of_Set_add c c' s : c' ∈ Set_add c s ↔ c' = c ∨ c' ∈ s.
Proof.
  unfold Set_add. case_bool_decide.
  - split; [by right | by intros [-> | ?]].
  - rewrite elem_of_app, list_elem_of_singleton. tauto.
Qed.

Lemma elem_of_Set_delete c c' s : c' ∈ Set_delete c s ↔ c' ≠ c ∧ c' ∈ s.
Proof. unfold Set_delete. by rewrite list_elem_of_filter. Qed.

Lemma Set_delete_not_elem c s : c ∉ s → Set_delete c s = s.
Proof.
  intros H. unfold Set_delete. induction s as [|x s IH]; [done|].
  rewrite filter_cons. apply not_elem_of_cons in H as [? ?].
  rewrite decide_True by done. f_equal. by apply IH.
Qed.

Section Cache.
Context {Store : Type} `{!ISettingsAccessor Store}.
Implicit Types self : Optimizer Store.

(** ** What each method of the ledger does *)

Lemma getCategory_hit self c settings :
  categoryCache self !! c = Some settings →
  getCategory c false self = (settings, self).
Proof.
  intros H. unfold getCategory. rewrite bool_decide_true by (rewrite H; eauto).
  simpl. by rewrite H.
Qed.

Lemma getCategory_miss self c :
  categoryCache self !! c = None →
  getCategory c false self =
    (getSettingsFormData (accessor self) c,
     mkOptimizer (accessor self)
       (<[c := getSettingsFormData (accessor self) c]> (categoryCache self))
       (modifiedCategories self) (console self ++ [LogGetCategory c])).
Proof.
  intros H. unfold getCategory.
  rewrite bool_decide_false by (rewrite H; by intros [? ?]).
  simpl. by rewrite lookup_insert_eq.
Qed.

Lemma getCategory_reload self c :
  getCategory c true self =
    (getSettingsFormData (accessor self) c,
     mkOptimizer (accessor self)
       (<[c := getSettingsFormData (accessor self) c]> (categoryCache self))
       (modifiedCategories self) (console self ++ [LogGetCategory c])).
Proof. unfold getCategory. simpl. by rewrite lookup_insert_eq. Qed.

Lemma updateCategory_hit self c settings :
  categoryCache self !! c = Some settings →
  updateCategory c self =
    (tt, mkOptimizer (setSettings (accessor self) c settings)
           (categoryCache self) (modifiedCategories self)
           (console self ++ [LogUpdateCategory c settings])).
Proof.
  intros H. unfold updateCategory. rewrite bool_decide_true by (rewrite H; eauto).
  unfold bind, log. cbv beta iota zeta. rewrite H.
  erewrite getCategory_hit by (simpl; exact H). done.
Qed.

Lemma updateCategory_miss self c :
  categoryCache self !! c = None → updateCategory c self = (tt, self).
Proof.
  intros H. unfold updateCategory.
  by rewrite bool_decide_false by (rewrite H; by intros [? ?]).
Qed.

Lemma writeBackCategory_clean self c :
  c ∉ modifiedCategories self → writeBackCategory c self = (tt, self).
Proof. intros H. unfold writeBackCategory. by rewrite bool_decide_false. Qed.

Lemma writeBackCategory_dirty self c settings :
  c ∈ modifiedCategories self →
  categoryCache self !! c = Some settings →
  writeBackCategory c self =
    (tt, mkOptimizer (setSettings (accessor self) c settings)
           (categoryCache self) (Set_delete c (modifiedCategories self))
           (console self ++ [LogUpdateCategory c settings])).
Proof.
  intros Hm Hc. unfold writeBackCategory. rewrite bool_decide_true by done.
  unfold bind. by rewrite (updateCategory_hit _ c settings).
Qed.

(** The case the guard of [updateCategory] would skip. *)
Lemma writeBackCategory_skipped self c :
  c ∈ modifiedCategories self →
  categoryCache self !! c = None →
  writeBackCategory c self =
    (tt, mkOptimizer (accessor self) (categoryCache self)
           (Set_delete c (modifiedCategories self)) (console self)).
Proof.
  intros Hm Hc. unfold writeBackCategory. rewrite bool_decide_true by done.
  unfold bind. by rewrite updateCategory_miss.
Qed.

Lemma forgetCategoryCache_hit self c settings :
  categoryCache self !! c = Some settings →
  forgetCategoryCache c self =
    (tt, mkOptimizer (accessor self) (delete c (categoryCache self))
           (Set_delete c (modifiedCategories self))
           (console self ++ [CacheForgotten c])).
Proof.
  intros H. unfold forgetCategoryCache. rewrite bool_decide_true by (rewrite H; eauto).
  case_bool_decide; [done|]. by rewrite Set_delete_not_elem.
Qed.

Lemma forgetCategoryCache_miss self c :
  categoryCache self !! c = None → forgetCategoryCache c self = (tt, self).
Proof.
  intros H. unfold forgetCategoryCache.
  by rewrite bool_decide_false by (rewrite H; by intros [? ?]).
Qed.

(** ** Loops *)

Lemma forEach_cons {A} (f : A → M unit) x l self :
  forEach f (x :: l) self = forEach f l (f x self).2.
Proof. simpl. unfold bind. by destruct (f x self). Qed.

Lemma forEach_app {A} (f : A → M unit) l1 l2 self :
  forEach f (l1 ++ l2) self = forEach f l2 (forEach f l1 self).2.
Proof.
  revert self. induction l1 as [|x l1 IH]; intros self; [done|].
  rewrite <- app_comm_cons, !forEach_cons. apply IH.
Qed.

Lemma forEach_map {A B} (g : A → B) (f : B → M unit) l self :
  forEach f (map g l) self = forEach (λ x, f (g x)) l self.
Proof.
  revert self. induction l as [|x l IH]; intros self; [done|].
  simpl map. rewrite !forEach_cons. apply IH.
Qed.

(** The two nested loops of [setValue] visit [dependentCategories]. *)
Lemma forEach_dependents (f : CategoryName → M unit) deps self :
  forEach (λ dependent : Value * list DefinitionParam,
    forEach (λ subItem, f (category subItem)) dependent.2) deps self =
  forEach f (dependentCategories deps) self.
Proof.
  revert self. induction deps as [|dep deps IH]; intros self; [done|].
  unfold dependentCategories. simpl flat_map.
  rewrite forEach_cons, forEach_app, forEach_map.
  destruct (forEach _ dep.2 self) as [[] self1] eqn:E. simpl. apply IH.
Qed.

(** A property every round keeps is kept by the loop. *)
Lemma forEach_preserves {A} (P : Optimizer Store → Prop) (f : A → M unit) l :
  (∀ x self, x ∈ l → P self → P (f x self).2) →
  ∀ self, P self → P (forEach f l self).2.
Proof.
  induction l as [|x l IH]; intros Hf self HP; [done|].
  rewrite forEach_cons. apply IH.
  - intros y s Hy. apply Hf. by right.
  - apply Hf; [by left | done].
Qed.

Lemma forEachYield_cons {A B} (f : A → M (list B)) x l self :
  forEachYield f (x :: l) self =
    ((f x self).1 ++ (forEachYield f l (f x self).2).1,
     (forEachYield f l (f x self).2).2).
Proof.
  simpl. unfold bind, ret. destruct (f x self) as [ys self1]. simpl.
  by destruct (forEachYield f l self1).
Qed.

Lemma forEachYield_preserves {A B} (P : Optimizer Store → Prop)
    (f : A → M (list B)) l :
  (∀ x self, x ∈ l → P self → P (f x self).2) →
  ∀ self, P self → P (forEachYield f l self).2.
Proof.
  induction l as [|x l IH]; intros Hf self HP; [done|].
  rewrite forEachYield_cons. simpl. apply IH.
  - intros y s Hy. apply Hf. by right.
  - apply Hf; [by left | done].
Qed.

(** ** The shape of [setValue] *)

Lemma setValue_eq item v self :
  setValue item v self =
    (tt,
     let self1 :=
       (getCategory (category item) false
          (log (LogSetValue (category item) (key item) v) self).2).2 in
     match findSetting (default [] (categoryCache self1 !! category item))
             (subCategory item) (setting item) with
     | Some found =>
       if bool_decide (value found ≠ v) then
         let self2 :=
           match dependents item with
           | Some deps =>
             (forEach writeBackCategory (dependentCategories deps) self1).2
           | None => self1
           end in
         let self3 :=
           (assignValue item v
              (log (LogChange (category item) (key item) (value found) v) self2).2).2 in
         match dependents item with
         | Some deps =>
           (forEach forgetCategoryCache (dependentCategories deps)
              (writeBackCategory (category item) self3).2).2
         | None => self3
         end
       else self1
     | None => (log (LogKeyNotFound (key item)) self1).2
     end).
Proof.
  unfold setValue, Optimizer_findSetting, bind, ret. cbv beta iota zeta.
  set (self0 := (log _ self).2).
  replace (log (LogSetValue (category item) (key item) v) self) with (tt, self0) by done.
  cbv beta iota zeta.
  assert (Hget : getCategory (category item) false self0 =
    (default [] (categoryCache (getCategory (category item) false self0).2 !! category item),
     (getCategory (category item) false self0).2)) by done.
  rewrite Hget at 1. cbv beta iota zeta.
  set (self1 := (getCategory (category item) false self0).2).
  destruct (findSetting _ _ _) as [found|]; [|done].
  case_bool_decide; [|done].
  destruct (dependents item) as [deps|].
  - rewrite forEach_dependents.
    destruct (forEach writeBackCategory _ self1) as [[] self2]. simpl.
    destruct (writeBackCategory _ _) as [[] self4]. simpl.
    rewrite forEach_dependents.
    by destruct (forEach forgetCategoryCache _ _) as [[] self5].
  - done.
Qed.

(** ** Properties kept by every method *)

Lemma keeps_ret {A} (P : Optimizer Store → Prop) (a : A) : keeps P (ret a).
Proof. by intros self. Qed.

Lemma keeps_bind {A B} (P : Optimizer Store → Prop) (m : M A) (k : A → M B) :
  keeps P m → (∀ a, keeps P (k a)) → keeps P (bind m k).
Proof.
  intros Hm Hk self HP. unfold bind. specialize (Hm self HP).
  destruct (m self) as [a self1]. by apply Hk.
Qed.

Lemma keeps_forEach {A} (P : Optimizer Store → Prop) (f : A → M unit) l :
  (∀ x, x ∈ l → keeps P (f x)) → keeps P (forEach f l).
Proof. intros Hf. unfold keeps. apply forEach_preserves. intros x self Hx. by apply Hf. Qed.

Lemma keeps_forEachYield {A B} (P : Optimizer Store → Prop) (f : A → M (list B)) l :
  (∀ x, x ∈ l → keeps P (f x)) → keeps P (forEachYield f l).
Proof. intros Hf. unfold keeps. apply forEachYield_preserves. intros x self Hx. by apply Hf. Qed.

(** A node of a branch of a node is a node of its subtree. *)
Lemma iterateDefinition_child item deps dep p d :
  dependents item = Some deps → dep ∈ deps → p ∈ dep.2 →
  d ∈ iterateDefinition p → d ∈ iterateDefinition item.
Proof.
  intros Hdeps Hdep Hp Hd. rewrite iterateDefinition_eq, Hdeps. right.
  apply list_elem_of_In, in_flat_map. exists dep. split; [by apply list_elem_of_In|].
  apply in_flat_map. exists p. split; by apply list_elem_of_In.
Qed.

Lemma iterateDefinition_self item : item ∈ iterateDefinition item.
Proof. rewrite iterateDefinition_eq. by left. Qed.

Lemma iterateDefinitions_item items item d :
  item ∈ items → d ∈ iterateDefinition item → d ∈ iterateDefinitions items.
Proof.
  intros Hi Hd. apply list_elem_of_In, in_flat_map.
  exists item. split; by apply list_elem_of_In.
Qed.

Section Keeps.
Variable P : Optimizer Store → Prop.

(** [getValues] keeps a property that [findValue] keeps on its nodes and
    [setValue] keeps on its branching nodes, the only ones it sets. *)
Lemma keeps_getValuesItem item :
  (∀ d, d ∈ iterateDefinition item → keeps P (Optimizer_findValue d)) →
  (∀ d v, d ∈ iterateDefinition item → is_Some (dependents d) →
          keeps P (setValue d v)) →
  keeps P (getValuesItem item).
Proof.
  induction item as [item IH] using DefinitionParam_tree_ind.
  intros Hfind Hset.
  pose proof (iterateDefinition_self item) as Hself.
  pose proof (iterateDefinition_child item) as Hchild.
  destruct item as [k c sub s l lk deps]. simpl getValuesItem.
  apply keeps_bind; [by apply Hfind|]. intros v.
  destruct deps as [deps|]; [|apply keeps_ret].
  specialize (IH deps eq_refl). rewrite Forall_forall in IH.
  apply keeps_bind; [|intros ys; apply keeps_bind;
                       [by apply Hset | intros; apply keeps_ret]].
  apply keeps_forEachYield. intros dep Hdep.
  apply keeps_bind; [by apply Hset|]. intros _.
  apply keeps_forEachYield. intros p Hp.
  specialize (IH dep Hdep). rewrite Forall_forall in IH. apply IH; [done| |].
  - intros d Hd. apply Hfind. by eapply Hchild.
  - intros d w Hd. apply Hset. by eapply Hchild.
Qed.

Lemma keeps_getValues definitions :
  (∀ d, d ∈ iterateDefinitions definitions → keeps P (Optimizer_findValue d)) →
  (∀ d v, d ∈ iterateDefinitions definitions → is_Some (dependents d) →
          keeps P (setValue d v)) →
  keeps P (getValues definitions).
Proof.
  intros Hfind Hset. apply keeps_forEachYield. intros item Hitem.
  apply keeps_getValuesItem.
  - intros d Hd. apply Hfind. by eapply iterateDefinitions_item.
  - intros d v Hd. apply Hset. by eapply iterateDefinitions_item.
Qed.

(** [setValues] keeps a property that [findValue] keeps on its branching
    nodes and [setValue] keeps on them and, for the value the snapshot
    names, on its other nodes. *)
Lemma keeps_setValuesItem values item :
  (∀ d, d ∈ iterateDefinition item → is_Some (dependents d) →
        keeps P (Optimizer_findValue d)) →
  (∀ d v, d ∈ iterateDefinition item →
          is_Some (dependents d) ∨ values !! key d = Some v →
          keeps P (setValue d v)) →
  keeps P (setValuesItem values item).
Proof.
  induction item as [item IH] using DefinitionParam_tree_ind.
  intros Hfind Hset.
  pose proof (iterateDefinition_self item) as Hself.
  pose proof (iterateDefinition_child item) as Hchild.
  destruct item as [k c sub s l lk deps]. simpl setValuesItem.
  destruct deps as [deps|].
  - specialize (IH deps eq_refl). rewrite Forall_forall in IH.
    apply keeps_bind; [by apply Hfind|]. intros v.
    apply keeps_bind; [|intros; apply Hset; [done | by left]].
    apply keeps_forEach. intros dep Hdep.
    destruct (isDependValues values dep.2); [|apply keeps_ret].
    apply keeps_bind; [apply Hset; [done | by left]|]. intros _.
    apply keeps_forEach. intros p Hp.
    specialize (IH dep Hdep). rewrite Forall_forall in IH. apply IH; [done| |].
    + intros d Hd. apply Hfind. by eapply Hchild.
    + intros d w Hd. apply Hset. by eapply Hchild.
  - unfold hasOwnProperty, prop. simpl.
    destruct (values !! k) as [v|] eqn:E.
    + rewrite bool_decide_true by eauto. apply Hset; [done | by right].
    + rewrite bool_decide_false by (by intros [? ?]). apply keeps_ret.
Qed.

Lemma keeps_setValues values definitions :
  (∀ d, d ∈ iterateDefinitions definitions → is_Some (dependents d) →
        keeps P (Optimizer_findValue d)) →
  (∀ d v, d ∈ iterateDefinitions definitions →
          is_Some (dependents d) ∨ values !! key d = Some v →
          keeps P (setValue d v)) →
  keeps P (setValues values definitions).
Proof.
  intros Hfind Hset. apply keeps_forEach. intros item Hitem.
  apply keeps_setValuesItem.
  - intros d Hd. apply Hfind. by eapply iterateDefinitions_item.
  - intros d v Hd. apply Hset. by eapply iterateDefinitions_item.
Qed.
End Keeps.
End Cache.


(** * Every modified category is cached *)

Section Covers.
Context {Store : Type} `{!ISettingsAccessor Store}.
Implicit Types self : Optimizer Store.
Local Abbreviation covers := (@covers Store).

Lemma getCategory_cached self c reload :
  categoryCache (getCategory c reload self).2 !! c =
    Some (getCategory c reload self).1.
Proof.
  destruct reload; [by rewrite getCategory_reload; simpl; rewrite lookup_insert_eq|].
  destruct (categoryCache self !! c) as [settings|] eqn:E.
  - by rewrite (getCategory_hit _ _ settings).
  - rewrite getCategory_miss by done. simpl. by rewrite lookup_insert_eq.
Qed.

Lemma getCategory_modified self c reload :
  modifiedCategories (getCategory c reload self).2 = modifiedCategories self.
Proof. unfold getCategory. simpl. by destruct (_ || _). Qed.

Lemma getCategory_accessor self c reload :
  accessor (getCategory c reload self).2 = accessor self.
Proof. unfold getCategory. simpl. by destruct (_ || _). Qed.

Lemma getCategory_cache_other self c c' reload :
  c ≠ c' →
  categoryCache (getCategory c reload self).2 !! c' = categoryCache self !! c'.
Proof.
  intros Hne. unfold getCategory. simpl. destruct (_ || _); [|done].
  simpl. by rewrite lookup_insert_ne.
Qed.

Lemma getCategory_cache_mono self c c' reload :
  is_Some (categoryCache self !! c') →
  is_Some (categoryCache (getCategory c reload self).2 !! c').
Proof.
  intros H. destruct (decide (c = c')) as [<- | Hne].
  - rewrite getCategory_cached. eauto.
  - by rewrite getCategory_cache_other.
Qed.

Lemma writeBackCategory_cache self c :
  categoryCache (writeBackCategory c self).2 = categoryCache self.
Proof.
  unfold writeBackCategory. case_bool_decide; [|done].
  unfold bind. destruct (categoryCache self !! c) as [settings|] eqn:E.
  - by rewrite (updateCategory_hit _ _ settings).
  - by rewrite updateCategory_miss.
Qed.

Lemma writeBackCategory_modified self c :
  modifiedCategories (writeBackCategory c self).2 =
    Set_delete c (modifiedCategories self).
Proof.
  unfold writeBackCategory. case_bool_decide as Hm.
  - unfold bind. destruct (categoryCache self !! c) as [settings|] eqn:E.
    + by rewrite (updateCategory_hit _ _ settings).
    + by rewrite updateCategory_miss.
  - simpl. by rewrite Set_delete_not_elem.
Qed.

Lemma updateCategory_cache self c :
  categoryCache (updateCategory c self).2 = categoryCache self.
Proof.
  destruct (categoryCache self !! c) as [settings|] eqn:E.
  - by rewrite (updateCategory_hit _ _ settings).
  - by rewrite updateCategory_miss.
Qed.

Lemma updateCategory_modified self c :
  modifiedCategories (updateCategory c self).2 = modifiedCategories self.
Proof.
  destruct (categoryCache self !! c) as [settings|] eqn:E.
  - by rewrite (updateCategory_hit _ _ settings).
  - by rewrite updateCategory_miss.
Qed.

Lemma forgetCategoryCache_cache self c c' :
  categoryCache (forgetCategoryCache c self).2 !! c' =
    if decide (c = c') then None else categoryCache self !! c'.
Proof.
  destruct (categoryCache self !! c) as [settings|] eqn:E.
  - rewrite (forgetCategoryCache_hit _ _ settings) by done. simpl.
    by rewrite lookup_delete.
  - rewrite forgetCategoryCache_miss by done. by case_decide; subst.
Qed.

Lemma forgetCategoryCache_modified self c :
  covers self →
  modifiedCategories (forgetCategoryCache c self).2 =
    Set_delete c (modifiedCategories self).
Proof.
  intros Hcov. destruct (categoryCache self !! c) as [settings|] eqn:E.
  - by rewrite (forgetCategoryCache_hit _ _ settings).
  - rewrite forgetCategoryCache_miss by done.
    rewrite Set_delete_not_elem; [done|].
    intros Hm. apply Hcov in Hm as [? Hm]. congruence.
Qed.

Lemma covers_getCategory c reload : keeps covers (getCategory c reload).
Proof.
  intros self Hcov c' Hc'. rewrite getCategory_modified in Hc'.
  by apply getCategory_cache_mono, Hcov.
Qed.

Lemma covers_updateCategory c : keeps covers (updateCategory c).
Proof.
  intros self Hcov c' Hc'.
  rewrite updateCategory_modified in Hc'. rewrite updateCategory_cache. by apply Hcov.
Qed.

Lemma covers_writeBackCategory c : keeps covers (writeBackCategory c).
Proof.
  intros self Hcov c' Hc'. rewrite writeBackCategory_modified in Hc'.
  rewrite writeBackCategory_cache. apply elem_of_Set_delete in Hc' as [_ ?].
  by apply Hcov.
Qed.

Lemma covers_writeBackAllCategories : keeps covers writeBackAllCategories.
Proof.
  intros self _ c Hc. unfold writeBackAllCategories, bind in Hc.
  destruct (forEach _ _ _) as [[] self1]. simpl in Hc. by apply elem_of_nil in Hc.
Qed.

Lemma covers_forgetCategoryCache c : keeps covers (forgetCategoryCache c).
Proof.
  intros self Hcov c' Hc'. rewrite forgetCategoryCache_modified in Hc' by done.
  apply elem_of_Set_delete in Hc' as [Hne Hc'].
  rewrite forgetCategoryCache_cache, decide_False by done. by apply Hcov.
Qed.

Lemma covers_findValue i : keeps covers (Optimizer_findValue i).
Proof.
  apply keeps_bind; [apply covers_getCategory | intros; apply keeps_ret].
Qed.

Lemma covers_findSetting i : keeps covers (Optimizer_findSetting i).
Proof.
  apply keeps_bind; [apply covers_getCategory | intros; apply keeps_ret].
Qed.

Lemma covers_log e : keeps covers (log e).
Proof. by intros self Hcov. Qed.

(** The assignment keeps the property when the category of the item is
    cached, which is the case where [setValue] performs it. *)
Lemma covers_assignValue item v self :
  is_Some (categoryCache self !! category item) →
  covers self → covers (assignValue item v self).2.
Proof.
  intros Hc Hcov c' Hc'. simpl in *.
  rewrite lookup_alter. apply elem_of_Set_add in Hc' as [-> | Hc'].
  - rewrite decide_True by done. by apply fmap_is_Some.
  - case_decide; [subst; by apply fmap_is_Some | by apply Hcov].
Qed.

Lemma writeBackCategories_cache cs self :
  categoryCache (forEach writeBackCategory cs self).2 = categoryCache self.
Proof.
  apply (forEach_preserves (λ s, categoryCache s = categoryCache self)); [|done].
  intros c s _ Hs. by rewrite writeBackCategory_cache.
Qed.

Lemma covers_setValue item v : keeps covers (setValue item v).
Proof.
  intros self Hcov. rewrite setValue_eq. cbv zeta. cbn [snd].
  set (self1 := (getCategory _ _ _).2).
  assert (Hcov1 : covers self1) by by apply covers_getCategory, covers_log.
  assert (Hc1 : is_Some (categoryCache self1 !! category item))
    by (unfold self1; rewrite getCategory_cached; eauto).
  destruct (findSetting _ _ _) as [found|]; [|done].
  case_bool_decide; [|done].
  destruct (dependents item) as [deps|].
  - apply keeps_forEach; [intros; apply covers_forgetCategoryCache|].
    apply covers_writeBackCategory, covers_assignValue.
    + simpl. by rewrite writeBackCategories_cache.
    + apply covers_log. apply keeps_forEach; [|done].
      intros; apply covers_writeBackCategory.
  - by apply covers_assignValue.
Qed.

Lemma covers_getValues definitions : keeps covers (getValues definitions).
Proof.
  apply keeps_getValues; intros; [apply covers_findValue | apply covers_setValue].
Qed.

Lemma covers_setValues values definitions : keeps covers (setValues values definitions).
Proof.
  apply keeps_setValues; intros; [apply covers_findValue | apply covers_setValue].
Qed.

Lemma covers_getCurrentSettings : keeps covers getCurrentSettings.
Proof.
  apply keeps_bind; [apply covers_getValues | intros; apply keeps_ret].
Qed.

Lemma covers_optimize optimized : keeps covers (optimize optimized).
Proof.
  apply keeps_bind; [apply covers_setValues | intros; apply covers_writeBackAllCategories].
Qed.

Lemma reachable_covers self : reachable self → covers self.
Proof.
  induction 1 as [store|self store _ IH|self c r _ IH|self c _ IH|self c _ IH
                  |self _ IH|self c _ IH|self i _ IH|self i _ IH|self item v _ IH
                  |self defs _ IH|self values defs _ IH|self _ IH|self optimized _ IH].
  - intros c Hc. by apply elem_of_nil in Hc.
  - done.
  - by apply covers_getCategory.
  - by apply covers_updateCategory.
  - by apply covers_writeBackCategory.
  - by apply covers_writeBackAllCategories.
  - by apply covers_forgetCategoryCache.
  - by apply covers_findValue.
  - by apply covers_findSetting.
  - by apply covers_setValue.
  - by apply covers_getValues.
  - by apply covers_setValues.
  - by apply covers_getCurrentSettings.
  - by apply covers_optimize.
Qed.
End Covers.


(** * Write-back and eviction *)

Lemma filter_Set_delete c (P : CategoryName → Prop) `{!∀ x, Decision (P x)} s :
  filter P (Set_delete c s) = filter (λ x, P x ∧ x ≠ c) s.
Proof.
  unfold Set_delete. induction s as [|x s IH]; [done|].
  rewrite !filter_cons. destruct (decide (x ≠ c)) as [Hx | Hx].
  - rewrite filter_cons. destruct (decide (P x)).
    + rewrite decide_True by done. by f_equal.
    + by rewrite decide_False by tauto.
  - by rewrite decide_False by tauto.
Qed.

Lemma filter_ext_elem (P Q : CategoryName → Prop)
    `{!∀ x, Decision (P x)} `{!∀ x, Decision (Q x)} (s : list CategoryName) :
  (∀ x, x ∈ s → P x ↔ Q x) → filter P s = filter Q s.
Proof.
  induction s as [|x s IH]; intros Hs; [done|].
  rewrite !filter_cons. rewrite IH by (intros; apply Hs; by right).
  destruct (decide (P x)) as [HP | HP].
  - by rewrite decide_True by (apply Hs; [left | done]).
  - rewrite decide_False; [done|]. intros HQ. apply HP, Hs; [left | done].
Qed.

Lemma filter_all (P : CategoryName → Prop) `{!∀ x, Decision (P x)} (s : list CategoryName) :
  (∀ x, x ∈ s → P x) → filter P s = s.
Proof.
  induction s as [|x s IH]; intros Hs; [done|].
  rewrite filter_cons, decide_True by (apply Hs; by left).
  f_equal. apply IH. intros; apply Hs; by right.
Qed.

Lemma emitted_app {Store} (self self' : Optimizer Store) l :
  console self' = console self ++ l → emitted self self' = l.
Proof. intros H. unfold emitted. rewrite H. by rewrite drop_app_length. Qed.

Section Flush.
Context {Store : Type} `{!ISettingsAccessor Store}.
Implicit Types self : Optimizer Store.
Local Abbreviation covers := (@covers Store).

(** The first loop of [setValue]: every modified category among [cs] is
    sent to the store once, as the cache holds it, and is no longer
    modified; the cache is untouched. *)
Lemma writeBackCategories_spec cs self :
  covers self →
  ∃ flushed,
    NoDup flushed ∧
    (∀ c, c ∈ flushed ↔ c ∈ cs ∧ c ∈ modifiedCategories self) ∧
    forEach writeBackCategory cs self =
      (tt, mkOptimizer
             (fold_left (λ store c, setSettings store c (view self c)) flushed
                (accessor self))
             (categoryCache self)
             (filter (λ c, c ∉ cs) (modifiedCategories self))
             (console self ++ map (λ c, LogUpdateCategory c (view self c)) flushed)).
Proof.
  revert self. induction cs as [|c cs IH]; intros self Hcov.
  - exists []. split; [constructor|]. split.
    + intros c. rewrite elem_of_nil. tauto.
    + simpl. unfold ret. rewrite app_nil_r.
      rewrite filter_all by (intros; apply not_elem_of_nil). by destruct self.
  - rewrite forEach_cons.
    destruct (decide (c ∈ modifiedCategories self)) as [Hm | Hm].
    + destruct (Hcov c Hm) as [settings Hc].
      rewrite (writeBackCategory_dirty _ _ settings) by done. cbn [snd].
      set (self1 := mkOptimizer _ _ _ _).
      assert (Hcov1 : covers self1).
      { intros c' Hc'. simpl in *. apply elem_of_Set_delete in Hc' as [_ ?].
        by apply Hcov. }
      destruct (IH self1 Hcov1) as (flushed & Hnd & Hfl & Heq).
      assert (Hview : ∀ c', c' ∈ flushed → view self1 c' = view self c').
      { intros c' Hc'. apply Hfl in Hc' as [_ Hc']. simpl in Hc'.
        apply elem_of_Set_delete in Hc' as [_ Hc'].
        destruct (Hcov c' Hc') as [fd Hfd]. unfold view. simpl. by rewrite Hfd. }
      exists (c :: flushed). split; [|split].
      * constructor; [|done]. intros Hin. apply Hfl in Hin as [_ Hin].
        simpl in Hin. apply elem_of_Set_delete in Hin as [? _]. done.
      * intros c'. rewrite !elem_of_cons, Hfl. simpl.
        rewrite elem_of_Set_delete.
        destruct (decide (c' = c)) as [-> | Hne]; [tauto|]. tauto.
      * rewrite Heq. f_equal. simpl.
        assert (Hvc : view self c = settings) by (unfold view; by rewrite Hc).
        rewrite Hvc. f_equal.
        -- clear -Hview. generalize (setSettings (accessor self) c settings).
           induction flushed as [|x flushed IH]; intros store; [done|].
           simpl. rewrite Hview by (by left). apply IH.
           intros; apply Hview; by right.
        -- rewrite filter_Set_delete. apply filter_ext_elem.
           intros x _. rewrite not_elem_of_cons. tauto.
        -- rewrite <- app_assoc. f_equal. simpl. f_equal.
           apply map_ext_in. intros x Hx. apply list_elem_of_In in Hx.
           by rewrite Hview.
    + rewrite writeBackCategory_clean by done. cbn [snd].
      destruct (IH self Hcov) as (flushed & Hnd & Hfl & Heq).
      exists flushed. split; [done|]. split.
      * intros c'. rewrite Hfl, elem_of_cons.
        split; [tauto|]. intros [[-> | ?] ?]; tauto.
      * rewrite Heq. f_equal. f_equal. apply filter_ext_elem.
        intros x Hx. rewrite not_elem_of_cons.
        split; [|tauto]. intros ?. split; [|done]. by intros ->.
Qed.

(** The last loop of [setValue]: the cached categories among [cs] are
    evicted, and none of [cs] is cached or modified afterwards; the
    store is untouched. *)
Lemma forgetCategories_spec cs self :
  covers self →
  ∃ forgotten,
    (∀ c, c ∈ forgotten → c ∈ cs) ∧
    accessor (forEach forgetCategoryCache cs self).2 = accessor self ∧
    (∀ c, categoryCache (forEach forgetCategoryCache cs self).2 !! c =
          if decide (c ∈ cs) then None else categoryCache self !! c) ∧
    modifiedCategories (forEach forgetCategoryCache cs self).2 =
      filter (λ c, c ∉ cs) (modifiedCategories self) ∧
    console (forEach forgetCategoryCache cs self).2 =
      console self ++ map CacheForgotten forgotten.
Proof.
  revert self. induction cs as [|c cs IH]; intros self Hcov.
  - exists []. simpl. rewrite app_nil_r.
    split; [done|]. split; [done|]. split; [|split; [|done]].
    + done.
    + by rewrite filter_all by (intros; apply not_elem_of_nil).
  - rewrite forEach_cons.
    pose proof (covers_forgetCategoryCache c self Hcov) as Hcov1.
    destruct (IH _ Hcov1) as (forgotten & Hsub & Hacc & Hcache & Hmod & Hcon).
    destruct (categoryCache self !! c) as [settings|] eqn:E.
    + exists (c :: forgotten).
      split; [|split; [|split; [|split]]].
      * intros c'. rewrite !elem_of_cons. intros [-> | ?]; [by left | right; auto].
      * rewrite Hacc. by rewrite (forgetCategoryCache_hit _ _ settings).
      * intros c'. rewrite Hcache, forgetCategoryCache_cache.
        destruct (decide (c' ∈ cs)) as [Hin | Hin].
        -- by rewrite decide_True by (by right).
        -- destruct (decide (c = c')) as [-> | Hne].
           ++ by rewrite decide_True by (by left).
           ++ rewrite decide_False; [done|]. rewrite elem_of_cons.
              intros [? | ?]; congruence.
      * rewrite Hmod, forgetCategoryCache_modified by done.
        rewrite filter_Set_delete. apply filter_ext_elem.
        intros x _. rewrite not_elem_of_cons. tauto.
      * rewrite Hcon, (forgetCategoryCache_hit _ _ settings) by done.
        simpl. by rewrite <- app_assoc.
    + rewrite forgetCategoryCache_miss in * by done. simpl in *.
      exists forgotten.
      split; [|split; [done|split; [|split; [|done]]]].
      * intros c' ?. right. auto.
      * intros c'. rewrite Hcache.
        destruct (decide (c' ∈ cs)) as [Hin | Hin].
        -- by rewrite decide_True by (by right).
        -- destruct (decide (c' = c)) as [-> | Hne].
           ++ by rewrite decide_True by (by left).
           ++ rewrite decide_False; [done|]. rewrite elem_of_cons.
              intros [? | ?]; congruence.
      * rewrite Hmod. apply filter_ext_elem. intros x Hx.
        rewrite not_elem_of_cons. split; [|tauto]. intros ?. split; [|done].
        intros ->. apply Hcov in Hx as [? Hx]. congruence.
Qed.

(** [writeBackAllCategories] sends every modified category that is
    cached. *)
Lemma updateCategories_spec cs sent self :
  Forall2 (λ c settings, categoryCache self !! c = Some settings) cs sent →
  forEach updateCategory cs self =
    (tt, mkOptimizer
           (fold_left (λ store cs, setSettings store cs.1 cs.2) (zip cs sent)
              (accessor self))
           (categoryCache self) (modifiedCategories self)
           (console self ++ zip_with LogUpdateCategory cs sent)).
Proof.
  intros H. revert self H.
  induction cs as [|c cs IH] in sent |- *; intros self H.
  - apply Forall2_nil_inv_l in H as ->. simpl. unfold ret.
    rewrite app_nil_r. by destruct self.
  - apply Forall2_cons_inv_l in H as (settings & sent' & Hc & H & ->).
    rewrite forEach_cons, (updateCategory_hit _ _ settings) by done.
    cbn [snd]. rewrite (IH sent') by done. simpl. by rewrite <- app_assoc.
Qed.
End Flush.


(** * The ledger discipline of [setValue] *)

Section Ledger.
Context {Store : Type} `{!ISettingsAccessor Store}.
Implicit Types self : Optimizer Store.
Local Abbreviation covers := (@covers Store).

Lemma getCategory_view self c : (getCategory c false self).1 = view self c.
Proof.
  unfold view. destruct (categoryCache self !! c) as [settings|] eqn:E.
  - by rewrite (getCategory_hit _ _ settings).
  - by rewrite getCategory_miss.
Qed.

Lemma getCategory_same_view self c c' :
  view (getCategory c false self).2 c' = view self c'.
Proof.
  unfold view at 1. rewrite getCategory_accessor.
  destruct (decide (c = c')) as [<- | Hne].
  - rewrite getCategory_cached. simpl. apply getCategory_view.
  - by rewrite getCategory_cache_other.
Qed.

(** What [getCategory] writes: nothing on a hit, its line on a miss. *)
Lemma getCategory_console self c :
  ∃ loads,
    (loads = [] ∨ loads = [LogGetCategory c]) ∧
    console (getCategory c false self).2 = console self ++ loads.
Proof.
  destruct (categoryCache self !! c) as [settings|] eqn:E.
  - exists []. rewrite (getCategory_hit _ _ settings) by done.
    split; [by left | by rewrite app_nil_r].
  - exists [LogGetCategory c]. rewrite getCategory_miss by done.
    split; [by right | done].
Qed.

Lemma covers_cached_all self :
  covers self →
  ∃ sent, Forall2 (λ c settings, categoryCache self !! c = Some settings)
            (modifiedCategories self) sent.
Proof.
  intros Hcov. hnf in Hcov.
  induction (modifiedCategories self) as [|c cs IH].
  - exists []. constructor.
  - destruct IH as [sent Hsent]; [intros; apply Hcov; by right|].
    destruct (Hcov c) as [settings Hc]; [by left|].
    exists (settings :: sent). by constructor.
Qed.

(** C10: in every state an optimizer reaches, a modified category has an
    entry in the cache; so flushing a modified category always sends its
    cached form data to the store, and flushing all of them sends each
    one: the guard of [updateCategory] skips none. *)
Theorem modified_categories_are_cached self :
  reachable self →
  (∀ c, c ∈ modifiedCategories self → is_Some (categoryCache self !! c)) ∧
  (∀ c, c ∈ modifiedCategories self →
     ∃ settings,
       categoryCache self !! c = Some settings ∧
       writeBackCategory c self =
         (tt, mkOptimizer (setSettings (accessor self) c settings)
                (categoryCache self) (Set_delete c (modifiedCategories self))
                (console self ++ [LogUpdateCategory c settings]))) ∧
  (∃ sent,
     Forall2 (λ c settings, categoryCache self !! c = Some settings)
       (modifiedCategories self) sent ∧
     writeBackAllCategories self =
       (tt, mkOptimizer
              (fold_left (λ store cs, setSettings store cs.1 cs.2)
                 (zip (modifiedCategories self) sent) (accessor self))
              (categoryCache self) []
              (console self ++
               zip_with LogUpdateCategory (modifiedCategories self) sent))).
Proof.
  intros Hreach. pose proof (reachable_covers self Hreach) as Hcov.
  split; [exact Hcov|]. split.
  - intros c Hc. destruct (Hcov c Hc) as [settings Hs].
    exists settings. split; [done|]. by apply writeBackCategory_dirty.
  - destruct (covers_cached_all self Hcov) as [sent Hsent].
    exists sent. split; [done|].
    unfold writeBackAllCategories, bind.
    by rewrite (updateCategories_spec _ sent).
Qed.

(** On a store that keeps form data as written, what a sequence of
    write-backs leaves in a category. *)
Lemma get_fold_flushed `{!LawfulStore Store} (g : CategoryName → FormData)
    flushed (store : Store) c :
  getSettingsFormData (fold_left (λ st c', setSettings st c' (g c')) flushed store) c =
    if decide (c ∈ flushed) then g c else getSettingsFormData store c.
Proof.
  revert store. induction flushed as [|c1 flushed IH]; intros store.
  - by rewrite decide_False by apply not_elem_of_nil.
  - simpl. rewrite IH. destruct (decide (c ∈ flushed)) as [Hin | Hin].
    + by rewrite decide_True by (by right).
    + destruct (decide (c = c1)) as [-> | Hne].
      * rewrite decide_True by (by left). apply get_set_eq.
      * rewrite decide_False by (rewrite elem_of_cons; tauto).
        by apply get_set_ne.
Qed.

(** C2: when [setValue] changes the value of a node with dependents, the
    trace of the call is: its own line, the load of the category if it
    was not cached, the write-back of every modified category of a
    parameter of a branch (with the form data the cache held, pending
    edits included), only then the change of the cached value, the
    write-back of the category of the node, and last the evictions of the
    categories of the parameters of the branches, none of which is cached
    or modified afterwards.  On a store that keeps form data as written,
    the store then holds the pending edits of those categories and, in the
    category of the node, its new value. *)
Theorem setValue_flushes_before_forgetting self item v deps found :
  covers self →
  dependents item = Some deps →
  (Optimizer_findSetting item self).1 = Some found →
  value found ≠ v →
  ∃ loads flushed forgotten,
    let sent :=
      assignSetting (view self (category item)) (subCategory item) (setting item) v in
    let self' := (setValue item v self).2 in
    emitted self self' =
      [LogSetValue (category item) (key item) v] ++ loads ++
      map (λ c, LogUpdateCategory c (view self c)) flushed ++
      [LogChange (category item) (key item) (value found) v;
       LogUpdateCategory (category item) sent] ++
      map CacheForgotten forgotten ∧
    (loads = [] ∨ loads = [LogGetCategory (category item)]) ∧
    NoDup flushed ∧
    (∀ c, c ∈ flushed ↔
          c ∈ dependentCategories deps ∧ c ∈ modifiedCategories self) ∧
    (∀ c, c ∈ forgotten → c ∈ dependentCategories deps) ∧
    accessor self' =
      setSettings
        (fold_left (λ store c, setSettings store c (view self c)) flushed
           (accessor self))
        (category item) sent ∧
    (∀ c, c ∈ dependentCategories deps →
          categoryCache self' !! c = None ∧ c ∉ modifiedCategories self') ∧
    (LawfulStore Store →
     ∀ c, c ∈ flushed ∨ c = category item →
          getSettingsFormData (accessor self') c =
            if decide (c = category item) then sent else view self c).
Proof.
  intros Hcov Hdeps Hfound Hne.
  unfold Optimizer_findSetting, bind, ret in Hfound.
  pose proof (getCategory_view self (category item)) as Hview.
  destruct (getCategory (category item) false self) as [settings selfx] eqn:Eg.
  simpl in Hview, Hfound. subst settings. clear selfx Eg.
  rewrite setValue_eq. cbv zeta. cbn [snd].
  set (self0 := (log (LogSetValue (category item) (key item) v) self).2).
  assert (Hcov0 : covers self0) by done.
  destruct (getCategory_console self0 (category item)) as (loads & Hloads & Hcon1).
  pose proof (getCategory_cached self0 (category item) false) as Hc1.
  rewrite getCategory_view in Hc1.
  pose proof (getCategory_modified self0 (category item) false) as Hm1.
  pose proof (getCategory_accessor self0 (category item) false) as Ha1.
  pose proof (getCategory_same_view self0 (category item)) as Hv1.
  pose proof (covers_getCategory (category item) false self0 Hcov0) as Hcov1.
  set (self1 := (getCategory (category item) false self0).2) in *.
  assert (Hv0 : ∀ c, view self0 c = view self c) by done.
  rewrite Hc1. simpl default. rewrite Hv0, Hfound. rewrite bool_decide_true by done.
  rewrite Hdeps.
  destruct (writeBackCategories_spec (dependentCategories deps) self1 Hcov1)
    as (flushed & Hnd & Hfl & Heq).
  rewrite Heq. cbn [snd]. clear Heq.
  set (self3 := (assignValue item v _).2).
  assert (Hc3 : categoryCache self3 !! category item =
                Some (assignSetting (view self (category item))
                        (subCategory item) (setting item) v)).
  { simpl. rewrite lookup_alter, decide_True by done. rewrite Hc1. simpl.
    by rewrite Hv0. }
  assert (Hm3 : category item ∈ modifiedCategories self3).
  { simpl. apply elem_of_Set_add. by left. }
  rewrite (writeBackCategory_dirty self3 _ _ Hm3 Hc3). cbn [snd].
  set (self4 := mkOptimizer _ _ _ _).
  assert (Hcov4 : covers self4).
  { intros c Hc. simpl in Hc. apply elem_of_Set_delete in Hc as [Hne' Hc].
    apply elem_of_Set_add in Hc as [? | Hc]; [done|].
    apply list_elem_of_filter in Hc as [_ Hc].
    simpl. rewrite lookup_alter, decide_False by done.
    apply Hcov1. by rewrite Hm1 in Hc |- *. }
  destruct (forgetCategories_spec (dependentCategories deps) self4 Hcov4)
    as (forgotten & Hsub & Hacc & Hcache & Hmod & Hcon).
  exists loads, flushed, forgotten. cbv zeta.
  assert (Hvf : ∀ c, view self1 c = view self c)
    by (intros c; by rewrite Hv1, Hv0).
  assert (Hacc' : accessor (forEach forgetCategoryCache (dependentCategories deps) self4).2 =
    setSettings
      (fold_left (λ store c, setSettings store c (view self c)) flushed (accessor self))
      (category item)
      (assignSetting (view self (category item)) (subCategory item) (setting item) v)).
  { rewrite Hacc. simpl. f_equal. rewrite Ha1. simpl.
    clear -Hvf. generalize (accessor self).
    induction flushed as [|c flushed IH]; intros store; [done|].
    simpl. by rewrite Hvf, IH. }
  split; [|split; [done|split; [done|split; [|split; [done|split; [|split]]]]]].
  - apply emitted_app. rewrite Hcon. simpl. rewrite Hcon1. simpl.
    assert (Hmap : map (λ c, LogUpdateCategory c (view self1 c)) flushed =
                   map (λ c, LogUpdateCategory c (view self c)) flushed)
      by (apply map_ext; intros c; by rewrite Hvf).
    rewrite Hmap. by rewrite <- !app_assoc.
  - intros c. rewrite Hfl. by rewrite Hm1.
  - exact Hacc'.
  - intros c Hc. split.
    + by rewrite Hcache, decide_True.
    + rewrite Hmod. intros Hin. by apply list_elem_of_filter in Hin as [? _].
  - intros Hlaw c Hc.
    rewrite Hacc'. case_decide as E.
    + subst c. apply get_set_eq.
    + rewrite get_set_ne by done. rewrite (get_fold_flushed (view self)).
      destruct Hc as [Hc | Hc]; [|done]. by rewrite decide_True.
Qed.
End Ledger.

(** The state reached by an edit of the video bitrate that is not written
    back yet: the output category is modified, and it is cached. *)
Lemma modified_categories_are_cached_witness :
  (∀ c, c ∈ modifiedCategories Sample.edited →
        is_Some (categoryCache Sample.edited !! c)) ∧
  (∀ c, c ∈ modifiedCategories Sample.edited →
     ∃ settings,
       categoryCache Sample.edited !! c = Some settings ∧
       writeBackCategory c Sample.edited =
         (tt, mkOptimizer (setSettings (accessor Sample.edited) c settings)
                (categoryCache Sample.edited)
                (Set_delete c (modifiedCategories Sample.edited))
                (console Sample.edited ++ [LogUpdateCategory c settings]))) ∧
  (∃ sent,
     Forall2 (λ c settings, categoryCache Sample.edited !! c = Some settings)
       (modifiedCategories Sample.edited) sent ∧
     writeBackAllCategories Sample.edited =
       (tt, mkOptimizer
              (fold_left (λ store cs, setSettings store cs.1 cs.2)
                 (zip (modifiedCategories Sample.edited) sent)
                 (accessor Sample.edited))
              (categoryCache Sample.edited) []
              (console Sample.edited ++
               zip_with LogUpdateCategory (modifiedCategories Sample.edited) sent))).
Proof.
  apply (modified_categories_are_cached Sample.edited).
  apply reachable_setValue, reachable_new.
Defined.

(** Switching the output mode of the edited optimizer back to simple: the
    pending bitrate is written back before the mode changes. *)
Lemma setValue_flushes_before_forgetting_witness :
  ∃ loads flushed forgotten,
    let self := Sample.edited in
    let item := Sample.outputModeItem in
    let v := VStr "Simple" in
    let sent :=
      assignSetting (view self (category item)) (subCategory item) (setting item) v in
    let self' := (setValue item v self).2 in
    emitted self self' =
      [LogSetValue (category item) (key item) v] ++ loads ++
      map (λ c, LogUpdateCategory c (view self c)) flushed ++
      [LogChange (category item) (key item) (VStr "Advanced") v;
       LogUpdateCategory (category item) sent] ++
      map CacheForgotten forgotten ∧
    (loads = [] ∨ loads = [LogGetCategory (category item)]) ∧
    NoDup flushed ∧
    (∀ c, c ∈ flushed ↔
          c ∈ dependentCategories [(VStr "Advanced", advancedParams)] ∧
          c ∈ modifiedCategories self) ∧
    (∀ c, c ∈ forgotten →
          c ∈ dependentCategories [(VStr "Advanced", advancedParams)]) ∧
    accessor self' =
      setSettings
        (fold_left (λ store c, setSettings store c (view self c)) flushed
           (accessor self))
        (category item) sent ∧
    (∀ c, c ∈ dependentCategories [(VStr "Advanced", advancedParams)] →
          categoryCache self' !! c = None ∧ c ∉ modifiedCategories self') ∧
    (LawfulStore PlainStore.t →
     ∀ c, c ∈ flushed ∨ c = category item →
          getSettingsFormData (accessor self') c =
            if decide (c = category item) then sent else view self c).
Proof.
  apply (setValue_flushes_before_forgetting Sample.edited Sample.outputModeItem
           (VStr "Simple") [(VStr "Advanced", advancedParams)]
           (mkSetting "Mode" (VStr "Advanced"))).
  - apply reachable_covers, reachable_setValue, reachable_new.
  - reflexivity.
  - reflexivity.
  - discriminate.
Defined.


(** * Fields of form data *)

Lemma find_assignParameter_same params s v :
  List.find (λ param, bool_decide (name param = s)) (assignParameter params s v) =
    (λ p, mkSetting (name p) v) <$>
      List.find (λ param, bool_decide (name param = s)) params.
Proof.
  induction params as [|p params IH]; [done|]. simpl.
  case_bool_decide as E; simpl.
  - by rewrite bool_decide_true.
  - by rewrite bool_decide_false.
Qed.

Lemma find_assignParameter_other params s s' v :
  s ≠ s' →
  List.find (λ param, bool_decide (name param = s')) (assignParameter params s v) =
    List.find (λ param, bool_decide (name param = s')) params.
Proof.
  intros Hne. induction params as [|p params IH]; [done|]. simpl.
  case_bool_decide as E; simpl.
  - rewrite !bool_decide_false by congruence. done.
  - by rewrite IH.
Qed.

Lemma findSetting_assign_same settings sub s v :
  findSetting (assignSetting settings sub s v) sub s =
    (λ p, mkSetting (name p) v) <$> findSetting settings sub s.
Proof.
  unfold findSetting. induction settings as [|x settings IH]; [done|]. simpl.
  case_bool_decide as E; simpl.
  - rewrite bool_decide_true by done. apply find_assignParameter_same.
  - rewrite bool_decide_false by done. apply IH.
Qed.

Lemma findSetting_assign_other settings sub s sub' s' v :
  (sub, s) ≠ (sub', s') →
  findSetting (assignSetting settings sub s v) sub' s' = findSetting settings sub' s'.
Proof.
  intros Hne. unfold findSetting.
  induction settings as [|x settings IH]; [done|]. simpl.
  case_bool_decide as E; simpl.
  - destruct (decide (nameSubCategory x = sub')) as [E' | E'].
    + rewrite !bool_decide_true by done.
      apply find_assignParameter_other. congruence.
    + by rewrite !bool_decide_false by done.
  - destruct (bool_decide (nameSubCategory x = sub')); [done | apply IH].
Qed.

Lemma assignParameter_id params s v :
  (∀ p, List.find (λ param, bool_decide (name param = s)) params = Some p → value p = v) →
  assignParameter params s v = params.
Proof.
  induction params as [|p params IH]; intros H; [done|]. simpl in *.
  case_bool_decide as E.
  - rewrite <- (H p eq_refl). by destruct p.
  - by rewrite IH.
Qed.

(** Assigning the value a field has, or assigning to a field that is not
    there, leaves the form data as it is. *)
Lemma assignSetting_id settings sub s v :
  (∀ p, findSetting settings sub s = Some p → value p = v) →
  assignSetting settings sub s v = settings.
Proof.
  unfold findSetting. induction settings as [|x settings IH]; intros H; [done|].
  simpl in *. case_bool_decide as E.
  - rewrite assignParameter_id by done. by destruct x.
  - by rewrite IH.
Qed.

Lemma assignSetting_assign settings sub s v w :
  assignSetting (assignSetting settings sub s v) sub s w = assignSetting settings sub s w.
Proof.
  induction settings as [|x settings IH]; [done|]. simpl.
  case_bool_decide as E; simpl.
  - rewrite bool_decide_true by done. f_equal. f_equal.
    induction (parameters x) as [|p ps IHp]; [done|]. simpl.
    case_bool_decide as E'; simpl.
    + by rewrite bool_decide_true.
    + rewrite bool_decide_false by done. by rewrite IHp.
  - rewrite bool_decide_false by done. by rewrite IH.
Qed.

Lemma fieldIn_assign settings (f g : Field) v :
  f.1.1 = g.1.1 →
  fieldIn (assignSetting settings f.1.2 f.2 v) g =
    if decide (f = g) then (λ _, v) <$> fieldIn settings f else fieldIn settings g.
Proof.
  intros Hc. unfold fieldIn. case_decide as E.
  - subst g. rewrite findSetting_assign_same. by destruct (findSetting _ _ _).
  - rewrite findSetting_assign_other; [done|].
    destruct f as [[c sub] s], g as [[c' sub'] s']. simpl in *. congruence.
Qed.


(** * The optimizer on a store that keeps form data as written *)

Section Lawful.
Context {Store : Type} `{!ISettingsAccessor Store} `{!LawfulStore Store}.
Implicit Types self : Optimizer Store.
Local Abbreviation consistent := (@consistent Store _).

Lemma consistent_new store : consistent (new_Optimizer store).
Proof.
  split.
  - intros c Hc. by apply elem_of_nil in Hc.
  - intros c settings Hc. simpl in Hc. by rewrite lookup_empty in Hc.
Qed.

Lemma consistent_log e : keeps consistent (log e).
Proof. by intros self H. Qed.

Lemma consistent_getCategory c : keeps consistent (getCategory c false).
Proof.
  intros self [Hcov Hcoh]. split; [by apply covers_getCategory|].
  intros c' settings Hc' Hm. rewrite getCategory_modified in Hm.
  rewrite getCategory_accessor.
  destruct (decide (c = c')) as [<- | Hne].
  - rewrite getCategory_cached, getCategory_view in Hc'. injection Hc' as <-.
    unfold view. destruct (categoryCache self !! c) as [s|] eqn:E; [|done].
    by apply Hcoh.
  - rewrite getCategory_cache_other in Hc' by done. by apply Hcoh.
Qed.

Lemma consistent_writeBackCategory c : keeps consistent (writeBackCategory c).
Proof.
  intros self [Hcov Hcoh]. split; [by apply covers_writeBackCategory|].
  destruct (decide (c ∈ modifiedCategories self)) as [Hm | Hm];
    [|by rewrite writeBackCategory_clean].
  destruct (Hcov c Hm) as [sent Hsent].
  rewrite (writeBackCategory_dirty _ _ sent) by done.
  intros c' settings Hc' Hm'. simpl in *.
  destruct (decide (c = c')) as [<- | Hne].
  - rewrite get_set_eq. congruence.
  - rewrite get_set_ne by done. apply Hcoh; [done|].
    intros Hin. apply Hm', elem_of_Set_delete. by split.
Qed.

Lemma view_writeBackCategory c self c' :
  covers self → view (writeBackCategory c self).2 c' = view self c'.
Proof.
  intros Hcov.
  destruct (decide (c ∈ modifiedCategories self)) as [Hm | Hm];
    [|by rewrite writeBackCategory_clean].
  destruct (Hcov c Hm) as [sent Hsent].
  rewrite (writeBackCategory_dirty _ _ sent) by done.
  unfold view. simpl. destruct (categoryCache self !! c') as [s|] eqn:E; [done|].
  simpl. rewrite get_set_ne; [done|]. congruence.
Qed.

Lemma consistent_forgetCategoryCache c : keeps consistent (forgetCategoryCache c).
Proof.
  intros self [Hcov Hcoh]. split; [by apply covers_forgetCategoryCache|].
  intros c' settings Hc' Hm'.
  rewrite forgetCategoryCache_cache in Hc'. case_decide as Hne; [done|].
  rewrite forgetCategoryCache_modified in Hm' by done.
  destruct (categoryCache self !! c) as [s|] eqn:E.
  - rewrite (forgetCategoryCache_hit _ _ s) by done. simpl. apply Hcoh; [done|].
    intros Hin. apply Hm', elem_of_Set_delete. split; [congruence | done].
  - rewrite forgetCategoryCache_miss by done. apply Hcoh; [done|].
    intros Hin. apply Hm', elem_of_Set_delete. split; [congruence | done].
Qed.

Lemma view_forgetCategoryCache c self c' :
  consistent self → c ∉ modifiedCategories self →
  view (forgetCategoryCache c self).2 c' = view self c'.
Proof.
  intros [Hcov Hcoh] Hm.
  destruct (categoryCache self !! c) as [s|] eqn:E;
    [|by rewrite forgetCategoryCache_miss].
  rewrite (forgetCategoryCache_hit _ _ s) by done.
  unfold view. simpl. destruct (decide (c = c')) as [<- | Hne].
  - rewrite lookup_delete_eq, E. simpl. by apply Hcoh.
  - by rewrite lookup_delete_ne.
Qed.

Lemma consistent_assignValue item v self :
  is_Some (categoryCache self !! category item) →
  consistent self → consistent (assignValue item v self).2.
Proof.
  intros Hc [Hcov Hcoh]. split; [by apply covers_assignValue|].
  intros c' settings Hc' Hm'. simpl in *.
  rewrite elem_of_Set_add in Hm'.
  rewrite lookup_alter_ne in Hc' by (intros E; apply Hm'; by left).
  apply Hcoh; [done|]. intros Hin. apply Hm'. by right.
Qed.

Lemma view_assignValue item v self c :
  is_Some (categoryCache self !! category item) →
  view (assignValue item v self).2 c =
    if decide (c = category item)
    then assignSetting (view self c) (subCategory item) (setting item) v
    else view self c.
Proof.
  intros [s Hs]. unfold view. simpl. case_decide as E.
  - subst c. rewrite lookup_alter_eq, Hs. done.
  - by rewrite lookup_alter_ne.
Qed.

Lemma consistent_findValue i : keeps consistent (Optimizer_findValue i).
Proof.
  apply keeps_bind; [apply consistent_getCategory | intros; apply keeps_ret].
Qed.

(** [findValue] returns the value the optimizer sees for the field, and
    changes nothing of what it sees. *)
Lemma findValue_eq i self :
  Optimizer_findValue i self =
    (read (seen self (fieldOf i)), (getCategory (category i) false self).2).
Proof.
  unfold Optimizer_findValue, bind, ret.
  pose proof (getCategory_view self (category i)) as Hv.
  destruct (getCategory _ _ _) as [settings self1]. simpl in *. subst settings.
  f_equal. unfold read, seen, fieldIn, findSettingValue. simpl.
  by destruct (findSetting _ _ _).
Qed.

Lemma seen_same_view self self' :
  (∀ c, view self' c = view self c) → ∀ f, seen self' f = seen self f.
Proof. intros H f. unfold seen. by rewrite H. Qed.

Lemma seen_findValue i self f :
  seen (Optimizer_findValue i self).2 f = seen self f.
Proof.
  rewrite findValue_eq. simpl. apply seen_same_view.
  intros c. apply getCategory_same_view.
Qed.

(** ** What [setValue] does to the fields *)

Lemma setValue_view item v self :
  consistent self →
  consistent (setValue item v self).2 ∧
  ∀ c, view (setValue item v self).2 c =
         if decide (c = category item)
         then assignSetting (view self c) (subCategory item) (setting item) v
         else view self c.
Proof.
  intros Hcons. rewrite setValue_eq. cbv zeta. cbn [snd].
  set (self0 := (log (LogSetValue (category item) (key item) v) self).2).
  assert (Hcons0 : consistent self0) by done.
  pose proof (getCategory_cached self0 (category item) false) as Hc1.
  rewrite getCategory_view in Hc1.
  pose proof (getCategory_same_view self0 (category item)) as Hv1.
  pose proof (consistent_getCategory (category item) self0 Hcons0) as Hcons1.
  set (self1 := (getCategory (category item) false self0).2) in *.
  assert (Hv0 : ∀ c, view self1 c = view self c) by (intros; by rewrite Hv1).
  rewrite Hc1. simpl default. change (view self0 (category item)) with (view self (category item)).
  assert (Hid : ∀ found,
    findSetting (view self (category item)) (subCategory item) (setting item) = found →
    (∀ p, found = Some p → value p = v) →
    consistent self1 ∧
    ∀ c, view self1 c =
           if decide (c = category item)
           then assignSetting (view self c) (subCategory item) (setting item) v
           else view self c).
  { intros found Hf Hval. split; [done|]. intros c. rewrite Hv0.
    case_decide as E; [|done]. subst c.
    rewrite assignSetting_id; [done|]. intros p Hp. apply Hval. congruence. }
  destruct (findSetting _ _ _) as [found|] eqn:Hfound;
    [|exact (Hid None eq_refl (λ p E, match Some_ne_None _ (eq_sym E) with end))].
  case_bool_decide as Hne.
  2:{ apply (Hid (Some found) eq_refl). intros p [= <-].
      by destruct (decide (value found = v)). }
  clear Hid.
  set (cs := match dependents item with
             | Some deps => dependentCategories deps | None => [] end).
  set (self2 := match dependents item with
                | Some deps => (forEach writeBackCategory (dependentCategories deps) self1).2
                | None => self1 end).
  assert (H2 : consistent self2 ∧ (∀ c, view self2 c = view self c) ∧
               categoryCache self2 = categoryCache self1 ∧
               ∀ c, c ∈ cs → c ∉ modifiedCategories self2).
  { unfold self2, cs. destruct (dependents item) as [deps|].
    - split; [|split; [|split]].
      + apply keeps_forEach; [intros; apply consistent_writeBackCategory | done].
      + intros c. rewrite <- Hv0.
        apply (forEach_preserves
                 (λ s, covers s ∧ view s c = view self1 c)); [|by destruct Hcons1].
        intros c' s _ [Hcov Hs]. split; [by apply covers_writeBackCategory|].
        by rewrite view_writeBackCategory.
      + apply writeBackCategories_cache.
      + intros c Hc.
        destruct (writeBackCategories_spec (dependentCategories deps) self1)
          as (flushed & _ & _ & Heq); [by destruct Hcons1|].
        rewrite Heq. simpl. intros Hin. by apply list_elem_of_filter in Hin as [? _].
    - split; [done|]. split; [done|]. split; [done|].
      intros c Hc. by apply elem_of_nil in Hc. }
  destruct H2 as (Hcons2 & Hv2 & Hcache2 & Hclean2).
  set (self3 := (assignValue item v (log _ self2).2).2).
  assert (Hc2 : is_Some (categoryCache self2 !! category item))
    by (rewrite Hcache2, Hc1; eauto).
  assert (Hcons3 : consistent self3) by by apply consistent_assignValue.
  assert (Hv3 : ∀ c, view self3 c =
                      if decide (c = category item)
                      then assignSetting (view self c) (subCategory item) (setting item) v
                      else view self c).
  { intros c. unfold self3. rewrite view_assignValue by done.
    change (view (log _ self2).2 c) with (view self2 c). by rewrite Hv2. }
  destruct (dependents item) as [deps|]; [|done].
  set (self4 := (writeBackCategory (category item) self3).2).
  assert (Hcons4 : consistent self4) by by apply consistent_writeBackCategory.
  assert (Hv4 : ∀ c, view self4 c = view self3 c)
    by (intros c; apply view_writeBackCategory; by destruct Hcons3).
  assert (Hclean4 : ∀ c, c ∈ cs → c ∉ modifiedCategories self4).
  { intros c Hc. unfold self4. rewrite writeBackCategory_modified.
    rewrite elem_of_Set_delete. simpl. rewrite elem_of_Set_add.
    specialize (Hclean2 c Hc). tauto. }
  assert (H5 : ∀ l, l ⊆ cs →
    let s := (forEach forgetCategoryCache l self4).2 in
    consistent s ∧ (∀ c, c ∈ cs → c ∉ modifiedCategories s) ∧
    ∀ c, view s c = view self4 c).
  { intros l Hl.
    apply (forEach_preserves
             (λ s, consistent s ∧ (∀ c, c ∈ cs → c ∉ modifiedCategories s) ∧
                   ∀ c, view s c = view self4 c)); [|done].
    intros c s Hc (Hs & Hcl & Hvs). split; [by apply consistent_forgetCategoryCache|].
    split.
    - intros c' Hc'. rewrite forgetCategoryCache_modified by by destruct Hs.
      rewrite elem_of_Set_delete. specialize (Hcl c' Hc'). tauto.
    - intros c'. rewrite view_forgetCategoryCache; auto. }
  destruct (H5 (dependentCategories deps)) as (Hcons5 & _ & Hv5); [done|].
  split; [done|]. intros c. by rewrite Hv5, Hv4, Hv3.
Qed.

Lemma consistent_setValue item v : keeps consistent (setValue item v).
Proof. intros self H. by apply setValue_view. Qed.

Lemma seen_setValue item v self f :
  consistent self →
  seen (setValue item v self).2 f =
    if decide (f = fieldOf item) then (λ _, v) <$> seen self f else seen self f.
Proof.
  intros Hcons. destruct (setValue_view item v self Hcons) as [_ Hv].
  unfold seen. rewrite Hv. case_decide as Ec.
  - pose proof (fieldIn_assign (view self f.1.1) (fieldOf item) f v) as H.
    simpl in H. rewrite H by done.
    case_decide; case_decide; congruence.
  - rewrite decide_False; [done|]. intros ->. done.
Qed.
End Lawful.


(** * Reading the settings *)

Lemma flat_map_sublist {A B} (f : A → list B) (l : list A) x :
  x ∈ l → f x `sublist_of` flat_map f l.
Proof.
  induction l as [|y l IH]; intros Hx; [by apply elem_of_nil in Hx|].
  simpl. apply elem_of_cons in Hx as [-> | Hx].
  - by apply sublist_inserts_r.
  - apply sublist_inserts_l. by apply IH.
Qed.

(** The fields of the subtree of a parameter of a branch are among the
    fields of the subtree of the node, which has its own field first. *)
Lemma NoDup_fields_child item deps dep p :
  dependents item = Some deps → dep ∈ deps → p ∈ dep.2 →
  NoDup (map fieldOf (iterateDefinition item)) →
  NoDup (map fieldOf (iterateDefinition p)) ∧
  ∀ d, d ∈ iterateDefinition p → fieldOf d ≠ fieldOf item.
Proof.
  intros Hdeps Hdep Hp Hnd. rewrite iterateDefinition_eq, Hdeps in Hnd.
  simpl in Hnd. apply NoDup_cons in Hnd as [Hnotin Hnd].
  assert (Hsub : iterateDefinition p `sublist_of`
                 flat_map (λ keyParams, iterateDefinitions keyParams.2) deps).
  { etrans; [|apply (flat_map_sublist _ deps dep Hdep)].
    by apply (flat_map_sublist iterateDefinition). }
  split.
  - eapply sublist_NoDup; [exact Hnd | by apply (fmap_sublist fieldOf)].
  - intros d Hd E. apply Hnotin. rewrite <- E. apply list_elem_of_fmap.
    exists d. split; [done|]. eapply elem_of_sublist; [done | exact Hsub].
Qed.

Lemma NoDup_fields_item items item :
  item ∈ items →
  NoDup (map fieldOf (iterateDefinitions items)) →
  NoDup (map fieldOf (iterateDefinition item)).
Proof.
  intros Hi Hnd. eapply sublist_NoDup; [exact Hnd|].
  apply (fmap_sublist fieldOf). by apply (flat_map_sublist iterateDefinition).
Qed.

Section Read.
Context {Store : Type} `{!ISettingsAccessor Store}.
Implicit Types self : Optimizer Store.

Lemma then_eq {B} (m : M unit) (k : M B) self : (m >> k) self = k (m self).2.
Proof. unfold bind. by destruct (m self) as [[] ?]. Qed.

Lemma getValuesItem_eq item self :
  getValuesItem item self =
    let r := Optimizer_findValue item self in
    match dependents item with
    | Some deps =>
      let r2 :=
        forEachYield (λ dependent,
          setValue item dependent.1 >> getValues dependent.2) deps r.2 in
      ((key item, r.1) :: r2.1, (setValue item r.1 r2.2).2)
    | None => ([(key item, r.1)], r.2)
    end.
Proof.
  destruct item as [k c sub s l lk [deps|]];
    cbn -[Optimizer_findValue setValue forEachYield]; unfold bind, ret;
    destruct (Optimizer_findValue _ self) as [v s1]; cbn [fst snd]; [|done].
  change (forEachYield getValuesItem) with getValues.
  match goal with |- context [forEachYield ?f deps s1] =>
    destruct (forEachYield f deps s1) as [ys s2] end.
  cbn [fst snd]. by destruct (setValue _ _ _) as [[] ?].
Qed.

Lemma setValuesItem_eq values item self :
  setValuesItem values item self =
    (tt,
     match dependents item with
     | Some deps =>
       let r := Optimizer_findValue item self in
       let s2 :=
         (forEach (λ dependent,
            if isDependValues values dependent.2
            then setValue item dependent.1 >> setValues values dependent.2
            else ret tt) deps r.2).2 in
       (setValue item
          (if hasOwnProperty values (key item) then prop values (key item) else r.1)
          s2).2
     | None =>
       if hasOwnProperty values (key item)
       then (setValue item (prop values (key item)) self).2
       else self
     end).
Proof.
  destruct item as [k c sub s l lk [deps|]];
    cbn -[Optimizer_findValue setValue forEach isDependValues hasOwnProperty prop];
    unfold bind, ret.
  - destruct (Optimizer_findValue _ self) as [v s1]; cbn [fst snd].
    change (forEach (setValuesItem values)) with (setValues values).
    match goal with |- context [forEach ?f deps s1] =>
      destruct (forEach f deps s1) as [[] s2] end.
    cbn [fst snd]. by destruct (setValue _ _ _) as [[] ?].
  - destruct (hasOwnProperty values k); [|done].
    by destruct (setValue _ _ _) as [[] ?].
Qed.

(** What a loop yields when every round yields what [g] says, under an
    invariant of the state. *)
Lemma forEachYield_spec {A B} (I : Optimizer Store → Prop)
    (f : A → M (list B)) (g : A → list B) l self :
  (∀ x s, x ∈ l → I s → I (f x s).2 ∧ (f x s).1 = g x) →
  I self →
  I (forEachYield f l self).2 ∧ (forEachYield f l self).1 = flat_map g l.
Proof.
  revert self. induction l as [|x l IH]; intros self Hf HI; [done|].
  rewrite forEachYield_cons. simpl.
  destruct (Hf x self) as [HI1 Hx]; [by left | done |].
  destruct (IH (f x self).2) as [HI2 Hl]; [intros; apply Hf; [by right | done] | done |].
  split; [done|]. by rewrite Hx, Hl.
Qed.

Lemma forEachYield_fst {A B C} (f : A → M (list (B * C))) (g : A → list B) l :
  (∀ x, x ∈ l → ∀ s, map fst (f x s).1 = g x) →
  ∀ self, map fst (forEachYield f l self).1 = flat_map g l.
Proof.
  induction l as [|x l IH]; intros Hf self; [done|].
  rewrite forEachYield_cons. cbn [fst flat_map]. rewrite map_app.
  rewrite Hf by (by left). f_equal. apply IH. intros; apply Hf; by right.
Qed.

(** The keys [getValues] yields are the keys of the flattened tree, in
    order, whatever the store does. *)
Lemma getValuesItem_keys item self :
  map fst (getValuesItem item self).1 = map key (iterateDefinition item).
Proof.
  revert self. induction item as [item IH] using DefinitionParam_tree_ind.
  intros self. rewrite getValuesItem_eq, iterateDefinition_eq. cbv zeta.
  destruct (dependents item) as [deps|]; [|done].
  specialize (IH deps eq_refl). rewrite Forall_forall in IH.
  cbn [fst map]. f_equal.
  rewrite (forEachYield_fst _ (λ dep, map key (iterateDefinitions dep.2))).
  - induction deps as [|dep deps IHd]; [done|].
    cbn [flat_map]. rewrite map_app. f_equal. apply IHd.
    intros; apply IH; by right.
  - intros dep Hdep s. rewrite then_eq. unfold getValues.
    rewrite (forEachYield_fst _ (λ p, map key (iterateDefinition p))).
    + unfold iterateDefinitions.
      induction dep.2 as [|p ps IHp]; [done|].
      cbn [flat_map]. rewrite map_app. by f_equal.
    + intros p Hp s'. specialize (IH dep Hdep). rewrite Forall_forall in IH.
      by apply IH.
Qed.

Lemma getValues_keys definitions self :
  map fst (getValues definitions self).1 = map key (iterateDefinitions definitions).
Proof.
  unfold getValues.
  rewrite (forEachYield_fst _ (λ p, map key (iterateDefinition p))).
  - unfold iterateDefinitions.
    induction definitions as [|p ps IHp]; [done|].
    cbn [flat_map]. rewrite map_app. by f_equal.
  - intros p _ s. apply getValuesItem_keys.
Qed.
End Read.

(** [Object.assign] has a property for every key of its arguments. *)
Lemma Object_assign_lookup_is_Some objects k :
  k ∈ map fst objects → is_Some (Object_assign objects !! k).
Proof.
  unfold Object_assign. generalize (∅ : OptimizeSettings).
  induction objects as [|[k' v] objects IH]; intros m Hk; [by apply elem_of_nil in Hk|].
  simpl in *. apply elem_of_cons in Hk as [-> | Hk]; [|by apply IH].
  clear IH. assert (H : is_Some (<[k' := v]> m !! k')) by (rewrite lookup_insert_eq; eauto).
  revert H. generalize (<[k' := v]> m).
  induction objects as [|[k2 v2] objects IH]; intros m' H; [done|].
  simpl. apply IH. destruct (decide (k2 = k')) as [-> | Hne].
  - rewrite lookup_insert_eq. eauto.
  - by rewrite lookup_insert_ne.
Qed.

(** With distinct keys, the property of a key holds the value of its
    object. *)
Lemma Object_assign_lookup objects k v :
  NoDup (map fst objects) → (k, v) ∈ objects → Object_assign objects !! k = Some v.
Proof.
  unfold Object_assign. generalize (∅ : OptimizeSettings).
  induction objects as [|[k' v'] objects IH]; intros m Hnd Hk;
    [by apply elem_of_nil in Hk|].
  simpl in *. apply NoDup_cons in Hnd as [Hnotin Hnd].
  apply elem_of_cons in Hk as [[= <- <-] | Hk]; [|by apply IH].
  clear IH Hnd.
  assert (H : <[k := v]> m !! k = Some v) by apply lookup_insert_eq.
  revert H. generalize (<[k := v]> m).
  induction objects as [|[k2 v2] objects IH]; intros m' H; [done|].
  simpl in *. apply not_elem_of_cons in Hnotin as [Hne Hnotin].
  apply IH; [done|]. by rewrite lookup_insert_ne.
Qed.


(** * Reading restores every field *)

Lemma flat_map_map {A B C} (h : B → C) (f : A → list B) l :
  flat_map (λ x, map h (f x)) l = map h (flat_map f l).
Proof.
  induction l as [|x l IH]; [done|]. cbn [flat_map]. by rewrite map_app, IH.
Qed.

Section Restore.
Context {Store : Type} `{!ISettingsAccessor Store} `{!LawfulStore Store}.
Implicit Types self : Optimizer Store.
Local Abbreviation consistent := (@consistent Store _).

Lemma unchanged_trans self s s' : unchanged self s → unchanged s s' → unchanged self s'.
Proof. intros [_ H1] [H2 H3]. split; [done|]. intros f. by rewrite H3. Qed.

Lemma unchanged_findValue i self : consistent self → unchanged self (Optimizer_findValue i self).2.
Proof.
  intros H. split; [by apply consistent_findValue|]. intros f. apply seen_findValue.
Qed.

Lemma pivoted_setValue item v self s :
  pivoted (fieldOf item) self s → pivoted (fieldOf item) self (setValue item v s).2.
Proof.
  intros (Hc & Hf & HF). split; [by apply consistent_setValue|]. split.
  - intros f Hne. rewrite seen_setValue, decide_False by done. by apply Hf.
  - rewrite seen_setValue, decide_True by done. rewrite <- HF.
    by rewrite fmap_is_Some.
Qed.

Lemma pivoted_unchanged F self s s' :
  pivoted F self s → unchanged s s' → pivoted F self s'.
Proof.
  intros (_ & Hf & HF) [Hc Hs]. split; [done|]. split.
  - intros f Hne. rewrite Hs. by apply Hf.
  - by rewrite Hs.
Qed.

(** Setting a pivoted field back to the value read before the pivot
    restores everything. *)
Lemma restored_setValue item self s :
  pivoted (fieldOf item) self s →
  unchanged self (setValue item (read (seen self (fieldOf item))) s).2.
Proof.
  intros (Hc & Hf & HF). split; [by apply consistent_setValue|].
  intros f. rewrite seen_setValue by done. case_decide as E; [|by apply Hf].
  subst f. destruct (seen self (fieldOf item)) as [x|] eqn:Ex.
  - simpl. destruct HF as [_ HF]. destruct HF as [y Hy]; [eauto|]. by rewrite Hy.
  - destruct (seen s (fieldOf item)) as [y|] eqn:Ey; [|done].
    destruct HF as [HF _]. destruct HF as [? ?]; [eauto | done].
Qed.

(** [getValues] leaves every field as it was: a pivot changes the field
    of its node only, and the node is set back at the end. *)
Lemma getValuesItem_unchanged item self :
  consistent self → unchanged self (getValuesItem item self).2.
Proof.
  revert self. induction item as [item IH] using DefinitionParam_tree_ind.
  intros self Hcons. rewrite getValuesItem_eq, findValue_eq. cbv zeta. cbn [fst snd].
  pose proof (unchanged_findValue item self Hcons) as H1.
  rewrite findValue_eq in H1. cbn [snd] in H1.
  set (s1 := (getCategory (category item) false self).2) in *.
  destruct (dependents item) as [deps|]; [|done].
  specialize (IH deps eq_refl). rewrite Forall_forall in IH. cbn [snd].
  apply restored_setValue.
  apply (forEachYield_preserves (pivoted (fieldOf item) self)).
  - intros dep s Hdep Hs. rewrite then_eq.
    apply pivoted_unchanged with (s := (setValue item dep.1 s).2);
      [by apply pivoted_setValue|].
    set (sa := (setValue item dep.1 s).2).
    assert (Hsa : consistent sa) by (apply consistent_setValue; by destruct Hs).
    apply (forEachYield_preserves (unchanged sa)); [|by split].
    intros p s' Hp Hs'. apply unchanged_trans with (s := s'); [done|].
    specialize (IH dep Hdep). rewrite Forall_forall in IH. apply IH; [done|].
    by destruct Hs'.
  - destruct H1 as [Hc1 Hs1]. split; [done|]. split; [auto|]. by rewrite Hs1.
Qed.

Lemma getValues_unchanged definitions self :
  consistent self → unchanged self (getValues definitions self).2.
Proof.
  intros Hcons. apply (forEachYield_preserves (unchanged self)); [|by split].
  intros p s' Hp Hs'. apply unchanged_trans with (s := s'); [done|].
  apply getValuesItem_unchanged. by destruct Hs'.
Qed.

(** With distinct fields, what [getValues] yields for a node is the value
    its field had when the call began. *)
Lemma getValuesItem_yields item self :
  consistent self →
  NoDup (map fieldOf (iterateDefinition item)) →
  (getValuesItem item self).1 =
    map (λ d, (key d, read (seen self (fieldOf d)))) (iterateDefinition item).
Proof.
  revert self. induction item as [item IH] using DefinitionParam_tree_ind.
  intros self Hcons Hnd. rewrite getValuesItem_eq, findValue_eq, iterateDefinition_eq.
  cbv zeta. cbn [fst snd].
  pose proof (unchanged_findValue item self Hcons) as H1.
  rewrite findValue_eq in H1. cbn [snd] in H1.
  set (s1 := (getCategory (category item) false self).2) in *.
  pose proof (NoDup_fields_child item) as Hchild.
  destruct (dependents item) as [deps|]; [|done].
  specialize (IH deps eq_refl). rewrite Forall_forall in IH.
  cbn [fst map]. f_equal.
  set (h := λ d : DefinitionParam, (key d, read (seen self (fieldOf d)))).
  assert (Hloop : ∀ s, pivoted (fieldOf item) self s →
    (forEachYield (λ dependent, setValue item dependent.1 >> getValues dependent.2)
       deps s).1 =
    flat_map (λ dep, map h (iterateDefinitions dep.2)) deps).
  { intros s Hs.
    apply (forEachYield_spec (pivoted (fieldOf item) self)); [|done].
    intros dep s' Hdep Hs'. rewrite then_eq.
    set (sa := (setValue item dep.1 s').2).
    assert (Hsa : pivoted (fieldOf item) self sa) by by apply pivoted_setValue.
    assert (Hin : ∀ s2, unchanged sa s2 →
      unchanged sa (getValues dep.2 s2).2 ∧
      (getValues dep.2 s2).1 = flat_map (λ p, map h (iterateDefinition p)) dep.2).
    { intros s2 Hs2. apply (forEachYield_spec (unchanged sa)); [|done].
      intros p s3 Hp Hs3.
      destruct (Hchild deps dep p eq_refl Hdep Hp Hnd) as [Hndp Hne].
      split.
      - apply unchanged_trans with (s := s3); [done|].
        apply getValuesItem_unchanged. by destruct Hs3.
      - specialize (IH dep Hdep). rewrite Forall_forall in IH.
        rewrite (IH p Hp s3) by (done || by destruct Hs3).
        apply map_ext_in. intros d Hd. apply list_elem_of_In in Hd.
        unfold h. do 2 f_equal.
        destruct Hs3 as [_ Hs3]. rewrite Hs3.
        destruct Hsa as (_ & Hsa & _). apply Hsa. by apply Hne. }
    destruct (Hin sa) as [Hu Hy]; [split; [by destruct Hsa | done]|].
    split; [by eapply pivoted_unchanged|].
    rewrite Hy. apply flat_map_map. }
  rewrite Hloop.
  - apply (flat_map_map h (λ dep, iterateDefinitions dep.2)).
  - destruct H1 as [Hc1 Hs1]. split; [done|]. split; [auto|]. by rewrite Hs1.
Qed.

Lemma getValues_yields definitions self :
  consistent self →
  NoDup (map fieldOf (iterateDefinitions definitions)) →
  (getValues definitions self).1 =
    map (λ d, (key d, read (seen self (fieldOf d)))) (iterateDefinitions definitions).
Proof.
  intros Hcons Hnd.
  set (h := λ d : DefinitionParam, (key d, read (seen self (fieldOf d)))).
  assert (H : unchanged self (getValues definitions self).2 ∧
    (getValues definitions self).1 = flat_map (λ p, map h (iterateDefinition p)) definitions).
  { apply (forEachYield_spec (unchanged self)); [|by split].
    intros p s Hp Hs. split.
    - apply unchanged_trans with (s := s); [done|].
      apply getValuesItem_unchanged. by destruct Hs.
    - rewrite getValuesItem_yields;
        [|by destruct Hs | by eapply NoDup_fields_item].
      apply map_ext. intros d. unfold h. destruct Hs as [_ Hs]. by rewrite Hs. }
  destruct H as [_ ->]. apply flat_map_map.
Qed.
End Restore.


(** * Writing a snapshot *)

Lemma elem_of_targets values nodes f v :
  (f, v) ∈ targets values nodes ↔
  ∃ d, d ∈ nodes ∧ fieldOf d = f ∧ values !! key d = Some v.
Proof.
  unfold targets. rewrite list_elem_of_omap. split.
  - intros (d & Hd & H). exists d. split; [done|].
    destruct (values !! key d) as [w|]; [|done]. by injection H as <- <-.
  - intros (d & Hd & <- & H). exists d. split; [done|]. by rewrite H.
Qed.

Lemma targets_app values l1 l2 :
  targets values (l1 ++ l2) = targets values l1 ++ targets values l2.
Proof. apply omap_app. Qed.

Lemma targets_flat_map {A} values (f : A → list DefinitionParam) l :
  flat_map (λ x, targets values (f x)) l = targets values (flat_map f l).
Proof.
  induction l as [|x l IH]; [done|]. cbn [flat_map]. by rewrite targets_app, IH.
Qed.

(** In a concatenation without duplicates, what a segment holds is in no
    later segment. *)
Lemma NoDup_flat_map_later {A B} (f : A → list B) l1 x l2 b y :
  NoDup (flat_map f (l1 ++ x :: l2)) → b ∈ f x → y ∈ l2 → b ∉ f y.
Proof.
  rewrite flat_map_app. cbn [flat_map]. intros Hnd Hb Hy Hin.
  apply NoDup_app in Hnd as (_ & _ & Hnd).
  apply NoDup_app in Hnd as (_ & Hdisj & _).
  apply (Hdisj b Hb). apply list_elem_of_In, in_flat_map.
  exists y. split; by apply list_elem_of_In.
Qed.

Section Write.
Context {Store : Type} `{!ISettingsAccessor Store} `{!LawfulStore Store}.
Implicit Types self : Optimizer Store.
Local Abbreviation consistent := (@consistent Store _).

Lemma achieves_ret : achieves (ret tt) [] [].
Proof.
  intros self H. split; [done|]. split; [done|]. split; [done|].
  intros f v Hin. by apply elem_of_nil in Hin.
Qed.

Lemma achieves_weaken (m : M unit) Fs Fs' G G' :
  achieves m Fs G → Fs ⊆ Fs' → G' ⊆ G → achieves m Fs' G'.
Proof.
  intros Hm HF HG self Hc. destruct (Hm self Hc) as (H1 & H2 & H3 & H4).
  split; [done|]. split; [|split; [done|]].
  - intros f Hf. apply H2. intros Hin. by apply Hf, HF.
  - intros f v Hin. by apply H4, HG.
Qed.

Lemma achieves_seq (m1 m2 : M unit) Fs1 Fs2 G1 G2 :
  achieves m1 Fs1 G1 → achieves m2 Fs2 G2 →
  (∀ f v, (f, v) ∈ G1 → f ∉ Fs2) →
  achieves (m1 >> m2) (Fs1 ++ Fs2) (G1 ++ G2).
Proof.
  intros H1 H2 Hdisj self Hc. rewrite then_eq.
  destruct (H1 self Hc) as (Hc1 & Hf1 & Hs1 & Hg1).
  destruct (H2 _ Hc1) as (Hc2 & Hf2 & Hs2 & Hg2).
  split; [done|]. split; [|split].
  - intros f Hf. rewrite not_elem_of_app in Hf. destruct Hf.
    rewrite Hf2 by done. by apply Hf1.
  - intros f. by rewrite Hs2.
  - intros f v Hin Hsome. apply elem_of_app in Hin as [Hin | Hin].
    + rewrite Hf2 by by eapply Hdisj. by apply Hg1.
    + apply Hg2; [done|]. by apply Hs1.
Qed.

Lemma achieves_setValue item v :
  achieves (setValue item v) [fieldOf item] [(fieldOf item, v)].
Proof.
  intros self Hc. split; [by apply consistent_setValue|]. split; [|split].
  - intros f Hf. rewrite seen_setValue by done.
    rewrite decide_False; [done|]. intros ->. apply Hf. by left.
  - intros f. rewrite seen_setValue by done. case_decide; [|done].
    by rewrite fmap_is_Some.
  - intros f w Hin [x Hx]. apply list_elem_of_singleton in Hin as [= -> ->].
    rewrite seen_setValue, decide_True by done. by rewrite Hx.
Qed.

(** A loop achieves the goals of its rounds when no later round touches
    a field of the goal of an earlier one. *)
Lemma achieves_forEach {A} (f : A → M unit) (Fs : A → list Field)
    (G : A → list (Field * Value)) l :
  (∀ x, x ∈ l → achieves (f x) (Fs x) (G x)) →
  (∀ l1 x l2, l = l1 ++ x :: l2 →
     ∀ g v y, (g, v) ∈ G x → y ∈ l2 → g ∉ Fs y) →
  achieves (forEach f l) (flat_map Fs l) (flat_map G l).
Proof.
  induction l as [|x l IH]; intros Hf Hdisj; [apply achieves_ret|].
  cbn [flat_map]. change (forEach f (x :: l)) with (f x >> forEach f l).
  apply achieves_seq.
  - apply Hf. by left.
  - apply IH; [intros; apply Hf; by right|].
    intros l1 y l2 -> g v z Hg Hz. by apply (Hdisj (x :: l1) y l2 eq_refl g v z).
  - intros g v Hg Hin. apply list_elem_of_In, in_flat_map in Hin as (y & Hy & Hin).
    apply list_elem_of_In in Hy, Hin.
    by apply (Hdisj [] x l eq_refl g v y).
Qed.

Lemma achieves_findValue i (k : Value → M unit) Fs G :
  (∀ v, achieves (k v) Fs G) → achieves (bind (Optimizer_findValue i) k) Fs G.
Proof.
  intros Hk self Hc. unfold bind.
  pose proof (consistent_findValue i self Hc) as Hc1.
  pose proof (seen_findValue i self) as Hs1.
  destruct (Optimizer_findValue i self) as [v s1]. cbn [snd] in *.
  destruct (Hk v s1 Hc1) as (H1 & H2 & H3 & H4).
  split; [done|]. split; [|split].
  - intros f Hf. by rewrite H2, Hs1.
  - intros f. by rewrite H3, Hs1.
  - intros f w Hin Hsome. apply H4; [done|]. by rewrite Hs1.
Qed.

(** The loop of [setValues] over nodes whose rounds achieve the targets of
    their subtrees. *)
Lemma setValues_achieves_items values items :
  (∀ p, p ∈ items →
     NoDup (map fieldOf (iterateDefinition p)) →
     achieves (setValuesItem values p) (map fieldOf (iterateDefinition p))
       (targets values (iterateDefinition p))) →
  NoDup (map fieldOf (iterateDefinitions items)) →
  achieves (setValues values items) (map fieldOf (iterateDefinitions items))
    (targets values (iterateDefinitions items)).
Proof.
  intros Hitems Hnd. unfold iterateDefinitions.
  rewrite <- flat_map_map, <- targets_flat_map.
  apply achieves_forEach.
  - intros p Hp. apply Hitems; [done|]. by eapply NoDup_fields_item.
  - intros l1 x l2 -> g v y Hg Hy.
    apply elem_of_targets in Hg as (d & Hd & <- & _).
    unfold iterateDefinitions in Hnd. rewrite <- flat_map_map in Hnd.
    eapply (NoDup_flat_map_later (λ p, map fieldOf (iterateDefinition p)));
      [exact Hnd | | done].
    apply list_elem_of_fmap. eauto.
Qed.

(** [setValues] gives every field that is there, and whose key the
    snapshot names, the value of the snapshot, provided the nodes of the
    tree have distinct fields; it changes no field outside the tree. *)
Lemma setValuesItem_achieves values item :
  NoDup (map fieldOf (iterateDefinition item)) →
  achieves (setValuesItem values item) (map fieldOf (iterateDefinition item))
    (targets values (iterateDefinition item)).
Proof.
  induction item as [item IH] using DefinitionParam_tree_ind. intros Hnd.
  pose proof (NoDup_fields_child item) as Hchild.
  rewrite iterateDefinition_eq in Hnd |- *.
  destruct item as [k c sub s l lk [deps|]]; cbn [dependents] in *.
  - specialize (IH deps eq_refl). rewrite Forall_forall in IH.
    set (item := mkDefinitionParam k c sub s l lk (Some deps)) in *.
    cbn [map] in Hnd. apply NoDup_cons in Hnd as [Hnotin Hnd].
    change (setValuesItem values item) with
      (bind (Optimizer_findValue item) (λ v,
         forEach (λ dependent,
           if isDependValues values dependent.2
           then setValue item dependent.1 >> setValues values dependent.2
           else ret tt) deps >>
         setValue item
           (if hasOwnProperty values k then prop values k else v))).
    apply achieves_findValue. intros v.
    set (Fs := λ dep : Value * list DefinitionParam,
           fieldOf item :: map fieldOf (iterateDefinitions dep.2)).
    set (G := λ dep : Value * list DefinitionParam,
           targets values (iterateDefinitions dep.2)).
    eapply achieves_weaken.
    + apply achieves_seq;
        [apply (achieves_forEach _ Fs G) | apply achieves_setValue |].
      * intros dep Hdep. unfold Fs, G.
        assert (Hnd_dep : NoDup (map fieldOf (iterateDefinitions dep.2))).
        { eapply sublist_NoDup; [exact Hnd|]. apply (fmap_sublist fieldOf).
          by apply (flat_map_sublist (λ dep, iterateDefinitions dep.2)). }
        destruct (isDependValues values dep.2) eqn:Edep.
        -- eapply achieves_weaken;
             [apply achieves_seq;
                [apply achieves_setValue | apply setValues_achieves_items | ] | | ].
           ++ intros p Hp. specialize (IH dep Hdep). rewrite Forall_forall in IH.
              by apply IH.
           ++ done.
           ++ intros g w Hin. apply list_elem_of_singleton in Hin as [= -> ->].
              intros Hin. apply Hnotin.
              eapply elem_of_sublist; [exact Hin|]. apply (fmap_sublist fieldOf).
              by apply (flat_map_sublist (λ dep, iterateDefinitions dep.2)).
           ++ done.
           ++ intros x Hx. apply elem_of_app. by right.
        -- eapply achieves_weaken; [apply achieves_ret | apply list_subseteq_nil |].
           intros [g w] Hin. apply elem_of_targets in Hin as (d & Hd & _ & Hv).
           assert (isDependValues values dep.2 = true); [|congruence].
           apply isDependValues_spec. eauto.
      * intros l1 x l2 -> g w y Hg Hy. unfold Fs, G in *.
        apply elem_of_targets in Hg as (d & Hd & <- & _).
        apply not_elem_of_cons. split.
        -- intros E. apply Hnotin. rewrite <- E. apply list_elem_of_fmap.
           exists d. split; [done|].
           apply list_elem_of_In, in_flat_map. exists x.
           split; apply list_elem_of_In; [apply elem_of_app; right; by left | done].
        -- rewrite <- flat_map_map in Hnd.
           eapply (NoDup_flat_map_later (λ dep, map fieldOf (iterateDefinitions dep.2)));
             [exact Hnd | | done].
           apply list_elem_of_fmap. eauto.
      * intros g w Hin. apply list_elem_of_In, in_flat_map in Hin as (dep & Hdep & Hin).
        apply list_elem_of_In in Hdep, Hin. unfold G in Hin.
        apply elem_of_targets in Hin as (d & Hd & <- & _).
        intros E. apply list_elem_of_singleton in E. apply Hnotin. rewrite <- E.
        apply list_elem_of_fmap. exists d. split; [done|].
        apply list_elem_of_In, in_flat_map. exists dep.
        split; by apply list_elem_of_In.
    + intros g Hg. apply elem_of_app in Hg as [Hg | Hg].
      * apply list_elem_of_In, in_flat_map in Hg as (dep & Hdep & Hg).
        apply list_elem_of_In in Hdep, Hg. unfold Fs in Hg.
        apply elem_of_cons in Hg as [-> | Hg]; [by left | right].
        eapply elem_of_sublist; [exact Hg|]. apply (fmap_sublist fieldOf).
        by apply (flat_map_sublist (λ dep, iterateDefinitions dep.2)).
      * apply list_elem_of_singleton in Hg as ->. by left.
    + intros [g w] Hin. apply elem_of_targets in Hin as (d & Hd & <- & Hv).
      apply elem_of_cons in Hd as [-> | Hd].
      * apply elem_of_app. right. apply list_elem_of_singleton.
        unfold hasOwnProperty, prop. cbn [key item] in *. rewrite Hv.
        by rewrite bool_decide_true by eauto.
      * apply elem_of_app. left. unfold G. rewrite targets_flat_map.
        apply elem_of_targets. eauto.
  - cbn [setValuesItem dependents]. unfold hasOwnProperty, prop, targets. simpl.
    destruct (values !! k) as [v|] eqn:E; simpl.
    + apply achieves_setValue.
    + eapply achieves_weaken; [apply achieves_ret | apply list_subseteq_nil | done].
Qed.

Lemma setValues_achieves values definitions :
  NoDup (map fieldOf (iterateDefinitions definitions)) →
  achieves (setValues values definitions)
    (map fieldOf (iterateDefinitions definitions))
    (targets values (iterateDefinitions definitions)).
Proof.
  apply setValues_achieves_items. intros p _. apply setValuesItem_achieves.
Qed.
End Write.


(** * What has been written back *)

(** The distinct fields and keys of the shipped tree. *)
Lemma definitionParams_fields_NoDup :
  NoDup (map fieldOf (iterateDefinitions definitionParams)).
Proof. compute_done. Qed.

Lemma definitionParams_keys_NoDup :
  NoDup (map key (iterateDefinitions definitionParams)).
Proof. compute_done. Qed.

Section FlushAll.
Context {Store : Type} `{!ISettingsAccessor Store} `{!LawfulStore Store}.
Implicit Types self : Optimizer Store.
Local Abbreviation consistent := (@consistent Store _).

Lemma get_fold_setSettings_other (l : list (CategoryName * FormData)) (store : Store) c :
  c ∉ map fst l →
  getSettingsFormData (fold_left (λ st cs, setSettings st cs.1 cs.2) l store) c =
    getSettingsFormData store c.
Proof.
  revert store. induction l as [|[c1 fd1] l IH]; intros store Hc; [done|].
  simpl in *. apply not_elem_of_cons in Hc as [Hne Hc].
  rewrite IH by done. by rewrite get_set_ne.
Qed.

Lemma get_fold_setSettings (l : list (CategoryName * FormData)) (store : Store) c x :
  c ∈ map fst l → (∀ fd, (c, fd) ∈ l → fd = x) →
  getSettingsFormData (fold_left (λ st cs, setSettings st cs.1 cs.2) l store) c = x.
Proof.
  revert store. induction l as [|[c1 fd1] l IH]; intros store Hc Hx;
    [by apply elem_of_nil in Hc|].
  simpl in *. destruct (decide (c ∈ map fst l)) as [Hin | Hin].
  - apply IH; [done|]. intros fd Hfd. apply Hx. by right.
  - apply elem_of_cons in Hc as [-> | Hc]; [|done].
    rewrite get_fold_setSettings_other by done. rewrite get_set_eq.
    apply Hx. by left.
Qed.

(** With nothing modified, the store holds what the optimizer sees. *)
Lemma stored_seen self f :
  consistent self → modifiedCategories self = [] →
  stored (accessor self) f = seen self f.
Proof.
  intros [_ Hcoh] Hm. unfold stored, seen, view.
  destruct (categoryCache self !! f.1.1) as [settings|] eqn:E; [|done].
  simpl. rewrite (Hcoh _ _ E); [done|]. rewrite Hm. apply not_elem_of_nil.
Qed.

(** [writeBackAllCategories] leaves nothing modified and changes nothing
    of what the optimizer sees. *)
Lemma writeBackAllCategories_unchanged self :
  consistent self →
  unchanged self (writeBackAllCategories self).2 ∧
  modifiedCategories (writeBackAllCategories self).2 = [].
Proof.
  intros [Hcov Hcoh].
  destruct (covers_cached_all self Hcov) as [sent Hsent].
  unfold writeBackAllCategories, bind.
  rewrite (updateCategories_spec _ sent) by done. cbn [snd].
  set (l := zip (modifiedCategories self) sent).
  assert (Hl : ∀ c fd, (c, fd) ∈ l → categoryCache self !! c = Some fd).
  { intros c fd Hin. unfold l in Hin. clear -Hin Hsent.
    induction Hsent as [|c' fd' cs sent Hc' _ IH]; [by apply elem_of_nil in Hin|].
    simpl in Hin. apply elem_of_cons in Hin as [[= -> ->] | Hin]; auto. }
  assert (Hfst : map fst l = modifiedCategories self).
  { unfold l. clear -Hsent. induction Hsent; [done|]. simpl. by f_equal. }
  assert (Hget : ∀ c settings, categoryCache self !! c = Some settings →
    getSettingsFormData (fold_left (λ st cs, setSettings st cs.1 cs.2) l (accessor self)) c
      = settings).
  { intros c settings Hc. destruct (decide (c ∈ map fst l)) as [Hin | Hin].
    - apply get_fold_setSettings; [done|]. intros fd Hfd.
      apply Hl in Hfd. congruence.
    - rewrite get_fold_setSettings_other by done. apply Hcoh; [done|].
      by rewrite <- Hfst. }
  split; [split; [split|]|done].
  - intros c Hc. by apply elem_of_nil in Hc.
  - intros c settings Hc _. simpl in *. by apply Hget.
  - intros f. unfold seen, view. simpl.
    destruct (categoryCache self !! f.1.1) as [settings|] eqn:E; [done|]. simpl.
    rewrite get_fold_setSettings_other; [done|]. rewrite Hfst.
    intros Hin. apply Hcov in Hin as [? ?]. congruence.
Qed.

(** A pivot is written back at once: [setValue] on a node with dependents
    leaves nothing modified when nothing was. *)
Lemma setValue_nothing_modified item v self :
  is_Some (dependents item) →
  modifiedCategories self = [] →
  modifiedCategories (setValue item v self).2 = [].
Proof.
  intros [deps Hdeps] Hm. rewrite setValue_eq. cbv zeta. cbn [snd].
  set (self1 := (getCategory _ _ _).2).
  assert (Hm1 : modifiedCategories self1 = [])
    by (unfold self1; by rewrite getCategory_modified).
  destruct (findSetting _ _ _) as [found|]; [|done].
  case_bool_decide; [|done]. rewrite Hdeps.
  apply (forEach_preserves (λ s, modifiedCategories s = [])).
  - intros c s _ Hs. unfold forgetCategoryCache.
    case_bool_decide; [|done]. simpl. rewrite Hs. by case_bool_decide.
  - rewrite writeBackCategory_modified. simpl.
    assert (H2 : modifiedCategories
                   (forEach writeBackCategory (dependentCategories deps) self1).2 = []).
    { apply (forEach_preserves (λ s, modifiedCategories s = [])); [|done].
      intros c s _ Hs. by rewrite writeBackCategory_modified, Hs. }
    rewrite H2. unfold Set_add, Set_delete. simpl.
    rewrite filter_cons, decide_False by (intros H'; by apply H'). done.
Qed.

Lemma getValues_nothing_modified definitions self :
  modifiedCategories self = [] →
  modifiedCategories (getValues definitions self).2 = [].
Proof.
  apply (keeps_getValues (λ s, modifiedCategories s = [])).
  - intros d _ s Hs. rewrite findValue_eq. cbn [snd]. by rewrite getCategory_modified.
  - intros d v _ Hd s Hs. by apply setValue_nothing_modified.
Qed.
End FlushAll.


(** * Round trips *)

(** The plain store keeps form data as written. *)
#[global] Instance PlainStore_lawful : LawfulStore PlainStore.t.
Proof.
  split.
  - intros store c settingsData. simpl. by rewrite lookup_insert_eq.
  - intros store c c' settingsData Hne. simpl. by rewrite lookup_insert_ne.
Qed.

Section RoundTrip.
Context {Store : Type} `{!ISettingsAccessor Store}.
Implicit Types self : Optimizer Store.

Lemma seen_new (store : Store) f : seen (new_Optimizer store) f = stored store f.
Proof. done. Qed.

(** C5: [getCurrentSettings] returns a property for every member of
    [OptimizationKey], whatever the store holds and whichever branches are
    active; in [getValues] a node is set back once, after the loop over all
    its branches; and on a store that keeps form data as written, every
    field of the store, the branching ones among them, has after the call
    the value it had before. *)
Theorem getCurrentSettings_exhaustive :
  (∀ self k, is_Some ((getCurrentSettings self).1 !! k)) ∧
  (∀ item deps self,
     dependents item = Some deps →
     (getValuesItem item self).2 =
       (setValue item (Optimizer_findValue item self).1
          (forEachYield (λ dependent,
             setValue item dependent.1 >> getValues dependent.2) deps
             (Optimizer_findValue item self).2).2).2) ∧
  (LawfulStore Store →
   ∀ (store : Store) f,
     stored (accessor (getCurrentSettings (new_Optimizer store)).2) f =
       stored store f).
Proof.
  split; [|split].
  - intros self k. unfold getCurrentSettings, bind, ret.
    pose proof (getValues_keys definitionParams self) as Hkeys.
    destruct (getValues definitionParams self) as [objects self1]. cbn [fst snd] in *.
    apply Object_assign_lookup_is_Some. rewrite Hkeys.
    rewrite definitionParams_keys. destruct k; compute_done.
  - intros item deps self Hdeps. by rewrite getValuesItem_eq, Hdeps.
  - intros Hlaw store f. unfold getCurrentSettings, bind, ret.
    pose proof (getValues_unchanged definitionParams (new_Optimizer store)
                  (consistent_new store)) as [Hc Hs].
    pose proof (getValues_nothing_modified definitionParams (new_Optimizer store)
                  eq_refl) as Hm.
    destruct (getValues definitionParams _) as [objects self1]. cbn [fst snd] in *.
    by rewrite stored_seen, Hs.
Qed.

(** C3, for the fields the store has: after [optimize], on a store that
    keeps form data as written, [getCurrentSettings] returns for every key
    of the target whose field is in the store the value the target gives;
    and when [optimize] returns no category is left modified and the store
    holds every field as the optimizer sees it, so every change made during
    the call has been written back. *)
Theorem optimize_round_trip `{!LawfulStore Store} (store : Store)
    (optimized : OptimizeSettings) :
  let self' := (optimize optimized (new_Optimizer store)).2 in
  let current := (getCurrentSettings self').1 in
  (∀ d v,
     d ∈ iterateDefinitions definitionParams →
     optimized !! key d = Some v →
     is_Some (stored store (fieldOf d)) →
     current !! key d = Some v ∧ stored (accessor self') (fieldOf d) = Some v) ∧
  modifiedCategories self' = [] ∧
  (∀ f, stored (accessor self') f = seen self' f).
Proof.
  cbv zeta. unfold optimize. rewrite then_eq.
  set (self0 := new_Optimizer store).
  destruct (setValues_achieves optimized definitionParams
              definitionParams_fields_NoDup self0 (consistent_new store))
    as (Hc1 & _ & _ & Hgoal).
  set (self1 := (setValues optimized definitionParams self0).2) in *.
  destruct (writeBackAllCategories_unchanged self1 Hc1) as [[Hc2 Hs2] Hm2].
  set (self2 := (writeBackAllCategories self1).2) in *.
  assert (Hstored : ∀ f, stored (accessor self2) f = seen self2 f)
    by (intros f; by apply stored_seen).
  split; [|done].
  intros d v Hd Hv Hsome.
  assert (Hseen : seen self2 (fieldOf d) = Some v).
  { rewrite Hs2. apply Hgoal; [|done]. apply elem_of_targets. eauto. }
  split; [|by rewrite Hstored].
  unfold getCurrentSettings, bind, ret.
  pose proof (getValues_yields definitionParams self2 Hc2
                definitionParams_fields_NoDup) as Hy.
  destruct (getValues definitionParams self2) as [objects self3]. cbn [fst snd] in *.
  subst objects. apply Object_assign_lookup.
  - rewrite map_map. cbn [fst]. apply definitionParams_keys_NoDup.
  - apply list_elem_of_fmap. exists d. split; [|done]. by rewrite Hseen.
Qed.
End RoundTrip.

(** Reading the settings of the store in simple mode. *)
Lemma getCurrentSettings_exhaustive_witness :
  is_Some ((getCurrentSettings (new_Optimizer (Sample.store "Simple"))).1
             !! encoderPreset) ∧
  stored (accessor (getCurrentSettings (new_Optimizer (Sample.store "Simple"))).2)
    (fieldOf Sample.outputModeItem) =
  stored (Sample.store "Simple") (fieldOf Sample.outputModeItem).
Proof.
  destruct (getCurrentSettings_exhaustive (Store := PlainStore.t)) as (H1 & _ & H3).
  split; [apply H1 | apply H3, PlainStore_lawful].
Defined.

(** Setting the video bitrate of the store in simple mode. *)
Lemma optimize_round_trip_witness :
  let self' :=
    (optimize {[videoBitrate := VNum 2500]}
       (new_Optimizer (Sample.store "Simple"))).2 in
  let current := (getCurrentSettings self').1 in
  (∀ d v,
     d ∈ iterateDefinitions definitionParams →
     ({[videoBitrate := VNum 2500]} : OptimizeSettings) !! key d = Some v →
     is_Some (stored (Sample.store "Simple") (fieldOf d)) →
     current !! key d = Some v ∧ stored (accessor self') (fieldOf d) = Some v) ∧
  modifiedCategories self' = [] ∧
  (∀ f, stored (accessor self') f = seen self' f).
Proof.
  exact (optimize_round_trip (LawfulStore0 := PlainStore_lawful)
           (Sample.store "Simple") {[videoBitrate := VNum 2500]}).
Defined.

(** C3 as it is stated fails when the store has no field for a key of the
    target: [setValue] reports the key and goes on, and the snapshot read
    afterwards has [undefined] for the key. *)
Lemma optimize_round_trip_missing_field :
  let optimized : OptimizeSettings := {[videoBitrate := VNum 2500]} in
  let self' := (optimize optimized (new_Optimizer Sample.bareStore)).2 in
  optimized !! videoBitrate = Some (VNum 2500) ∧
  (getCurrentSettings self').1 !! videoBitrate = Some VUndefined ∧
  LogKeyNotFound videoBitrate ∈ console self'.
Proof. vm_compute. split; [done|]. split; [done|]. repeat constructor. Qed.


(** * The trace of a call *)

Section Trace.
Context {Store : Type} `{!ISettingsAccessor Store}.
Implicit Types self : Optimizer Store.

Lemma emitsAt_emitted {A} Q (m : @M Store A) self :
  emitsAt Q m self → Forall Q (emitted self (m self).2).
Proof. intros (l & Hl & HQ). by rewrite (emitted_app _ _ l). Qed.

Lemma emitsAt_weaken {A} (Q Q' : Event → Prop) (m : @M Store A) self :
  (∀ e, Q e → Q' e) → emitsAt Q m self → emitsAt Q' m self.
Proof.
  intros HQ (l & Hl & Hall). exists l. split; [done|].
  eapply Forall_impl; [exact Hall | done].
Qed.

Lemma emits_weaken {A} (Q Q' : Event → Prop) (m : @M Store A) :
  (∀ e, Q e → Q' e) → emits Q m → emits Q' m.
Proof. intros HQ Hm self. by eapply emitsAt_weaken. Qed.

Lemma emits_ret {A} Q (a : A) : emits Q (ret (Store:=Store) a).
Proof. intros self. exists []. by rewrite app_nil_r. Qed.

Lemma emitsAt_bind {A B} Q (m : @M Store A) (k : A → @M Store B) self :
  emitsAt Q m self → emitsAt Q (k (m self).1) (m self).2 →
  emitsAt Q (bind m k) self.
Proof.
  intros H1 H2. unfold emitsAt, bind in *.
  destruct (m self) as [a s1]. cbn [fst snd] in *.
  destruct H1 as (l1 & Hl1 & HQ1), H2 as (l2 & Hl2 & HQ2).
  exists (l1 ++ l2). split; [by rewrite Hl2, Hl1, app_assoc|].
  by apply Forall_app.
Qed.

Lemma emits_bind {A B} Q (m : @M Store A) (k : A → @M Store B) :
  emits Q m → (∀ a, emits Q (k a)) → emits Q (bind m k).
Proof. intros Hm Hk self. apply emitsAt_bind; [apply Hm | apply Hk]. Qed.

Lemma emits_forEach {A} Q (f : A → @M Store unit) l :
  (∀ x, x ∈ l → emits Q (f x)) → emits Q (forEach f l).
Proof.
  induction l as [|x l IH]; intros Hf; [apply emits_ret|].
  change (forEach f (x :: l)) with (f x >> forEach f l).
  apply emits_bind; [apply Hf; by left|]. intros _. apply IH.
  intros; apply Hf; by right.
Qed.

Lemma emits_log Q e : Q e → emits Q (log (Store:=Store) e).
Proof. intros HQ self. exists [e]. split; [done | by constructor]. Qed.

Lemma emits_getCategory Q c :
  Q (LogGetCategory c) → emits Q (getCategory c false).
Proof.
  intros HQ self. destruct (getCategory_console self c) as (l & Hcase & Hl).
  exists l. split; [done|]. destruct Hcase as [-> | ->]; by repeat constructor.
Qed.

Lemma emits_findValue Q i :
  Q (LogGetCategory (category i)) → emits Q (Optimizer_findValue i).
Proof.
  intros HQ. apply emits_bind; [by apply emits_getCategory|].
  intros; apply emits_ret.
Qed.

Lemma emits_writeBackCategory Q c :
  (∀ sent, Q (LogUpdateCategory c sent)) → emits Q (writeBackCategory c).
Proof.
  intros HQ self. unfold emitsAt.
  destruct (decide (c ∈ modifiedCategories self)) as [Hm | Hm].
  - destruct (categoryCache self !! c) as [sent|] eqn:E.
    + rewrite (writeBackCategory_dirty _ _ sent) by done.
      exists [LogUpdateCategory c sent]. split; [done | by repeat constructor].
    + rewrite writeBackCategory_skipped by done. exists []. simpl.
      by rewrite app_nil_r.
  - rewrite writeBackCategory_clean by done. exists []. by rewrite app_nil_r.
Qed.

Lemma emits_forgetCategoryCache Q c :
  Q (CacheForgotten c) → emits Q (forgetCategoryCache (Store:=Store) c).
Proof.
  intros HQ self. unfold emitsAt.
  destruct (categoryCache self !! c) as [sent|] eqn:E.
  - rewrite (forgetCategoryCache_hit _ _ sent) by done.
    exists [CacheForgotten c]. split; [done | by repeat constructor].
  - rewrite forgetCategoryCache_miss by done. exists []. by rewrite app_nil_r.
Qed.

Lemma emits_assignValue Q item v : emits Q (assignValue (Store:=Store) item v).
Proof. intros self. exists []. simpl. by rewrite app_nil_r. Qed.

(** [setValue] changes at most the value of its item, to [v]. *)
Lemma emits_setValue item v :
  emits (λ e, quiet e ∨ ∃ old, e = LogChange (category item) (key item) old v)
    (setValue item v).
Proof.
  set (Q := λ e, quiet e ∨ ∃ old, e = LogChange (category item) (key item) old v).
  assert (Hq : ∀ e, quiet e → Q e) by (intros; by left).
  unfold setValue.
  apply emits_bind; [apply emits_log, Hq; by intros ????|]. intros _.
  apply emits_bind.
  { apply emits_bind; [apply emits_getCategory, Hq; by intros ????|].
    intros; apply emits_ret. }
  intros [found|]; [|apply emits_log, Hq; by intros ????].
  case_bool_decide; [|apply emits_ret].
  apply emits_bind.
  { destruct (dependents item) as [deps|]; [|apply emits_ret].
    apply emits_forEach. intros dep _. apply emits_forEach. intros p _.
    apply emits_writeBackCategory. intros sent. apply Hq. by intros ????. }
  intros _. apply emits_bind; [apply emits_log; right; eauto|]. intros _.
  apply emits_bind; [apply emits_assignValue|]. intros _.
  destruct (dependents item) as [deps|]; [|apply emits_ret].
  apply emits_bind; [apply emits_writeBackCategory; intros; apply Hq; by intros ????|].
  intros _. apply emits_forEach. intros dep _. apply emits_forEach. intros p _.
  apply emits_forgetCategoryCache, Hq. by intros ????.
Qed.

(** When the field is not there, or holds [v] already, [setValue] changes
    nothing: the store, the modified categories and what the optimizer
    sees are as before, and the trace has its line and at most a load. *)
Lemma setValue_same item v self :
  (∀ found,
     findSetting (view self (category item)) (subCategory item) (setting item)
       = Some found → value found = v) →
  accessor (setValue item v self).2 = accessor self ∧
  modifiedCategories (setValue item v self).2 = modifiedCategories self ∧
  (∀ c, view (setValue item v self).2 c = view self c) ∧
  emitsAt (λ e, quiet e ∧ ∀ c sent, e ≠ LogUpdateCategory c sent)
    (setValue item v) self.
Proof.
  intros Hsame. unfold emitsAt. rewrite setValue_eq. cbv zeta. cbn [snd].
  set (self0 := (log (LogSetValue (category item) (key item) v) self).2).
  pose proof (getCategory_cached self0 (category item) false) as Hc1.
  rewrite getCategory_view in Hc1.
  pose proof (getCategory_same_view self0 (category item)) as Hv1.
  pose proof (getCategory_modified self0 (category item) false) as Hm1.
  pose proof (getCategory_accessor self0 (category item) false) as Ha1.
  destruct (getCategory_console self0 (category item)) as (loads & Hloads & Hcon1).
  set (self1 := (getCategory (category item) false self0).2) in *.
  rewrite Hc1. simpl default.
  change (view self0 (category item)) with (view self (category item)).
  assert (Hl : Forall (λ e, quiet e ∧ ∀ c sent, e ≠ LogUpdateCategory c sent)
                 ([LogSetValue (category item) (key item) v] ++ loads)).
  { apply Forall_app. split; [by repeat constructor|].
    destruct Hloads as [-> | ->]; by repeat constructor. }
  destruct (findSetting _ _ _) as [found|] eqn:Hfound.
  - rewrite bool_decide_false by (intros Hne; by apply Hne, Hsame).
    split; [done|]. split; [done|]. split; [done|].
    exists ([LogSetValue (category item) (key item) v] ++ loads).
    split; [|done]. rewrite Hcon1. simpl. by rewrite <- app_assoc.
  - split; [done|]. split; [done|]. split; [done|].
    exists (([LogSetValue (category item) (key item) v] ++ loads) ++
            [LogKeyNotFound (key item)]).
    split.
    + simpl. rewrite Hcon1. simpl. by rewrite <- !app_assoc.
    + apply Forall_app. split; [done|]. by repeat constructor.
Qed.
End Trace.


(** * Which fields a write changes *)

Lemma visitedItem_eq values item :
  visitedItem values item =
    item :: match dependents item with
            | Some deps =>
              flat_map (λ dependent,
                if isDependValues values dependent.2
                then visited values dependent.2 else []) deps
            | None => []
            end.
Proof. by destruct item. Qed.

Lemma visitedItem_child values item deps dep p d :
  dependents item = Some deps → dep ∈ deps → isDependValues values dep.2 = true →
  p ∈ dep.2 → d ∈ visitedItem values p → d ∈ visitedItem values item.
Proof.
  intros Hdeps Hdep Ht Hp Hd. rewrite visitedItem_eq, Hdeps. right.
  apply list_elem_of_In, in_flat_map. exists dep. split; [by apply list_elem_of_In|].
  rewrite Ht. apply in_flat_map. exists p. split; by apply list_elem_of_In.
Qed.

Lemma changesWithin_mono values nodes nodes' e :
  (∀ d, d ∈ nodes → d ∈ nodes') →
  changesWithin values nodes e → changesWithin values nodes' e.
Proof.
  intros Hsub H c k old new E. destruct (H c k old new E) as (d & Hd & ?).
  exists d. split; [by apply Hsub | done].
Qed.

Lemma quiet_changesWithin values nodes e : quiet e → changesWithin values nodes e.
Proof. intros Hq c k old new E. by destruct (Hq c k old new). Qed.

Section Isolation.
Context {Store : Type} `{!ISettingsAccessor Store}.
Implicit Types self : Optimizer Store.

(** A loop none of whose branches is entered does nothing. *)
Lemma forEach_untouched values item deps self :
  existsb (λ dep : Value * list DefinitionParam, isDependValues values dep.2) deps = false →
  forEach (λ dependent : Value * list DefinitionParam,
    if isDependValues values dependent.2
    then setValue item dependent.1 >> setValues values dependent.2
    else ret tt) deps self = (tt, self).
Proof.
  induction deps as [|dep deps IH]; intros H; [done|].
  simpl in H. apply orb_false_iff in H as [H1 H2].
  rewrite forEach_cons, H1. simpl. by apply IH.
Qed.

(** Every change of a value [setValues] makes is the change of the field
    of a node it visits, and of one that the snapshot names or that has a
    branch holding a key the snapshot names. *)
Lemma setValuesItem_changes values item :
  emits (changesWithin values (visitedItem values item)) (setValuesItem values item).
Proof.
  induction item as [item IH] using DefinitionParam_tree_ind.
  pose proof (visitedItem_child values item) as Hchild.
  assert (Hself : item ∈ visitedItem values item)
    by (rewrite visitedItem_eq; by left).
  set (Q := changesWithin values (visitedItem values item)) in *.
  assert (Hq : ∀ e, quiet e → Q e) by (intros; by apply quiet_changesWithin).
  assert (Hset : ∀ v, is_Some (values !! key item) ∨ pivotedBy values item →
                      emits Q (setValue item v)).
  { intros v Hwhy. eapply emits_weaken; [|apply emits_setValue].
    intros e [He | [old ->]]; [by apply Hq|].
    intros c k old' new [= <- <- <- <-]. exists item. done. }
  destruct item as [k c sub s l lk [deps|]]; cbn [setValuesItem dependents] in *.
  - specialize (IH deps eq_refl). rewrite Forall_forall in IH.
    set (item := mkDefinitionParam k c sub s l lk (Some deps)) in *.
    intros self. apply emitsAt_bind;
      [apply emits_findValue, Hq; by intros ????|].
    apply emitsAt_bind.
    + apply emits_forEach. intros dep Hdep.
      destruct (isDependValues values dep.2) eqn:Edep; [|apply emits_ret].
      apply emits_bind.
      * apply Hset. right. exists deps, dep. done.
      * intros _. apply emits_forEach. intros p Hp.
        eapply emits_weaken; [|specialize (IH dep Hdep);
                                rewrite Forall_forall in IH; by apply IH].
        intros e. apply changesWithin_mono. intros d Hd.
        by eapply (Hchild deps dep p d eq_refl).
    + destruct (existsb (λ dep : Value * list DefinitionParam,
                  isDependValues values dep.2) deps) eqn:Eex.
      { apply Hset. right. apply existsb_exists in Eex as (dep & Hdep & Ht).
        exists deps, dep. split; [done|]. split; [by apply list_elem_of_In | done]. }
      unfold hasOwnProperty. cbn [key item]. case_bool_decide as Hk.
      { apply Hset. by left. }
      rewrite forEach_untouched by done. cbn [fst snd].
      rewrite findValue_eq. cbn [fst snd].
      eapply emitsAt_weaken; [|apply setValue_same].
      * intros e [He _]. by apply Hq.
      * intros found Hfound. rewrite getCategory_same_view in Hfound.
        unfold read, seen, fieldIn. cbn [fieldOf fst snd]. by rewrite Hfound.
  - unfold hasOwnProperty. case_bool_decide as Hk; [|apply emits_ret].
    apply Hset. by left.
Qed.

Lemma setValues_changes values definitions :
  emits (changesWithin values (visited values definitions))
    (setValues values definitions).
Proof.
  apply emits_forEach. intros item Hitem.
  eapply emits_weaken; [|apply setValuesItem_changes].
  intros e. apply changesWithin_mono. intros d Hd.
  apply list_elem_of_In, in_flat_map. exists item. split; by apply list_elem_of_In.
Qed.

(** C1, as the code has it: a change of value made by [setValues] is the
    change of the field of a node it visits, that is a node outside the
    branches in which the snapshot names no key, and of a node that the
    snapshot names or one of whose branches holds a named key; in the
    shipped tree, when the snapshot names no key under the advanced branch,
    only the top-level fields it names change.  The value the snapshot
    gives a branching field plays no part: on a store that keeps form data
    as written, every named key whose field is in the store ends with the
    value the snapshot gives it. *)
Theorem setValues_changes_named_branches values :
  (∀ definitions self c k old new,
     LogChange c k old new ∈ emitted self (setValues values definitions self).2 →
     ∃ d, d ∈ visited values definitions ∧ key d = k ∧ category d = c ∧
          (is_Some (values !! k) ∨ pivotedBy values d)) ∧
  (isDependValues values advancedParams = false →
   ∀ self c k old new,
     LogChange c k old new ∈ emitted self (setValues values definitionParams self).2 →
     k ∈ [outputMode; quality; colorSpace; fps] ∧ is_Some (values !! k)) ∧
  (LawfulStore Store →
   ∀ (store : Store) d v,
     d ∈ iterateDefinitions definitionParams →
     values !! key d = Some v →
     is_Some (stored store (fieldOf d)) →
     seen (setValues values definitionParams (new_Optimizer store)).2 (fieldOf d)
       = Some v).
Proof.
  assert (H1 : ∀ definitions self c k old new,
     LogChange c k old new ∈ emitted self (setValues values definitions self).2 →
     ∃ d, d ∈ visited values definitions ∧ key d = k ∧ category d = c ∧
          (is_Some (values !! k) ∨ pivotedBy values d)).
  { intros definitions self c k old new Hin.
    pose proof (emitsAt_emitted _ _ _ (setValues_changes values definitions self)) as Hall.
    rewrite Forall_forall in Hall. by apply (Hall _ Hin c k old new). }
  split; [exact H1|]. split.
  - intros Hun self c k old new Hin.
    destruct (H1 _ _ _ _ _ _ Hin) as (d & Hd & <- & <- & Hwhy).
    unfold visited, definitionParams in Hd. cbn [flat_map] in Hd.
    rewrite !visitedItem_eq in Hd. cbn [dependents leaf flat_map snd] in Hd.
    rewrite Hun in Hd. cbn [app] in Hd.
    rewrite !elem_of_cons, elem_of_nil in Hd.
    destruct Hd as [-> | [-> | [-> | [-> | []]]]];
      (split; [cbn [key leaf]; rewrite !elem_of_cons; tauto|]);
      (destruct Hwhy as [? | (deps & dep & Hdeps & Hdep & Ht)]; [done|]);
      cbn [dependents leaf] in Hdeps; try discriminate Hdeps.
    injection Hdeps as <-. apply list_elem_of_singleton in Hdep as ->.
    cbn [snd] in Ht. congruence.
  - intros Hlaw store d v Hd Hv Hsome.
    destruct (setValues_achieves values definitionParams
                definitionParams_fields_NoDup (new_Optimizer store)
                (consistent_new store)) as (_ & _ & _ & Hgoal).
    apply Hgoal; [|done]. apply elem_of_targets. eauto.
Qed.
End Isolation.

(** The value the target gives the output mode does not keep the bitrate
    it names from being set. *)
Lemma setValues_changes_named_branches_witness :
  let values : OptimizeSettings :=
    {[outputMode := VStr "Simple"; videoBitrate := VNum 2500]} in
  seen (setValues values definitionParams (new_Optimizer (Sample.store "Simple"))).2
    (fieldOf Sample.videoBitrateItem) = Some (VNum 2500).
Proof.
  intros values.
  destruct (setValues_changes_named_branches (Store := PlainStore.t) values)
    as (_ & _ & H).
  apply (H PlainStore_lawful (Sample.store "Simple") Sample.videoBitrateItem).
  - right. left.
  - reflexivity.
  - vm_compute. eauto.
Defined.

(** C1 as it is stated fails: the target selects the simple mode and names
    the video bitrate, a field of the advanced branch; [optimize] pivots
    into that branch, changes the bitrate and writes it to the store. *)
Lemma optimize_applies_entries_of_other_branches :
  let values : OptimizeSettings :=
    {[outputMode := VStr "Simple"; videoBitrate := VNum 2500]} in
  let self' := (optimize values (new_Optimizer (Sample.store "Simple"))).2 in
  stored (Sample.store "Simple") (fieldOf Sample.outputModeItem) = Some (VStr "Simple") ∧
  stored (Sample.store "Simple") (fieldOf Sample.videoBitrateItem) = Some (VNum 1000) ∧
  LogChange output videoBitrate (VNum 1000) (VNum 2500) ∈ console self' ∧
  stored (accessor self') (fieldOf Sample.outputModeItem) = Some (VStr "Simple") ∧
  stored (accessor self') (fieldOf Sample.videoBitrateItem) = Some (VNum 2500).
Proof.
  vm_compute. repeat split; try reflexivity.
  apply list_elem_of_In. vm_compute. tauto.
Qed.


(** * The descent of a write into the branches *)

Section Descend.
Context {Store : Type} `{!ISettingsAccessor Store}.
Implicit Types self : Optimizer Store.

(** On a store that keeps form data as written, no step of a write makes
    a field appear or disappear. *)
Lemma setValues_keeps_fields `{!LawfulStore Store} values definitions self :
  keeps (λ s, consistent s ∧ ∀ f, is_Some (seen s f) ↔ is_Some (seen self f))
    (setValues values definitions).
Proof.
  apply keeps_setValues.
  - intros d _ _ s [Hc Hs]. split; [by apply consistent_findValue|].
    intros f. by rewrite seen_findValue.
  - intros d v _ _ s [Hc Hs]. split; [by apply consistent_setValue|].
    intros f. rewrite seen_setValue by done. case_decide; [|done].
    by rewrite fmap_is_Some.
Qed.

(** C7: on a node with dependents, [setValues] reads the current value,
    then for each branch in turn, exactly when the snapshot names a key of
    the subtree of the branch ([isDependValues]), sets the node to the
    value of the branch and then writes the parameters of the branch; after
    the last branch it sets the node to the value the snapshot gives its
    key when it names it, and otherwise to the value read at first.  On a
    store that keeps form data as written, that is the value the field of
    the node holds in the end, when the store has the field. *)
Theorem setValues_descends_into_named_branches values item deps self :
  dependents item = Some deps →
  let fallback := (Optimizer_findValue item self).1 in
  let final :=
    if hasOwnProperty values (key item) then prop values (key item) else fallback in
  (∀ dep, dep ∈ deps →
     (isDependValues values dep.2 = true ↔
      ∃ d, d ∈ iterateDefinitions dep.2 ∧ is_Some (values !! key d))) ∧
  (setValuesItem values item self).2 =
    (setValue item final
       (forEach (λ dependent,
          if isDependValues values dependent.2
          then setValue item dependent.1 >> setValues values dependent.2
          else ret tt) deps (Optimizer_findValue item self).2).2).2 ∧
  (LawfulStore Store → consistent self →
   fallback = read (seen self (fieldOf item)) ∧
   (is_Some (seen self (fieldOf item)) →
    seen (setValuesItem values item self).2 (fieldOf item) = Some final)).
Proof.
  intros Hdeps. cbv zeta. split; [|split].
  - intros dep _. apply isDependValues_spec.
  - by rewrite setValuesItem_eq, Hdeps.
  - intros Hlaw Hcons. rewrite setValuesItem_eq, Hdeps. cbv zeta. cbn [snd].
    rewrite findValue_eq. cbn [fst snd]. split; [done|]. intros Hsome.
    set (self1 := (getCategory (category item) false self).2).
    assert (H1 : consistent self1 ∧ ∀ f, is_Some (seen self1 f) ↔ is_Some (seen self f)).
    { split; [by apply consistent_getCategory|]. intros f.
      pose proof (seen_findValue item self f) as Hs. rewrite findValue_eq in Hs.
      cbn [snd] in Hs. unfold self1. by rewrite Hs. }
    assert (H2 : let s2 := (forEach (λ dependent : Value * list DefinitionParam,
                     if isDependValues values dependent.2
                     then setValue item dependent.1 >> setValues values dependent.2
                     else ret tt) deps self1).2 in
                 consistent s2 ∧ ∀ f, is_Some (seen s2 f) ↔ is_Some (seen self f)).
    { apply (keeps_forEach
               (λ s, consistent s ∧ ∀ f, is_Some (seen s f) ↔ is_Some (seen self f)));
        [|done].
      intros dep _. destruct (isDependValues values dep.2); [|apply keeps_ret].
      apply keeps_bind; [|intros _; apply setValues_keeps_fields].
      intros s [Hc Hs]. split; [by apply consistent_setValue|].
      intros f. rewrite seen_setValue by done. case_decide; [|done].
      by rewrite fmap_is_Some. }
    destruct H2 as [Hc2 Hs2]. rewrite seen_setValue, decide_True by done.
    destruct (proj2 (Hs2 (fieldOf item)) Hsome) as [x Hx]. by rewrite Hx.
Qed.
End Descend.

(** The output mode of the store in simple mode, for a target that names
    the video bitrate. *)
Lemma setValues_descends_into_named_branches_witness :
  let values : OptimizeSettings := {[videoBitrate := VNum 2500]} in
  let item := Sample.outputModeItem in
  let deps := [(VStr "Advanced", advancedParams)] in
  let self := new_Optimizer (Sample.store "Simple") in
  let fallback := (Optimizer_findValue item self).1 in
  let final :=
    if hasOwnProperty values (key item) then prop values (key item) else fallback in
  (∀ dep, dep ∈ deps →
     (isDependValues values dep.2 = true ↔
      ∃ d, d ∈ iterateDefinitions dep.2 ∧ is_Some (values !! key d))) ∧
  (setValuesItem values item self).2 =
    (setValue item final
       (forEach (λ dependent,
          if isDependValues values dependent.2
          then setValue item dependent.1 >> setValues values dependent.2
          else ret tt) deps (Optimizer_findValue item self).2).2).2 ∧
  (LawfulStore PlainStore.t → consistent self →
   fallback = read (seen self (fieldOf item)) ∧
   (is_Some (seen self (fieldOf item)) →
    seen (setValuesItem values item self).2 (fieldOf item) = Some final)).
Proof.
  exact (setValues_descends_into_named_branches {[videoBitrate := VNum 2500]}
           Sample.outputModeItem [(VStr "Advanced", advancedParams)]
           (new_Optimizer (Sample.store "Simple")) eq_refl).
Defined.


(** * Writing the current settings *)

Lemma NoDup_fmap_eq {A B} (f : A → B) (l : list A) x y :
  NoDup (map f l) → x ∈ l → y ∈ l → f x = f y → x = y.
Proof.
  induction l as [|a l IH]; intros Hnd Hx Hy E; [by apply elem_of_nil in Hx|].
  simpl in Hnd. apply NoDup_cons in Hnd as [Hnotin Hnd].
  apply elem_of_cons in Hx as [-> | Hx]; apply elem_of_cons in Hy as [-> | Hy].
  - done.
  - destruct Hnotin. rewrite E. apply list_elem_of_fmap. eauto.
  - destruct Hnotin. rewrite <- E. apply list_elem_of_fmap. eauto.
  - by apply IH.
Qed.

Section Idempotence.
Context {Store : Type} `{!ISettingsAccessor Store}.
Implicit Types self : Optimizer Store.

(** The snapshot read from a consistent state gives every key of the
    shipped tree the value of its field. *)
Lemma getCurrentSettings_lookup `{!LawfulStore Store} self d :
  consistent self →
  d ∈ iterateDefinitions definitionParams →
  (getCurrentSettings self).1 !! key d = Some (read (seen self (fieldOf d))).
Proof.
  intros Hc Hd. unfold getCurrentSettings, bind, ret.
  pose proof (getValues_yields definitionParams self Hc
                definitionParams_fields_NoDup) as Hy.
  destruct (getValues definitionParams self) as [objects self1]. cbn [fst snd] in *.
  subst objects. apply Object_assign_lookup.
  - rewrite map_map. cbn [fst]. apply definitionParams_keys_NoDup.
  - apply list_elem_of_fmap. eauto.
Qed.

Lemma getCurrentSettings_unchanged `{!LawfulStore Store} self :
  consistent self → unchanged self (getCurrentSettings self).2.
Proof.
  intros Hc. unfold getCurrentSettings, bind, ret.
  pose proof (getValues_unchanged definitionParams self Hc) as Hu.
  by destruct (getValues definitionParams self) as [objects self1].
Qed.

Lemma onlyPivots_step {A} nodes self s (m : @M Store A) :
  onlyPivots nodes self s →
  consistent (m s).2 →
  (∀ d, d ∈ nodes → dependents d = None →
        seen (m s).2 (fieldOf d) = seen s (fieldOf d)) →
  emitsAt (changesBranching nodes) m s →
  onlyPivots nodes self (m s).2.
Proof.
  intros (Hc & Hl & events & Hcon & Hall) Hc' Hl' (events' & Hcon' & Hall').
  split; [done|]. split.
  - intros d Hd Hleaf. rewrite Hl' by done. by apply Hl.
  - exists (events ++ events'). split; [by rewrite Hcon', Hcon, app_assoc|].
    by apply Forall_app.
Qed.

Lemma setValues_onlyPivots `{!LawfulStore Store} values definitions self :
  NoDup (map fieldOf (iterateDefinitions definitions)) →
  (∀ d v, d ∈ iterateDefinitions definitions → dependents d = None →
          values !! key d = Some v → v = read (seen self (fieldOf d))) →
  keeps (onlyPivots (iterateDefinitions definitions) self)
    (setValues values definitions).
Proof.
  intros Hnd Hvalues.
  set (nodes := iterateDefinitions definitions) in *.
  assert (Hq : ∀ e, quiet e → changesBranching nodes e).
  { intros e Hq c k old new E. by destruct (Hq c k old new). }
  assert (Hbranch : ∀ d v, d ∈ nodes → is_Some (dependents d) →
                      keeps (onlyPivots nodes self) (setValue d v)).
  { intros d v Hd Hdeps s Hs. apply onlyPivots_step; [done| | |].
    - apply consistent_setValue. by destruct Hs.
    - intros d' Hd' Hleaf. rewrite seen_setValue by by destruct Hs.
      rewrite decide_False; [done|]. intros E.
      apply (NoDup_fmap_eq fieldOf nodes d' d Hnd Hd' Hd) in E. subst d'.
      rewrite Hleaf in Hdeps. by destruct Hdeps.
    - eapply emitsAt_weaken; [|apply emits_setValue].
      intros e [He | [old ->]]; [by apply Hq|].
      intros c k old' new [= <- <- <- <-]. exists d. done. }
  apply keeps_setValues.
  - intros d Hd _ s Hs. apply onlyPivots_step; [done| | |].
    + apply consistent_findValue. by destruct Hs.
    + intros d' _ _. apply seen_findValue.
    + apply emits_findValue, Hq. by intros ????.
  - intros d v Hd Hwhy. destruct (dependents d) as [deps|] eqn:Hdeps.
    { apply Hbranch; [done|]. rewrite Hdeps. eauto. }
    destruct Hwhy as [[? [=]] | Hv].
    intros s Hs. destruct Hs as (Hc & Hl & Hev).
    assert (Hsame : ∀ found,
      findSetting (view s (category d)) (subCategory d) (setting d) = Some found →
      value found = v).
    { intros found Hfound. rewrite (Hvalues d v Hd Hdeps Hv).
      rewrite <- (Hl d Hd Hdeps). unfold read, seen, fieldIn. cbn [fieldOf fst snd].
      by rewrite Hfound. }
    destruct (setValue_same d v s Hsame) as (_ & _ & Hview & Hemit).
    apply onlyPivots_step; [done| | |].
    + by apply consistent_setValue.
    + intros d' _ _. by apply seen_same_view.
    + eapply emitsAt_weaken; [|exact Hemit]. intros e [He _]. by apply Hq.
Qed.

(** C4, as the code has it: [setValue] with the value the field holds
    changes nothing, makes no category modified and sends nothing to the
    store.  Writing back the snapshot just read, on a store that keeps form
    data as written, leaves every field with the value it had and changes
    the value of no node without dependents: the changes of value it makes
    are the pivots of the branching nodes. *)
Theorem setValues_of_current_settings :
  (∀ self item v found,
     (Optimizer_findSetting item self).1 = Some found →
     value found = v →
     accessor (setValue item v self).2 = accessor self ∧
     modifiedCategories (setValue item v self).2 = modifiedCategories self ∧
     Forall (λ e, quiet e ∧ ∀ c sent, e ≠ LogUpdateCategory c sent)
       (emitted self (setValue item v self).2)) ∧
  (LawfulStore Store →
   ∀ self,
     consistent self →
     let current := (getCurrentSettings self).1 in
     let self1 := (getCurrentSettings self).2 in
     let self2 := (setValues current definitionParams self1).2 in
     (∀ f, seen self2 f = seen self f) ∧
     Forall (changesBranching (iterateDefinitions definitionParams))
       (emitted self1 self2)).
Proof.
  split.
  - intros self item v found Hfound Hv.
    unfold Optimizer_findSetting, bind, ret in Hfound.
    pose proof (getCategory_view self (category item)) as Hview.
    destruct (getCategory (category item) false self) as [settings s1].
    cbn [fst snd] in *. subst settings.
    destruct (setValue_same item v self) as (Ha & Hm & _ & Hemit).
    { intros found' Hf. congruence. }
    split; [done|]. split; [done|]. by apply emitsAt_emitted.
  - intros Hlaw self Hc. cbv zeta.
    pose proof (getCurrentSettings_unchanged self Hc) as [Hc1 Hs1].
    pose proof (λ d, getCurrentSettings_lookup self d Hc) as Hcur.
    set (current := (getCurrentSettings self).1) in *.
    set (self1 := (getCurrentSettings self).2) in *.
    split.
    + destruct (setValues_achieves current definitionParams
                  definitionParams_fields_NoDup self1 Hc1)
        as (_ & Hframe & Hfound & Hgoal).
      intros f.
      destruct (decide (f ∈ map fieldOf (iterateDefinitions definitionParams)))
        as [Hin | Hin]; [|by rewrite Hframe, Hs1].
      apply list_elem_of_fmap in Hin as (d & -> & Hd).
      destruct (seen self (fieldOf d)) as [x|] eqn:Ex.
      * rewrite (Hgoal (fieldOf d) x); [done| |rewrite Hs1, Ex; eauto].
        apply elem_of_targets. exists d. split; [done|]. split; [done|].
        rewrite Hcur by done. by rewrite Ex.
      * destruct (seen (setValues current definitionParams self1).2 (fieldOf d))
          as [y|] eqn:Ey; [|done].
        assert (Hsome : is_Some (seen self1 (fieldOf d)))
          by (apply Hfound; rewrite Ey; eauto).
        rewrite Hs1, Ex in Hsome. by destruct Hsome.
    + assert (Hp : onlyPivots (iterateDefinitions definitionParams) self1
                     (setValues current definitionParams self1).2).
      { apply setValues_onlyPivots.
        - apply definitionParams_fields_NoDup.
        - intros d v Hd _ Hv. rewrite Hcur in Hv by done.
          injection Hv as <-. by rewrite Hs1.
        - split; [done|]. split; [done|]. exists []. by rewrite app_nil_r. }
      destruct Hp as (_ & _ & events & Hcon & Hall).
      by rewrite (emitted_app _ _ events).
Qed.
End Idempotence.

(** Writing back the settings read from the store in advanced mode. *)
Lemma setValues_of_current_settings_witness :
  let self := new_Optimizer (Sample.store "Advanced") in
  let item := Sample.outputModeItem in
  (accessor (setValue item (VStr "Advanced") self).2 = accessor self ∧
   modifiedCategories (setValue item (VStr "Advanced") self).2 = modifiedCategories self ∧
   Forall (λ e, quiet e ∧ ∀ c sent, e ≠ LogUpdateCategory c sent)
     (emitted self (setValue item (VStr "Advanced") self).2)) ∧
  (let current := (getCurrentSettings self).1 in
   let self1 := (getCurrentSettings self).2 in
   let self2 := (setValues current definitionParams self1).2 in
   (∀ f, seen self2 f = seen self f) ∧
   Forall (changesBranching (iterateDefinitions definitionParams))
     (emitted self1 self2)).
Proof.
  destruct (setValues_of_current_settings (Store := PlainStore.t)) as [H1 H2].
  split.
  - apply (H1 _ _ _ (mkSetting "Mode" (VStr "Advanced"))); reflexivity.
  - apply (H2 PlainStore_lawful). apply consistent_new.
Defined.

(** C4 as it is stated fails: in simple mode the snapshot read names the
    keys of the advanced branch, so writing it back pivots the output mode
    to [Advanced] and back; the output category becomes modified and is
    sent to the store. *)
Lemma setValues_of_current_settings_pivots :
  let self := new_Optimizer (Sample.store "Simple") in
  let current := (getCurrentSettings self).1 in
  let self1 := (getCurrentSettings self).2 in
  let self2 := (setValues current definitionParams self1).2 in
  current !! outputMode = Some (VStr "Simple") ∧
  LogChange output outputMode (VStr "Simple") (VStr "Advanced") ∈ emitted self1 self2 ∧
  ∃ sent, LogUpdateCategory output sent ∈ emitted self1 self2.
Proof.
  cbv zeta. split; [by vm_compute|]. split.
  - apply list_elem_of_In. vm_compute. tauto.
  - eexists. apply list_elem_of_In. vm_compute.
    repeat (try (left; reflexivity); right).
Qed.


(** * Translation paths *)

Lemma append_nil_r s : s +:+ "" = s.
Proof.
induction s as [|a s IH]; [reflexivity|].
change (String a (s +:+ "") = String a s). by rewrite IH.
Qed.

Lemma append_assoc s1 s2 s3 : (s1 +:+ s2) +:+ s3 = s1 +:+ (s2 +:+ s3).
Proof.
induction s1 as [|a s1 IH]; [reflexivity|].
change (String a ((s1 +:+ s2) +:+ s3) = String a (s1 +:+ (s2 +:+ s3))).
by rewrite IH.
Qed.

Lemma length_append s1 s2 :
  String.length (s1 +:+ s2) = (String.length s1 + String.length s2)%nat.
Proof.
induction s1 as [|a s1 IH]; [reflexivity|].
change (S (String.length (s1 +:+ s2)) = S (String.length s1 + String.length s2)).
by rewrite IH.
Qed.

Lemma append_inj_r s1 s2 t : s1 +:+ t = s2 +:+ t → s1 = s2.
Proof.
revert s2. induction s1 as [|a s1 IH]; intros [|b s2] E.
- reflexivity.
- apply (f_equal String.length) in E.
  change (String.length t = S (String.length (s2 +:+ t))) in E.
  rewrite length_append in E. lia.
- apply (f_equal String.length) in E.
  change (S (String.length (s1 +:+ t)) = String.length t) in E.
  rewrite length_append in E. lia.
- change (String a (s1 +:+ t) = String b (s2 +:+ t)) in E.
  injection E as -> E. f_equal. by apply IH.
Qed.

Lemma concat_empty_cons x l : String.concat "" (x :: l) = x +:+ String.concat "" l.
Proof. destruct l as [|y l]; simpl; [by rewrite append_nil_r|reflexivity]. Qed.

Lemma concat_empty_app l1 l2 :
  String.concat "" (l1 ++ l2) = String.concat "" l1 +:+ String.concat "" l2.
Proof.
induction l1 as [|x l1 IH]; [reflexivity|].
change ((x :: l1) ++ l2) with (x :: (l1 ++ l2)).
by rewrite !concat_empty_cons, IH, append_assoc.
Qed.

(** X1: a path can be built in steps: the path of [top] and no segment
    is [top], and the path of a list of segments followed by another is
    the path of the second list on top of the path of the first; so the
    path [value] looks a raw string up with is the path of the node,
    which it prints for an undefined value, extended by the string. *)
Theorem i18nPath_app top :
  i18nPath top [] = top ∧
  (∀ args1 args2,
     i18nPath top (args1 ++ args2) = i18nPath (i18nPath top args1) args2) ∧
  (∀ c sub s raw,
     i18nPath top [c; sub; s; raw] = i18nPath (i18nPath top [c; sub; s]) [raw]).
Proof.
assert (Happ : ∀ args1 args2,
  i18nPath top (args1 ++ args2) = i18nPath (i18nPath top args1) args2).
{ intros args1 args2. unfold i18nPath.
  by rewrite map_app, concat_empty_app, append_assoc. }
split; [|split].
- unfold i18nPath. simpl. apply append_nil_r.
- exact Happ.
- intros c sub s raw. exact (Happ [c; sub; s] [raw]).
Qed.

(** X2: two raw strings that differ are looked up under different paths:
    with the same leading segments, the last segment can be read back
    from the path, whether it is joined with a dot or, having white
    space, in brackets. *)
Theorem i18nPath_last_inj top args raw1 raw2 :
  i18nPath top (args ++ [raw1]) = i18nPath top (args ++ [raw2]) → raw1 = raw2.
Proof.
unfold i18nPath. rewrite !map_app, !concat_empty_app. simpl.
intros E. apply String.app_inj in E. apply String.app_inj in E.
destruct (has_space raw1), (has_space raw2).
- apply String.app_inj in E. by apply append_inj_r in E.
- discriminate E.
- discriminate E.
- by apply String.app_inj in E.
Qed.

Lemma i18nPath_last_inj_witness :
  i18nPath "settings" (["Output"; "Audio - Track 1"; "Track1Bitrate"] ++ ["160"]) =
    i18nPath "settings" (["Output"; "Audio - Track 1"; "Track1Bitrate"] ++ ["160"]) ∧
  "160" = "160".
Proof.
split; [reflexivity|].
apply (i18nPath_last_inj "settings" ["Output"; "Audio - Track 1"; "Track1Bitrate"]).
reflexivity.
Defined.


(** * The cache and the ledger as a caller sees them *)

Lemma NoDup_Set_add c s : NoDup s → NoDup (Set_add c s).
Proof.
intros Hs. unfold Set_add. case_bool_decide as Hin; [done|].
apply NoDup_app. split; [done|]. split; [|apply NoDup_singleton].
intros x Hx Hx'. apply list_elem_of_singleton in Hx'. by subst x.
Qed.

Lemma NoDup_Set_delete c s : NoDup s → NoDup (Set_delete c s).
Proof. apply NoDup_filter. Qed.

Lemma filter_none (P : CategoryName → Prop) `{!∀ x, Decision (P x)}
    (s : list CategoryName) :
  (∀ x, x ∈ s → ¬ P x) → filter P s = [].
Proof.
induction s as [|x s IH]; intros Hs; [done|].
rewrite filter_cons, decide_False by (apply Hs; by left).
apply IH. intros y Hy. apply Hs. by right.
Qed.

Section Caching.
Context {Store : Type} `{!ISettingsAccessor Store}.
Implicit Types self : Optimizer Store.
Local Abbreviation covers := (@covers Store).
Local Abbreviation tidy := (λ s : Optimizer Store, NoDup (modifiedCategories s)).

Lemma Optimizer_eta self :
  mkOptimizer (accessor self) (categoryCache self) (modifiedCategories self)
    (console self) = self.
Proof. by destruct self. Qed.

(** ** The set of modified categories holds no category twice *)

Lemma tidy_getCategory c reload : keeps tidy (getCategory c reload).
Proof. intros self H. by rewrite getCategory_modified. Qed.

Lemma tidy_log e : keeps tidy (log e).
Proof. by intros self H. Qed.

Lemma tidy_updateCategory c : keeps tidy (updateCategory c).
Proof. intros self H. by rewrite updateCategory_modified. Qed.

Lemma tidy_writeBackCategory c : keeps tidy (writeBackCategory c).
Proof.
intros self H. rewrite writeBackCategory_modified. by apply NoDup_Set_delete.
Qed.

Lemma tidy_writeBackAllCategories : keeps tidy writeBackAllCategories.
Proof.
intros self H. unfold writeBackAllCategories. rewrite then_eq. apply NoDup_nil_2.
Qed.

Lemma tidy_forgetCategoryCache c : keeps tidy (forgetCategoryCache c).
Proof.
intros self H. unfold forgetCategoryCache.
case_bool_decide; [|done]. simpl.
case_bool_decide; [by apply NoDup_Set_delete|done].
Qed.

Lemma tidy_findValue i : keeps tidy (Optimizer_findValue i).
Proof. apply keeps_bind; [apply tidy_getCategory|intros; apply keeps_ret]. Qed.

Lemma tidy_findSetting i : keeps tidy (Optimizer_findSetting i).
Proof. apply keeps_bind; [apply tidy_getCategory|intros; apply keeps_ret]. Qed.

Lemma tidy_assignValue item v : keeps tidy (assignValue item v).
Proof. intros self H. simpl. by apply NoDup_Set_add. Qed.

Lemma tidy_setValue item v : keeps tidy (setValue item v).
Proof.
unfold setValue.
apply keeps_bind; [apply tidy_log|intros _].
apply keeps_bind; [apply tidy_findSetting|intros [found|]]; [|apply tidy_log].
case_bool_decide; [|apply keeps_ret].
apply keeps_bind.
{ destruct (dependents item); [|apply keeps_ret].
  apply keeps_forEach. intros dep _. apply keeps_forEach. intros p _.
  apply tidy_writeBackCategory. }
intros _. apply keeps_bind; [apply tidy_log|intros _].
apply keeps_bind; [apply tidy_assignValue|intros _].
destruct (dependents item); [|apply keeps_ret].
apply keeps_bind; [apply tidy_writeBackCategory|intros _].
apply keeps_forEach. intros dep _. apply keeps_forEach. intros p _.
apply tidy_forgetCategoryCache.
Qed.

Lemma tidy_getValues definitions : keeps tidy (getValues definitions).
Proof.
apply keeps_getValues; intros; [apply tidy_findValue|apply tidy_setValue].
Qed.

Lemma tidy_setValues values definitions : keeps tidy (setValues values definitions).
Proof.
apply keeps_setValues; intros; [apply tidy_findValue|apply tidy_setValue].
Qed.

Lemma reachable_tidy self : reachable self → NoDup (modifiedCategories self).
Proof.
induction 1 as [store|self store _ IH|self c reload _ IH|self c _ IH|self c _ IH
  |self _ IH|self c _ IH|self i _ IH|self i _ IH|self item v _ IH
  |self definitions _ IH|self values definitions _ IH|self _ IH|self optimized _ IH].
- apply NoDup_nil_2.
- exact IH.
- by apply tidy_getCategory.
- by apply tidy_updateCategory.
- by apply tidy_writeBackCategory.
- by apply tidy_writeBackAllCategories.
- by apply tidy_forgetCategoryCache.
- by apply tidy_findValue.
- by apply tidy_findSetting.
- by apply tidy_setValue.
- by apply tidy_getValues.
- by apply tidy_setValues.
- revert IH. apply (keeps_bind tidy); [apply tidy_getValues|intros; apply keeps_ret].
- unfold optimize. rewrite then_eq. apply tidy_writeBackAllCategories.
  by apply tidy_setValues.
Qed.

(** ** Sending categories one by one *)

(** [updateCategory] does not look at the set of modified categories. *)
Lemma updateCategories_modified cs a cache m m' con :
  let r := (forEach updateCategory cs (mkOptimizer a cache m con)).2 in
  (forEach updateCategory cs (mkOptimizer a cache m' con)).2 =
    mkOptimizer (accessor r) (categoryCache r) m' (console r) ∧
  modifiedCategories r = m.
Proof.
revert a con. induction cs as [|c cs IH]; intros a con; [done|].
cbv zeta. rewrite !forEach_cons.
destruct (cache !! c) as [settings|] eqn:Hc.
- rewrite !(updateCategory_hit _ c settings) by done. simpl. apply IH.
- rewrite !updateCategory_miss by done. simpl. apply IH.
Qed.

Lemma writeBackCategories_updates cs : ∀ self,
  NoDup cs →
  (∀ c, c ∈ cs → c ∈ modifiedCategories self ∧ is_Some (categoryCache self !! c)) →
  forEach writeBackCategory cs self =
    (tt, let s := (forEach updateCategory cs self).2 in
         mkOptimizer (accessor s) (categoryCache s)
           (filter (λ c, c ∉ cs) (modifiedCategories self)) (console s)).
Proof.
induction cs as [|x cs IH]; intros self Hnd Hcs.
- cbn [forEach ret snd]. cbv zeta. unfold ret.
  rewrite filter_all by (intros; apply not_elem_of_nil).
  by rewrite Optimizer_eta.
- apply NoDup_cons in Hnd as [Hx Hnd].
  destruct (Hcs x) as [Hxm [settings Hxc]]; [by left|].
  rewrite !forEach_cons.
  rewrite (writeBackCategory_dirty _ x settings), (updateCategory_hit _ x settings) by done.
  cbn [snd]. rewrite IH; [|done|].
  2:{ intros c Hc. destruct (Hcs c) as [Hm Hca]; [by right|]. simpl. split; [|done].
      apply elem_of_Set_delete. split; [|done]. intros ->. done. }
  cbv zeta. cbn [accessor categoryCache modifiedCategories console].
  destruct (updateCategories_modified cs (setSettings (accessor self) x settings)
              (categoryCache self) (modifiedCategories self)
              (Set_delete x (modifiedCategories self))
              (console self ++ [LogUpdateCategory x settings])) as [-> _].
  cbn [accessor categoryCache modifiedCategories console].
  f_equal. f_equal.
  rewrite filter_Set_delete. apply filter_ext_elem.
  intros c _. rewrite not_elem_of_cons. tauto.
Qed.

(** X3: the cache is read through once: after a call of [getCategory]
    for a category, a further call returns the same form data and changes
    nothing, and it does so whatever the host has made of the store in
    between: the store is not asked again. *)
Theorem getCategory_again self c reload store :
  let loaded := (getCategory c reload self).2 in
  let later :=
    mkOptimizer store (categoryCache loaded) (modifiedCategories loaded)
      (console loaded) in
  getCategory c false loaded = ((getCategory c reload self).1, loaded) ∧
  getCategory c false later = ((getCategory c reload self).1, later).
Proof.
cbv zeta. pose proof (getCategory_cached self c reload) as Hc.
split; by apply getCategory_hit.
Qed.

(** X4: in a state an optimizer reaches, [forgetCategoryCache] drops the
    entry of the category and the mark that it is modified, without
    writing anything to the store, and leaves the other categories as they
    are; the next [getCategory] asks the store, so an edit of the category
    that was not written back is lost. *)
Theorem forgetCategoryCache_discards self c :
  reachable self →
  let forgotten := (forgetCategoryCache c self).2 in
  accessor forgotten = accessor self ∧
  categoryCache forgotten !! c = None ∧
  (c ∉ modifiedCategories forgotten) ∧
  (∀ c', c' ≠ c →
     categoryCache forgotten !! c' = categoryCache self !! c' ∧
     (c' ∈ modifiedCategories forgotten ↔ c' ∈ modifiedCategories self)) ∧
  getCategory c false forgotten =
    (getSettingsFormData (accessor self) c,
     mkOptimizer (accessor self)
       (<[c := getSettingsFormData (accessor self) c]> (categoryCache forgotten))
       (modifiedCategories forgotten)
       (console forgotten ++ [LogGetCategory c])).
Proof.
intros Hr. apply reachable_covers in Hr. cbv zeta.
assert (Hacc : accessor (forgetCategoryCache c self).2 = accessor self).
{ unfold forgetCategoryCache. by case_bool_decide. }
assert (Hcache : categoryCache (forgetCategoryCache c self).2 !! c = None).
{ rewrite forgetCategoryCache_cache. by rewrite decide_True. }
split; [done|]. split; [done|]. split; [|split].
- rewrite forgetCategoryCache_modified by done.
  rewrite elem_of_Set_delete. tauto.
- intros c' Hne. split.
  + rewrite forgetCategoryCache_cache. by rewrite decide_False.
  + rewrite forgetCategoryCache_modified by done.
    rewrite elem_of_Set_delete. tauto.
- rewrite getCategory_miss by done. by rewrite Hacc.
Qed.

(** X5: writing back is idempotent: a second [writeBackCategory] of the
    same category, and a second [writeBackAllCategories], send nothing and
    change nothing. *)
Theorem writeBack_idempotent self :
  (∀ c, writeBackCategory c (writeBackCategory c self).2 =
          (tt, (writeBackCategory c self).2)) ∧
  writeBackAllCategories (writeBackAllCategories self).2 =
    (tt, (writeBackAllCategories self).2).
Proof.
split.
- intros c. apply writeBackCategory_clean.
  rewrite writeBackCategory_modified, elem_of_Set_delete. tauto.
- assert (Hm : modifiedCategories (writeBackAllCategories self).2 = []).
  { unfold writeBackAllCategories. by rewrite then_eq. }
  set (s := (writeBackAllCategories self).2) in *.
  unfold writeBackAllCategories. rewrite then_eq, Hm. cbn [forEach ret snd].
  unfold ret. cbn [snd]. by rewrite <- Hm, Optimizer_eta.
Qed.

(** X6: in a state an optimizer reaches, the set of modified categories
    holds each category once, and [writeBackAllCategories] does what
    [writeBackCategory] does when called for each of them in turn: the
    same form data is sent to the store in the same order, and no
    category is left modified. *)
Theorem writeBackAllCategories_each self :
  reachable self →
  NoDup (modifiedCategories self) ∧
  writeBackAllCategories self =
    forEach writeBackCategory (modifiedCategories self) self.
Proof.
intros Hr. pose proof (reachable_tidy self Hr) as Hnd.
apply reachable_covers in Hr. split; [done|].
rewrite writeBackCategories_updates; [|done|by intros c Hc; split; [|apply Hr]].
unfold writeBackAllCategories. rewrite then_eq. cbv zeta. f_equal. f_equal.
symmetry. apply filter_none. intros c Hc Hn. by apply Hn.
Qed.
End Caching.

Lemma forgetCategoryCache_discards_witness :
  let self := Sample.edited in
  let c := output in
  let forgotten := (forgetCategoryCache c self).2 in
  accessor forgotten = accessor self ∧
  categoryCache forgotten !! c = None ∧
  (c ∉ modifiedCategories forgotten) ∧
  (∀ c', c' ≠ c →
     categoryCache forgotten !! c' = categoryCache self !! c' ∧
     (c' ∈ modifiedCategories forgotten ↔ c' ∈ modifiedCategories self)) ∧
  getCategory c false forgotten =
    (getSettingsFormData (accessor self) c,
     mkOptimizer (accessor self)
       (<[c := getSettingsFormData (accessor self) c]> (categoryCache forgotten))
       (modifiedCategories forgotten)
       (console forgotten ++ [LogGetCategory c])).
Proof.
apply (forgetCategoryCache_discards Sample.edited output).
apply reachable_setValue, reachable_new.
Defined.

Lemma writeBackAllCategories_each_witness :
  NoDup (modifiedCategories Sample.edited) ∧
  writeBackAllCategories Sample.edited =
    forEach writeBackCategory (modifiedCategories Sample.edited) Sample.edited.
Proof.
apply (writeBackAllCategories_each Sample.edited).
apply reachable_setValue, reachable_new.
Defined.


(** * Calls that write nothing to the store *)

Section Leaf.
Context {Store : Type} `{!ISettingsAccessor Store}.
Implicit Types self : Optimizer Store.

Lemma seen_assigned item v self self' :
  (∀ c, view self' c =
          if decide (c = category item)
          then assignSetting (view self c) (subCategory item) (setting item) v
          else view self c) →
  ∀ f, seen self' f =
         if decide (f = fieldOf item) then (λ _, v) <$> seen self f else seen self f.
Proof.
intros Hv f. unfold seen. rewrite Hv. case_decide as Ec.
- pose proof (fieldIn_assign (view self f.1.1) (fieldOf item) f v) as H.
  simpl in H. rewrite H by done.
  case_decide; case_decide; congruence.
- rewrite decide_False; [done|]. intros ->. done.
Qed.

Lemma findSetting_eq item self :
  (Optimizer_findSetting item self).1 =
    findSetting (view self (category item)) (subCategory item) (setting item).
Proof.
unfold Optimizer_findSetting, bind, ret.
pose proof (getCategory_view self (category item)) as Hv.
destruct (getCategory _ _ _) as [settings self1]. simpl in *. by subst settings.
Qed.

Lemma emits_findSetting Q i :
  Q (LogGetCategory (category i)) → emits Q (Optimizer_findSetting i).
Proof.
intros HQ. apply emits_bind; [by apply emits_getCategory|].
intros; apply emits_ret.
Qed.

Lemma emits_setValue_leaf item v :
  dependents item = None →
  emits (λ e, ∀ c sent, e ≠ LogUpdateCategory c sent ∧ e ≠ CacheForgotten c)
    (setValue item v).
Proof.
intros Hleaf. unfold setValue. rewrite Hleaf.
apply emits_bind; [by apply emits_log|]. intros _.
apply emits_bind; [by apply emits_findSetting|].
intros [found|]; [|by apply emits_log].
case_bool_decide; [|apply emits_ret].
apply emits_bind; [apply emits_ret|]. intros _.
apply emits_bind; [by apply emits_log|]. intros _.
apply emits_bind; [apply emits_assignValue|]. intros _.
apply emits_ret.
Qed.

(** X7: setting a node without dependents is a deferred write: nothing
    is sent to the store and nothing is evicted from the cache; the field
    of the node, if it is there, holds the value from then on, every other
    field is seen as before, no category stops being modified, and when
    the value differs from the one the field had, the category of the node
    is modified. *)
Theorem setValue_leaf_deferred item v self :
  dependents item = None →
  let self' := (setValue item v self).2 in
  accessor self' = accessor self ∧
  (∀ f, seen self' f =
          if decide (f = fieldOf item) then (λ _, v) <$> seen self f
          else seen self f) ∧
  (∀ c, c ∈ modifiedCategories self → c ∈ modifiedCategories self') ∧
  (∀ found, (Optimizer_findSetting item self).1 = Some found → value found ≠ v →
            category item ∈ modifiedCategories self') ∧
  Forall (λ e, ∀ c sent, e ≠ LogUpdateCategory c sent ∧ e ≠ CacheForgotten c)
    (emitted self self').
Proof.
intros Hleaf. cbv zeta.
assert (Htrace : Forall
  (λ e, ∀ c sent, e ≠ LogUpdateCategory c sent ∧ e ≠ CacheForgotten c)
  (emitted self (setValue item v self).2)).
{ apply emitsAt_emitted. by apply emits_setValue_leaf. }
revert Htrace. rewrite findSetting_eq.
pose proof (setValue_eq item v self) as E. rewrite Hleaf in E. cbv zeta in E.
rewrite E. clear E. cbn [snd]. intros Htrace.
set (self0 := (log (LogSetValue (category item) (key item) v) self).2) in *.
pose proof (getCategory_cached self0 (category item) false) as Hc1.
rewrite getCategory_view in Hc1.
pose proof (getCategory_same_view self0 (category item)) as Hv1.
pose proof (getCategory_modified self0 (category item) false) as Hm1.
pose proof (getCategory_accessor self0 (category item) false) as Ha1.
set (self1 := (getCategory (category item) false self0).2) in *.
assert (Hv0 : ∀ c, view self1 c = view self c) by (intros; by rewrite Hv1).
rewrite Hc1 in *. simpl default in *.
change (view self0 (category item)) with (view self (category item)) in *.
assert (Hid : ∀ s,
  (∀ c, view s c = view self c) →
  (∀ p, findSetting (view self (category item)) (subCategory item) (setting item)
          = Some p → value p = v) →
  ∀ f, seen s f =
         if decide (f = fieldOf item) then (λ _, v) <$> seen self f else seen self f).
{ intros s Hs Hval. apply seen_assigned. intros c. rewrite Hs.
  case_decide as Ec; [|done]. subst c. by rewrite assignSetting_id. }
destruct (findSetting _ _ _) as [found|] eqn:Hfound.
- case_bool_decide as Hne.
  + split; [done|]. split; [|split; [|split; [|done]]].
    * apply seen_assigned. intros c. rewrite view_assignValue
        by (change (is_Some (categoryCache self1 !! category item));
            rewrite Hc1; eauto).
      change (view (log _ self1).2 c) with (view self1 c). by rewrite Hv0.
    * intros c Hc. simpl. apply elem_of_Set_add. right. by rewrite Hm1.
    * intros _ _ _. simpl. apply elem_of_Set_add. by left.
  + split; [done|]. split; [|split; [|split; [|done]]].
    * apply Hid; [done|]. intros p [= <-]. by destruct (decide (value found = v)).
    * intros c Hc. by rewrite Hm1.
    * intros p [= <-] Hp. done.
- split; [done|]. split; [|split; [|split; [|done]]].
  + apply Hid; [done|]. intros p Hp. discriminate Hp.
  + intros c Hc. simpl. by rewrite Hm1.
  + intros p Hp. discriminate Hp.
Qed.

(** X8: setting a node whose field the form data does not have is
    reported and does nothing else: the call writes its own line, loads
    the category if it was not cached, and writes that the key was not
    found; the store, the set of modified categories and every form the
    optimizer sees are as before, whether the node has dependents or
    not. *)
Theorem setValue_missing_field item v self :
  (Optimizer_findSetting item self).1 = None →
  let self' := (setValue item v self).2 in
  accessor self' = accessor self ∧
  modifiedCategories self' = modifiedCategories self ∧
  (∀ c, view self' c = view self c) ∧
  ∃ loads,
    (loads = [] ∨ loads = [LogGetCategory (category item)]) ∧
    emitted self self' =
      [LogSetValue (category item) (key item) v] ++ loads ++
      [LogKeyNotFound (key item)].
Proof.
rewrite findSetting_eq. intros Hnone. cbv zeta.
destruct (setValue_same item v self) as (Ha & Hm & Hv & _).
{ intros found Hf. congruence. }
split; [done|]. split; [done|]. split; [done|].
rewrite setValue_eq. cbv zeta. cbn [snd].
set (self0 := (log (LogSetValue (category item) (key item) v) self).2).
pose proof (getCategory_cached self0 (category item) false) as Hc1.
rewrite getCategory_view in Hc1.
destruct (getCategory_console self0 (category item)) as (loads & Hloads & Hcon1).
set (self1 := (getCategory (category item) false self0).2) in *.
rewrite Hc1. simpl default.
change (view self0 (category item)) with (view self (category item)).
rewrite Hnone. exists loads. split; [done|].
apply emitted_app. simpl. rewrite Hcon1. simpl. by rewrite <- !app_assoc.
Qed.

(** ** A target that names no key of the tree *)

Local Abbreviation silent :=
  (λ e : Event, quiet e ∧ ∀ c sent, e ≠ LogUpdateCategory c sent).
Local Abbreviation idle self s :=
  (accessor s = accessor self ∧
   modifiedCategories s = modifiedCategories self ∧
   (∀ c, view s c = view self c) ∧
   ∃ events, console s = console self ++ events ∧ Forall silent events).

Lemma idle_refl self : idle self self.
Proof.
split; [done|]. split; [done|]. split; [done|].
exists []. by rewrite app_nil_r.
Qed.

Lemma idle_trans self s s' : idle self s → idle s s' → idle self s'.
Proof.
intros (Ha & Hm & Hv & l & Hl & HQ) (Ha' & Hm' & Hv' & l' & Hl' & HQ').
split; [congruence|]. split; [congruence|]. split; [intros; by rewrite Hv'|].
exists (l ++ l'). split; [by rewrite Hl', Hl, app_assoc|]. by apply Forall_app.
Qed.

Lemma idle_getCategory c self : idle self (getCategory c false self).2.
Proof.
split; [apply getCategory_accessor|]. split; [apply getCategory_modified|].
split; [apply getCategory_same_view|].
destruct (getCategory_console self c) as (l & Hcase & Hl).
exists l. split; [done|].
destruct Hcase as [-> | ->]; by repeat constructor.
Qed.

Lemma idle_setValuesItem values item self :
  isDependValue values item = false →
  idle self (setValuesItem values item self).2.
Proof.
rewrite isDependValue_eq. intros [Hk Hd]%orb_false_elim.
rewrite setValuesItem_eq. cbn [snd]. rewrite Hk.
destruct (dependents item) as [deps|]; [|apply idle_refl].
cbv zeta. rewrite forEach_untouched by exact Hd. cbn [snd].
rewrite findValue_eq. cbn [fst snd].
pose proof (idle_getCategory (category item) self) as H1.
set (self1 := (getCategory (category item) false self).2) in *.
apply (idle_trans _ self1); [exact H1|].
destruct (setValue_same item (read (seen self (fieldOf item))) self1)
  as (Ha & Hm & Hv & Hl); [|done].
intros found Hf. destruct H1 as (_ & _ & Hv1 & _).
rewrite Hv1 in Hf. unfold seen, fieldIn. simpl. by rewrite Hf.
Qed.

Lemma idle_setValues values definitions self :
  isDependValues values definitions = false →
  idle self (setValues values definitions self).2.
Proof.
revert self. induction definitions as [|item definitions IH]; intros self Hd.
- apply idle_refl.
- apply orb_false_elim in Hd as [Hitem Hrest].
  unfold setValues. rewrite forEach_cons.
  apply (idle_trans _ (setValuesItem values item self).2).
  + by apply idle_setValuesItem.
  + by apply IH.
Qed.

(** X9: a target that names no key of the nodes it is applied to, or of
    their descendants, is not applied at all: [setValues] sends nothing
    to the store, changes no value, marks no category modified, and
    leaves every form the optimizer sees as it was; all it may do is load
    categories into the cache. *)
Theorem setValues_names_nothing values definitions self :
  isDependValues values definitions = false →
  let self' := (setValues values definitions self).2 in
  accessor self' = accessor self ∧
  modifiedCategories self' = modifiedCategories self ∧
  (∀ c, view self' c = view self c) ∧
  Forall (λ e, quiet e ∧ ∀ c sent, e ≠ LogUpdateCategory c sent)
    (emitted self self').
Proof.
intros Hd. cbv zeta.
destruct (idle_setValues values definitions self Hd) as (Ha & Hm & Hv & l & Hl & HQ).
split; [done|]. split; [done|]. split; [done|].
by rewrite (emitted_app _ _ l).
Qed.

(** X10: optimizing to the empty target on a new optimizer is a no-op
    for every store: nothing is written, no category is left modified,
    and the optimizer sees the forms of the store. *)
Theorem optimize_empty (store : Store) :
  let self' := (optimize ∅ (new_Optimizer store)).2 in
  accessor self' = store ∧
  modifiedCategories self' = [] ∧
  (∀ c, view self' c = getSettingsFormData store c) ∧
  Forall (λ e, quiet e ∧ ∀ c sent, e ≠ LogUpdateCategory c sent) (console self').
Proof.
cbv zeta. unfold optimize. rewrite then_eq.
destruct (idle_setValues ∅ definitionParams (new_Optimizer store))
  as (Ha & Hm & Hv & l & Hl & HQ); [by vm_compute|].
set (s := (setValues ∅ definitionParams (new_Optimizer store)).2) in *.
unfold writeBackAllCategories. rewrite then_eq, Hm. cbn.
split; [done|]. split; [done|]. split; [exact Hv|].
by rewrite Hl.
Qed.
End Leaf.

Lemma setValue_leaf_deferred_witness :
  let item := Sample.videoBitrateItem in
  let v := VNum 2500 in
  let self := new_Optimizer (Sample.store "Advanced") in
  let self' := (setValue item v self).2 in
  accessor self' = accessor self ∧
  (∀ f, seen self' f =
          if decide (f = fieldOf item) then (λ _, v) <$> seen self f
          else seen self f) ∧
  (∀ c, c ∈ modifiedCategories self → c ∈ modifiedCategories self') ∧
  (∀ found, (Optimizer_findSetting item self).1 = Some found → value found ≠ v →
            category item ∈ modifiedCategories self') ∧
  Forall (λ e, ∀ c sent, e ≠ LogUpdateCategory c sent ∧ e ≠ CacheForgotten c)
    (emitted self self').
Proof.
apply (setValue_leaf_deferred Sample.videoBitrateItem (VNum 2500)
         (new_Optimizer (Sample.store "Advanced"))).
reflexivity.
Defined.

Lemma setValue_missing_field_witness :
  let item := Sample.videoBitrateItem in
  let v := VNum 2500 in
  let self := new_Optimizer Sample.bareStore in
  let self' := (setValue item v self).2 in
  accessor self' = accessor self ∧
  modifiedCategories self' = modifiedCategories self ∧
  (∀ c, view self' c = view self c) ∧
  ∃ loads,
    (loads = [] ∨ loads = [LogGetCategory (category item)]) ∧
    emitted self self' =
      [LogSetValue (category item) (key item) v] ++ loads ++
      [LogKeyNotFound (key item)].
Proof.
apply (setValue_missing_field Sample.videoBitrateItem (VNum 2500)
         (new_Optimizer Sample.bareStore)).
vm_compute. reflexivity.
Defined.

Lemma setValues_names_nothing_witness :
  let values : OptimizeSettings := {[fps := VStr "30"]} in
  let self := new_Optimizer (Sample.store "Advanced") in
  let self' := (setValues values advancedParams self).2 in
  accessor self' = accessor self ∧
  modifiedCategories self' = modifiedCategories self ∧
  (∀ c, view self' c = view self c) ∧
  Forall (λ e, quiet e ∧ ∀ c sent, e ≠ LogUpdateCategory c sent)
    (emitted self self').
Proof.
apply (setValues_names_nothing {[fps := VStr "30"]} advancedParams
         (new_Optimizer (Sample.store "Advanced"))).
vm_compute. reflexivity.
Defined.


(** * What reading the settings yields *)

Section Reads.
Context {Store : Type} `{!ISettingsAccessor Store}.
Implicit Types self : Optimizer Store.

(** A call that only writes events of [Q] keeps the trace since [self]
    within [Q]. *)
Lemma keeps_emits {A} (Q : Event → Prop) (m : @M Store A) self :
  emits Q m →
  keeps (λ s, ∃ events, console s = console self ++ events ∧ Forall Q events) m.
Proof.
intros Hm s (l & Hl & HQ). destruct (Hm s) as (l' & Hl' & HQ').
exists (l ++ l'). split; [by rewrite Hl', Hl, app_assoc|]. by apply Forall_app.
Qed.

(** X11: for every tree of definitions and every store, [getValues]
    yields one pair for each node [iterateDefinitions] yields, in the
    same order and under the key of the node, and the only values it
    changes on the way are those of nodes with dependents: a node without
    dependents is read and never set. *)
Theorem getValues_reads_every_node definitions self :
  map fst (getValues definitions self).1 = map key (iterateDefinitions definitions) ∧
  Forall (changesBranching (iterateDefinitions definitions))
    (emitted self (getValues definitions self).2).
Proof.
split; [apply getValues_keys|].
set (nodes := iterateDefinitions definitions).
assert (Hq : ∀ e, quiet e → changesBranching nodes e).
{ intros e Hq c k old new E. by destruct (Hq c k old new). }
destruct (keeps_getValues
  (λ s, ∃ events, console s = console self ++ events ∧
                  Forall (changesBranching nodes) events) definitions)
  with (self := self) as (l & Hl & HQ).
- intros d _. apply keeps_emits, emits_findValue, Hq. by intros ????.
- intros d v Hd Hdeps. apply keeps_emits.
  eapply emits_weaken; [|apply emits_setValue].
  intros e [He | [old ->]]; [by apply Hq|].
  intros c k old' new [= <- <- <- <-]. by exists d.
- exists []. by rewrite app_nil_r.
- by rewrite (emitted_app _ _ l).
Qed.

(** X12: on a store that keeps form data as written, the snapshot
    [getCurrentSettings] returns in a consistent state gives the key of
    every node of the shipped tree the value the optimizer sees for the
    field of the node, [undefined] when the field is not there; for a new
    optimizer that is the value in the store.  Reading is repeatable: a
    second call returns the same snapshot. *)
Theorem getCurrentSettings_reads_fields `{!LawfulStore Store} self :
  consistent self →
  (∀ d, d ∈ iterateDefinitions definitionParams →
        (getCurrentSettings self).1 !! key d = Some (read (seen self (fieldOf d)))) ∧
  (getCurrentSettings (getCurrentSettings self).2).1 = (getCurrentSettings self).1 ∧
  (∀ (store : Store) d,
     d ∈ iterateDefinitions definitionParams →
     (getCurrentSettings (new_Optimizer store)).1 !! key d =
       Some (read (stored store (fieldOf d)))).
Proof.
intros Hc. split; [|split].
- intros d Hd. by apply getCurrentSettings_lookup.
- destruct (getCurrentSettings_unchanged self Hc) as [Hc1 Hseen].
  assert (Hfst : ∀ s, consistent s →
    (getCurrentSettings s).1 =
      Object_assign (map (λ d, (key d, read (seen s (fieldOf d))))
                       (iterateDefinitions definitionParams))).
  { intros s Hs. unfold getCurrentSettings, bind, ret.
    pose proof (getValues_yields definitionParams s Hs
                  definitionParams_fields_NoDup) as Hy.
    destruct (getValues definitionParams s) as [objects s1]. cbn [fst snd] in *.
    by subst objects. }
  rewrite !Hfst by done. f_equal. apply map_ext. intros d. by rewrite Hseen.
- intros store d Hd. rewrite getCurrentSettings_lookup; [|apply consistent_new|done].
  by rewrite seen_new.
Qed.
End Reads.

Lemma getCurrentSettings_reads_fields_witness :
  let self := Sample.edited in
  (∀ d, d ∈ iterateDefinitions definitionParams →
        (getCurrentSettings self).1 !! key d = Some (read (seen self (fieldOf d)))) ∧
  (getCurrentSettings (getCurrentSettings self).2).1 = (getCurrentSettings self).1 ∧
  (∀ (store : PlainStore.t) d,
     d ∈ iterateDefinitions definitionParams →
     (getCurrentSettings (new_Optimizer store)).1 !! key d =
       Some (read (stored store (fieldOf d)))).
Proof.
apply (getCurrentSettings_reads_fields Sample.edited).
apply consistent_setValue, consistent_new.
Defined.


(** * The exact effect of a write *)

Section Exact.
Context {Store : Type} `{!ISettingsAccessor Store} `{!LawfulStore Store}.
Implicit Types self : Optimizer Store.
Local Abbreviation consistent := (@consistent Store _).
Local Abbreviation still f self s := (consistent s ∧ seen s f = seen self f).

(** A field none of whose nodes is named is seen after the round of a
    node as before: the pivots of the node change its own field only, and
    the last [setValue] of the round sets it back to the value read at the
    start. *)
Lemma setValuesItem_still values f item :
  (∀ d, d ∈ iterateDefinition item → fieldOf d = f → values !! key d = None) →
  ∀ self, consistent self → still f self (setValuesItem values item self).2.
Proof.
induction item as [item IH] using DefinitionParam_tree_ind.
intros Hun self Hc. rewrite setValuesItem_eq. cbn [snd].
assert (Hown : fieldOf item = f → hasOwnProperty values (key item) = false).
{ intros E. unfold hasOwnProperty. rewrite (Hun item); [|apply iterateDefinition_self|done].
  apply bool_decide_false. by intros [? [=]]. }
assert (Hset : ∀ v s, fieldOf item ≠ f → still f self s →
                       still f self (setValue item v s).2).
{ intros v s Hne [Hs Hf]. split; [by apply consistent_setValue|].
  rewrite seen_setValue by done. by rewrite decide_False by congruence. }
destruct (dependents item) as [deps|] eqn:Hdeps.
- specialize (IH deps eq_refl). rewrite Forall_forall in IH. cbv zeta.
  rewrite findValue_eq. cbn [fst snd].
  pose proof (consistent_getCategory (category item) self Hc) as Hc1.
  assert (Hs1 : ∀ g, seen (getCategory (category item) false self).2 g = seen self g).
  { intros g. apply seen_same_view. intros c. apply getCategory_same_view. }
  set (self1 := (getCategory (category item) false self).2) in *.
  set (body := λ dependent : Value * list DefinitionParam,
         if isDependValues values dependent.2
         then setValue item dependent.1 >> setValues values dependent.2
         else ret tt).
  destruct (decide (fieldOf item = f)) as [E|Hne].
  + rewrite Hown by done.
    assert (H2 : consistent (forEach body deps self1).2 ∧
                 ∀ g, is_Some (seen (forEach body deps self1).2 g) ↔
                      is_Some (seen self g)).
    { apply (forEach_preserves
               (λ s, consistent s ∧ ∀ g, is_Some (seen s g) ↔ is_Some (seen self g)));
        [|split; [done|intros g; by rewrite Hs1]].
      intros dep s _ [Hs Hfound]. unfold body.
      destruct (isDependValues values dep.2); [|done].
      rewrite then_eq. apply setValues_keeps_fields.
      split; [by apply consistent_setValue|].
      intros g. rewrite seen_setValue by done. case_decide; [|done].
      by rewrite fmap_is_Some. }
    destruct H2 as [Hc2 Hfound2].
    split; [by apply consistent_setValue|].
    rewrite seen_setValue by done. subst f. rewrite decide_True by done.
    specialize (Hfound2 (fieldOf item)).
    destruct (seen self (fieldOf item)) as [x|] eqn:Ex.
    * destruct (proj2 Hfound2) as [y Hy]; [eauto|]. by rewrite Hy.
    * destruct (seen (forEach body deps self1).2 (fieldOf item)) as [y|] eqn:Ey;
        [|reflexivity].
      destruct (proj1 Hfound2) as [? [=]]. eauto.
  + apply Hset; [done|].
    apply (forEach_preserves (λ s, still f self s));
      [|split; [done|apply Hs1]].
    intros dep s Hdep Hs. unfold body.
    destruct (isDependValues values dep.2); [|done].
    rewrite then_eq. unfold setValues.
    apply (forEach_preserves (λ s, still f self s)); [|by apply Hset].
    intros p s' Hp [Hs' Hf'].
    specialize (IH dep Hdep). rewrite Forall_forall in IH.
    destruct (IH p Hp) with (self := s') as [Hc' Hseen']; [|done|].
    { intros d Hd. apply Hun. by eapply iterateDefinition_child. }
    split; [done|]. by rewrite Hseen'.
- destruct (hasOwnProperty values (key item)) eqn:Ek; [|done].
  apply Hset; [|done]. intros E. specialize (Hown E). congruence.
Qed.

Lemma setValues_still values f definitions :
  (∀ d, d ∈ iterateDefinitions definitions → fieldOf d = f → values !! key d = None) →
  ∀ self, consistent self → still f self (setValues values definitions self).2.
Proof.
intros Hun self Hc.
apply (forEach_preserves (λ s, still f self s)); [|done].
intros item s Hitem [Hs Hf].
destruct (setValuesItem_still values f item) with (self := s) as [Hc' Hseen']; [|done|].
{ intros d Hd. apply Hun. by eapply iterateDefinitions_item. }
split; [done|]. by rewrite Hseen'.
Qed.

(** What [optimize] makes of the fields, from any consistent state. *)
Lemma optimize_fields values self :
  consistent self →
  consistent (optimize values self).2 ∧
  modifiedCategories (optimize values self).2 = [] ∧
  (∀ d v, d ∈ iterateDefinitions definitionParams → values !! key d = Some v →
     seen (optimize values self).2 (fieldOf d) = (λ _, v) <$> seen self (fieldOf d)) ∧
  (∀ f, (∀ d, d ∈ iterateDefinitions definitionParams → fieldOf d = f →
              values !! key d = None) →
        seen (optimize values self).2 f = seen self f).
Proof.
intros Hc. unfold optimize. rewrite then_eq.
destruct (setValues_achieves values definitionParams definitionParams_fields_NoDup
            self Hc) as (Hc1 & _ & Hfound & Hgoal).
set (s1 := (setValues values definitionParams self).2) in *.
destruct (writeBackAllCategories_unchanged s1 Hc1) as [[Hc2 Hseen2] Hm2].
split; [done|]. split; [done|]. split.
- intros d v Hd Hv. rewrite Hseen2.
  destruct (seen self (fieldOf d)) as [x|] eqn:Ex.
  + rewrite (Hgoal (fieldOf d) v); [done| |by rewrite Ex].
    apply elem_of_targets. by exists d.
  + destruct (seen s1 (fieldOf d)) as [y|] eqn:Ey; [|done].
    destruct (proj1 (Hfound (fieldOf d))) as [? E]; [by rewrite Ey|].
    by rewrite Ex in E.
- intros f Hun. rewrite Hseen2.
  by destruct (setValues_still values f definitionParams Hun self Hc).
Qed.

(** X13: on a store that keeps form data as written, [setValues] leaves
    every field none of whose nodes is named by the target as the
    optimizer saw it before the call, for every tree of definitions: this
    holds for the fields outside the tree, for the nodes of branches that
    are not entered, and for the nodes with dependents that are pivoted on
    the way, which are set back to the value read at the start. *)
Theorem setValues_restores_unnamed values definitions self f :
  consistent self →
  (∀ d, d ∈ iterateDefinitions definitions → fieldOf d = f →
        values !! key d = None) →
  consistent (setValues values definitions self).2 ∧
  seen (setValues values definitions self).2 f = seen self f.
Proof. intros Hc Hun. by apply setValues_still. Qed.

(** X14: on a store that keeps form data as written, what [optimize]
    leaves in the store, for a new optimizer: the field of a node the
    target names holds the value the target gives, if the store has the
    field, and is still missing if not; every field none of whose nodes
    is named holds what it held. *)
Theorem optimize_effect (store : Store) values :
  let self' := (optimize values (new_Optimizer store)).2 in
  (∀ d v, d ∈ iterateDefinitions definitionParams → values !! key d = Some v →
     stored (accessor self') (fieldOf d) = (λ _, v) <$> stored store (fieldOf d)) ∧
  (∀ f, (∀ d, d ∈ iterateDefinitions definitionParams → fieldOf d = f →
              values !! key d = None) →
        stored (accessor self') f = stored store f).
Proof.
cbv zeta.
destruct (optimize_fields values (new_Optimizer store) (consistent_new store))
  as (Hc & Hm & Hnamed & Hun).
split.
- intros d v Hd Hv. rewrite stored_seen by done.
  rewrite (Hnamed d v Hd Hv). by rewrite seen_new.
- intros f Hf. rewrite stored_seen by done. rewrite (Hun f Hf). by rewrite seen_new.
Qed.

(** X15: on a store that keeps form data as written, optimizing twice to
    the same target leaves every field of the store as optimizing once
    does, from any consistent state. *)
Theorem optimize_idempotent values self :
  consistent self →
  ∀ f, stored (accessor (optimize values (optimize values self).2).2) f =
       stored (accessor (optimize values self).2) f.
Proof.
intros Hc f.
destruct (optimize_fields values self Hc) as (Hc1 & Hm1 & Hnamed1 & Hun1).
set (s1 := (optimize values self).2) in *.
destruct (optimize_fields values s1 Hc1) as (Hc2 & Hm2 & Hnamed2 & Hun2).
rewrite !stored_seen by done.
set (nodes := iterateDefinitions definitionParams) in *.
destruct (decide (f ∈ map fieldOf nodes)) as [Hin|Hout].
- apply list_elem_of_fmap in Hin as (d & -> & Hd).
  destruct (values !! key d) as [v|] eqn:Hv.
  + rewrite (Hnamed2 d v Hd Hv), (Hnamed1 d v Hd Hv).
    by destruct (seen self (fieldOf d)).
  + apply Hun2. intros d' Hd' E.
    apply (NoDup_fmap_eq fieldOf nodes d' d definitionParams_fields_NoDup Hd' Hd) in E.
    by subst d'.
- apply Hun2. intros d Hd E. destruct Hout. apply list_elem_of_fmap. by exists d.
Qed.
End Exact.

Lemma setValues_restores_unnamed_witness :
  let values : OptimizeSettings := {[videoBitrate := VNum 2500]} in
  let self := new_Optimizer (Sample.store "Simple") in
  consistent (setValues values definitionParams self).2 ∧
  seen (setValues values definitionParams self).2 (fieldOf Sample.outputModeItem) =
    seen self (fieldOf Sample.outputModeItem).
Proof.
apply (setValues_restores_unnamed {[videoBitrate := VNum 2500]} definitionParams
         (new_Optimizer (Sample.store "Simple")) (fieldOf Sample.outputModeItem)).
- apply consistent_new.
- intros d Hd E. apply list_elem_of_In in Hd.
  vm_compute in Hd.
  repeat (destruct Hd as [<-|Hd]; [first [reflexivity | discriminate E]|]).
  destruct Hd.
Defined.

Lemma optimize_effect_witness :
  let values : OptimizeSettings := {[videoBitrate := VNum 2500]} in
  let store := Sample.store "Simple" in
  let self' := (optimize values (new_Optimizer store)).2 in
  (∀ d v, d ∈ iterateDefinitions definitionParams → values !! key d = Some v →
     stored (accessor self') (fieldOf d) = (λ _, v) <$> stored store (fieldOf d)) ∧
  (∀ f, (∀ d, d ∈ iterateDefinitions definitionParams → fieldOf d = f →
              values !! key d = None) →
        stored (accessor self') f = stored store f).
Proof.
exact (optimize_effect (Sample.store "Simple") {[videoBitrate := VNum 2500]}).
Defined.

Lemma optimize_idempotent_witness :
  let values : OptimizeSettings := {[videoBitrate := VNum 2500]} in
  let self := Sample.edited in
  let f := fieldOf Sample.videoBitrateItem in
  stored (accessor (optimize values (optimize values self).2).2) f =
    stored (accessor (optimize values self).2) f.
Proof.
apply (optimize_idempotent {[videoBitrate := VNum 2500]} Sample.edited).
apply consistent_setValue, consistent_new.
Defined.


(** * When the report throws *)

Lemma F_bind_fst {A B} (m : F A) (k : A → F B) :
  (F_bind m k).1 = match m.1 with Normal a => (k a).1 | TypeError => TypeError end.
Proof. destruct m as [[a|] lines]; simpl; [by destruct (k a)|done]. Qed.

Lemma prop_number (values : OptimizeSettings) k n :
  prop values k = VNum n ↔ values !! k = Some (VNum n).
Proof.
unfold prop. destruct (values !! k) as [v|]; simpl; split; congruence.
Qed.

Section Throws.
Variable translate : string → string.
Variables current optimized : OptimizeSettings.

Lemma value_throws opt v :
  (OptKeyProperty.value translate opt v).1 = TypeError ↔
  OptKeyProperty.lookupValueName opt = Some true ∧ ∃ n, v = VNum n.
Proof.
unfold OptKeyProperty.value. destruct v as [s|n|].
- case_bool_decide; [case_bool_decide|]; simpl; split; try done;
    by intros [_ [? [=]]].
- case_bool_decide; simpl; split; try done; [by eauto|by intros [? _]].
- simpl. split; [done|]. by intros [_ [? [=]]].
Qed.

Lemma optimizeItem_throws d :
  (optimizeItem translate current optimized d).1 = TypeError ↔
  lookupValueName d = Some true ∧
  ∃ n, current !! key d = Some (VNum n) ∨ optimized !! key d = Some (VNum n).
Proof.
unfold optimizeItem. cbn [OptKeyProperty.key OptKeyProperty.new].
destruct (label_normal translate (OptKeyProperty.new d)) as [name Hname].
pose proof (value_throws (OptKeyProperty.new d) (prop current (key d))) as Hcur.
pose proof (value_throws (OptKeyProperty.new d) (prop optimized (key d))) as Hopt.
cbn [OptKeyProperty.lookupValueName OptKeyProperty.new] in Hcur, Hopt.
set (opt := OptKeyProperty.new d) in *.
unfold hasOwnProperty. case_bool_decide as Hown.
- rewrite F_bind_fst, Hname. cbv beta iota. rewrite F_bind_fst.
  destruct (OptKeyProperty.value translate opt (prop current (key d))).1
    as [cv|] eqn:Ecur.
  + rewrite F_bind_fst.
    destruct (OptKeyProperty.value translate opt (prop optimized (key d))).1
      as [ov|] eqn:Eopt.
    * simpl. split; [done|]. intros [Hl [n [Hn|Hn]]].
      -- apply prop_number in Hn. discriminate (proj2 Hcur (conj Hl (ex_intro _ n Hn))).
      -- apply prop_number in Hn. discriminate (proj2 Hopt (conj Hl (ex_intro _ n Hn))).
    * split; [|done]. intros _. destruct (proj1 Hopt eq_refl) as [Hl [n Hn]].
      split; [done|]. exists n. right. by apply prop_number.
  + split; [|done]. intros _. destruct (proj1 Hcur eq_refl) as [Hl [n Hn]].
    split; [done|]. exists n. left. by apply prop_number.
- rewrite F_bind_fst, Hname. cbv beta iota. rewrite F_bind_fst.
  destruct (OptKeyProperty.value translate opt (prop current (key d))).1
    as [cv|] eqn:Ecur.
  + simpl. split; [done|]. intros [Hl [n [Hn|Hn]]].
    * apply prop_number in Hn. discriminate (proj2 Hcur (conj Hl (ex_intro _ n Hn))).
    * destruct Hown. by rewrite Hn.
  + split; [|done]. intros _. destruct (proj1 Hcur eq_refl) as [Hl [n Hn]].
    split; [done|]. exists n. left. by apply prop_number.
Qed.

Lemma optimizeInfo_loop_throws definitions : ∀ m,
  (optimizeInfo_loop translate current optimized definitions m).1 = TypeError ↔
  ∃ d, d ∈ definitions ∧ (optimizeItem translate current optimized d).1 = TypeError.
Proof.
induction definitions as [|d definitions IH]; intros m.
- simpl. split; [done|]. by intros (d & Hd%elem_of_nil & _).
- cbn [optimizeInfo_loop]. rewrite F_bind_fst.
  destruct (optimizeItem translate current optimized d).1 as [item|] eqn:Eitem.
  + rewrite IH. split.
    * intros (d' & Hd' & Ht). exists d'. split; [by right|done].
    * intros (d' & Hd' & Ht). apply elem_of_cons in Hd' as [->|Hd'].
      -- congruence.
      -- by exists d'.
  + split; [|done]. intros _. exists d. split; [by left|done].
Qed.

(** X16: [optimizeInfo] throws exactly when one of the two snapshots
    holds a number under the key of a node marked [lookupValueName]; in
    every other case, whatever the snapshots hold, it returns the
    report. *)
Theorem optimizeInfo_throws :
  (optimizeInfo translate current optimized).1 = TypeError ↔
  ∃ d n,
    d ∈ iterateDefinitions definitionParams ∧
    lookupValueName d = Some true ∧
    (current !! key d = Some (VNum n) ∨ optimized !! key d = Some (VNum n)).
Proof.
unfold optimizeInfo. rewrite optimizeInfo_loop_throws. split.
- intros (d & Hd & Ht). apply optimizeItem_throws in Ht as [Hl [n Hn]]. by exists d, n.
- intros (d & n & Hd & Hl & Hn). exists d. split; [done|].
  apply optimizeItem_throws. eauto.
Qed.
End Throws.


(** * The optimizer between two public calls, and its writes *)

(** X17: the check of the tree passes exactly when every member of
    [OptimizationKey] is the key of some node; when it does not, the one
    line it writes lists missing keys only, at least one, each once, in
    the order of the enumeration. *)
Theorem validateDefinitionParams_passes params :
  (validateDefinitionParams params = [] ↔
   ∀ k, k ∈ map key (iterateDefinitions params)) ∧
  (∀ line, line ∈ validateDefinitionParams params →
     ∃ missing,
       line = MissingKeys missing ∧ missing ≠ [] ∧ NoDup missing ∧
       missing `sublist_of` OptimizationKey_values ∧
       ∀ k, k ∈ missing → k ∉ map key (iterateDefinitions params)).
Proof.
unfold validateDefinitionParams. cbv zeta.
assert (Hnil : missingKeys params = [] ↔
               ∀ k, k ∈ map key (iterateDefinitions params)).
{ split.
  - intros E k. destruct (decide (k ∈ map key (iterateDefinitions params))) as [|Hn];
      [done|].
    apply elem_of_missingKeys in Hn. rewrite E in Hn. by apply elem_of_nil in Hn.
  - intros Hall. destruct (missingKeys params) as [|k l] eqn:E; [done|].
    assert (Hk : k ∈ missingKeys params) by (rewrite E; by left).
    apply elem_of_missingKeys in Hk. by destruct Hk. }
split.
- rewrite <- Hnil. case_bool_decide as Hlen.
  + split; [done|]. intros E. rewrite E in Hlen. simpl in Hlen. lia.
  + split; [|done]. intros _. destruct (missingKeys params); [done|].
    simpl in Hlen. lia.
- intros line Hline. case_bool_decide as Hlen; [|by apply elem_of_nil in Hline].
  apply list_elem_of_singleton in Hline as ->.
  exists (missingKeys params). split; [done|]. split; [|split; [|split]].
  + intros E. rewrite E in Hlen. simpl in Hlen. lia.
  + apply NoDup_filter, OptimizationKey_values_NoDup.
  + apply sublist_filter.
  + intros k. apply elem_of_missingKeys.
Qed.

Section Audit.
Context {Store : Type} `{!ISettingsAccessor Store}.
Implicit Types self : Optimizer Store.

(** X18: between two calls of its public methods an optimizer has
    nothing pending, on every store: no category is modified, so every
    edit [getCurrentSettings] or [optimize] made to a cached form has been
    sent to the store when the call returns. *)
Theorem settled_nothing_pending self :
  settled self → modifiedCategories self = [] ∧ reachable self.
Proof.
induction 1 as [store|self store _ [IHm IHr]|self _ [IHm IHr]|self optimized _ [IHm IHr]].
- split; [done|apply reachable_new].
- split; [done|by apply reachable_host].
- split; [|by apply reachable_getCurrentSettings].
  unfold getCurrentSettings, bind, ret.
  pose proof (getValues_nothing_modified definitionParams self IHm) as Hm.
  by destruct (getValues definitionParams self).
- split; [|by apply reachable_optimize].
  unfold optimize. rewrite then_eq. unfold writeBackAllCategories. by rewrite then_eq.
Qed.

(** ** Every write to the store is on the trace *)

Local Abbreviation logged self :=
  (λ s : Optimizer Store,
     ∃ events, console s = console self ++ events ∧
               accessor s = replay events (accessor self)).

Lemma replay_app events events' (store : Store) :
  replay (events ++ events') store = replay events' (replay events store).
Proof. apply fold_left_app. Qed.

Lemma logged_step self s s' events :
  console s' = console s ++ events →
  accessor s' = replay events (accessor s) →
  logged self s → logged self s'.
Proof.
intros Hc Ha (l & Hl & Hal). exists (l ++ events).
split; [by rewrite Hc, Hl, app_assoc|]. by rewrite replay_app, <- Hal.
Qed.

Lemma logged_log self e :
  (∀ c sent, e ≠ LogUpdateCategory c sent) → keeps (logged self) (log e).
Proof.
intros He s. apply (logged_step _ _ _ [e]); [done|].
by destruct e; try done; destruct (He c sent).
Qed.

Lemma logged_getCategory self c : keeps (logged self) (getCategory c false).
Proof.
intros s. destruct (getCategory_console s c) as (l & Hcase & Hl).
apply (logged_step _ _ _ l); [done|].
rewrite getCategory_accessor. by destruct Hcase as [-> | ->].
Qed.

Lemma logged_updateCategory self c : keeps (logged self) (updateCategory c).
Proof.
intros s. destruct (categoryCache s !! c) as [settings|] eqn:E.
- rewrite (updateCategory_hit _ _ settings) by done.
  by apply (logged_step _ _ _ [LogUpdateCategory c settings]).
- by rewrite updateCategory_miss.
Qed.

Lemma logged_writeBackCategory self c : keeps (logged self) (writeBackCategory c).
Proof.
intros s. destruct (decide (c ∈ modifiedCategories s)) as [Hm|Hm].
- destruct (categoryCache s !! c) as [settings|] eqn:E.
  + rewrite (writeBackCategory_dirty _ _ settings) by done.
    by apply (logged_step _ _ _ [LogUpdateCategory c settings]).
  + rewrite writeBackCategory_skipped by done.
    apply (logged_step _ _ _ []); [by rewrite app_nil_r|done].
- by rewrite writeBackCategory_clean.
Qed.

Lemma logged_writeBackAllCategories self : keeps (logged self) writeBackAllCategories.
Proof.
intros s Hs. unfold writeBackAllCategories. rewrite then_eq.
assert (H : logged self (forEach updateCategory (modifiedCategories s) s).2).
{ exact (keeps_forEach (logged self) _ _
           (λ x _, logged_updateCategory self x) s Hs). }
revert H. apply (logged_step _ _ _ []); [by rewrite app_nil_r|done].
Qed.

Lemma logged_forgetCategoryCache self c : keeps (logged self) (forgetCategoryCache c).
Proof.
intros s. destruct (categoryCache s !! c) as [settings|] eqn:E.
- rewrite (forgetCategoryCache_hit _ _ settings) by done.
  by apply (logged_step _ _ _ [CacheForgotten c]).
- by rewrite forgetCategoryCache_miss.
Qed.

Lemma logged_assignValue self item v : keeps (logged self) (assignValue item v).
Proof. intros s. apply (logged_step _ _ _ []); [by rewrite app_nil_r|done]. Qed.

Lemma logged_findValue self i : keeps (logged self) (Optimizer_findValue i).
Proof. apply keeps_bind; [apply logged_getCategory|intros; apply keeps_ret]. Qed.

Lemma logged_findSetting self i : keeps (logged self) (Optimizer_findSetting i).
Proof. apply keeps_bind; [apply logged_getCategory|intros; apply keeps_ret]. Qed.

Lemma logged_setValue self item v : keeps (logged self) (setValue item v).
Proof.
unfold setValue.
apply keeps_bind; [by apply logged_log|intros _].
apply keeps_bind; [apply logged_findSetting|intros [found|]]; [|by apply logged_log].
case_bool_decide; [|apply keeps_ret].
apply keeps_bind.
{ destruct (dependents item); [|apply keeps_ret].
  apply keeps_forEach. intros dep _. apply keeps_forEach. intros p _.
  apply logged_writeBackCategory. }
intros _. apply keeps_bind; [by apply logged_log|intros _].
apply keeps_bind; [apply logged_assignValue|intros _].
destruct (dependents item); [|apply keeps_ret].
apply keeps_bind; [apply logged_writeBackCategory|intros _].
apply keeps_forEach. intros dep _. apply keeps_forEach. intros p _.
apply logged_forgetCategoryCache.
Qed.

Lemma logged_getValues self definitions : keeps (logged self) (getValues definitions).
Proof.
apply keeps_getValues; intros; [apply logged_findValue|apply logged_setValue].
Qed.

Lemma logged_setValues self values definitions :
  keeps (logged self) (setValues values definitions).
Proof.
apply keeps_setValues; intros; [apply logged_findValue|apply logged_setValue].
Qed.

Lemma logged_refl self : logged self self.
Proof. exists []. by rewrite app_nil_r. Qed.

Lemma logged_emitted self s :
  logged self s → accessor s = replay (emitted self s) (accessor self).
Proof. intros (l & Hl & Ha). by rewrite (emitted_app _ _ l). Qed.

(** X19: the optimizer changes the store through [updateCategory] only,
    and every call of it is on the trace: after [setValue], [getValues],
    [setValues], [getCurrentSettings] or [optimize], the store is the store
    before the call with the write-backs the call logged applied in order;
    a call that logs none leaves the store as it is. *)
Theorem store_changes_are_logged :
  (∀ item v self,
     accessor (setValue item v self).2 =
       replay (emitted self (setValue item v self).2) (accessor self)) ∧
  (∀ definitions self,
     accessor (getValues definitions self).2 =
       replay (emitted self (getValues definitions self).2) (accessor self)) ∧
  (∀ values definitions self,
     accessor (setValues values definitions self).2 =
       replay (emitted self (setValues values definitions self).2) (accessor self)) ∧
  (∀ self,
     accessor (getCurrentSettings self).2 =
       replay (emitted self (getCurrentSettings self).2) (accessor self)) ∧
  (∀ optimized self,
     accessor (optimize optimized self).2 =
       replay (emitted self (optimize optimized self).2) (accessor self)).
Proof.
split; [|split; [|split; [|split]]].
- intros item v self. apply logged_emitted, logged_setValue, logged_refl.
- intros definitions self. apply logged_emitted, logged_getValues, logged_refl.
- intros values definitions self. apply logged_emitted, logged_setValues, logged_refl.
- intros self. apply logged_emitted.
  apply (keeps_bind (logged self)); [apply logged_getValues|intros; apply keeps_ret|].
  apply logged_refl.
- intros optimized self. apply logged_emitted. unfold optimize. rewrite then_eq.
  apply logged_writeBackAllCategories, logged_setValues, logged_refl.
Qed.
End Audit.

Lemma settled_nothing_pending_witness :
  let self :=
    (optimize {[videoBitrate := VNum 2500]}
       (new_Optimizer (Sample.store "Advanced"))).2 in
  modifiedCategories self = [] ∧ reachable self.
Proof.
apply (settled_nothing_pending
         (optimize {[videoBitrate := VNum 2500]}
            (new_Optimizer (Sample.store "Advanced"))).2).
apply settled_optimize, settled_new.
Defined.
